(** * vina-box: post-processing of docking results

    A shallow embedding of [top_scoring_docking.py]:

    - [postprocess_vina_results]: the rank sorter (lines 18-32),
    - the identifier normalizer, the inner join and the empty-merge guard of
      [plot_sa_vs_affinity] (lines 36-53),
    - the Pareto scan of [plot_sa_vs_affinity] (lines 147-164).

    Python floats are IEEE 754 binary64 values; they are modelled by the
    standard library's [spec_float], compared with [SFcompare].  Library
    calls ([csv.reader], [float], [list.sort], [pandas.merge],
    [DataFrame.sort_values]) are modelled by their documented behaviour; the
    rendering calls (matplotlib) are left out. *)

From Stdlib Require Import List String Ascii Bool ZArith Lia.
From Stdlib Require Import Sorted Permutation RelationClasses OrderedTypeEx.
From Stdlib Require Import SpecFloat.
From Stdlib Require Import DecimalString DecimalNat.
Import ListNotations.

Local Open Scope string_scope.
Local Open Scope list_scope.

(** ** Python exceptions and the error monad *)

Inductive exn : Type :=
| ValueError
| TypeError
| KeyError.

Inductive result (A : Type) : Type :=
| Ok (a : A)
| Raise (e : exn).

Arguments Ok {A} a.
Arguments Raise {A} e.

Definition bind {A B : Type} (m : result A) (k : A -> result B) : result B :=
  match m with
  | Ok a => k a
  | Raise e => Raise e
  end.

Notation "x <- m ;; k" := (bind m (fun x => k))
  (at level 61, m at next level, right associativity).

(** [mapM f l]: evaluate [f] on the elements of [l] from left to right and
    stop at the first exception. *)
Fixpoint mapM {A B : Type} (f : A -> result B) (l : list A) : result (list B) :=
  match l with
  | [] => Ok []
  | x :: l' => y <- f x ;; ys <- mapM f l' ;; Ok (y :: ys)
  end.

(** ** Floating-point values *)

Module PyFloat.

Definition inf : spec_float := S754_infinity false.
Definition nan : spec_float := S754_nan.

Definition isnan (x : spec_float) : bool :=
  match x with
  | S754_nan => true
  | _ => false
  end.

(** A real number: neither NaN nor an infinity. *)
Definition isreal (x : spec_float) : bool :=
  match x with
  | S754_zero _ | S754_finite _ _ _ => true
  | _ => false
  end.

(** The binary64 value of an integer literal. *)
Definition of_Z (z : Z) : spec_float := binary_normalize 53 1024 z 0 false.

(** Position of a number on the extended real line, as a triple compared
    lexicographically; [None] for NaN. *)
Definition rank (x : spec_float) : option (Z * Z * Z) :=
  match x with
  | S754_nan => None
  | S754_infinity true => Some (-2, 0, 0)%Z
  | S754_infinity false => Some (2, 0, 0)%Z
  | S754_zero _ => Some (0, 0, 0)%Z
  | S754_finite false m e => Some (1, e, Zpos m)%Z
  | S754_finite true m e => Some (-1, - e, Zneg m)%Z
  end.

Definition lex_compare (a b : Z * Z * Z) : comparison :=
  let '(a1, a2, a3) := a in
  let '(b1, b2, b3) := b in
  match (a1 ?= b1)%Z with
  | Eq => match (a2 ?= b2)%Z with
          | Eq => (a3 ?= b3)%Z
          | c => c
          end
  | c => c
  end.

Definition lex_lt (a b : Z * Z * Z) : Prop :=
  let '(a1, a2, a3) := a in
  let '(b1, b2, b3) := b in
  (a1 < b1 \/ (a1 = b1 /\ (a2 < b2 \/ (a2 = b2 /\ a3 < b3))))%Z.

End PyFloat.

Import PyFloat.

(** ** Stable sorting

    [list.sort] and [DataFrame.sort_values] on several columns are stable
    comparison sorts.  A stable sort is determined by its comparison when
    that is a strict weak order; it is modelled by insertion sort, which uses
    only the test [ltb y x] ("y sorts strictly before x"), as [list.sort]
    uses only [<]. *)

Section StableSort.

Context {A : Type} (ltb : A -> A -> bool).

Fixpoint insert (x : A) (l : list A) : list A :=
  match l with
  | [] => [x]
  | y :: l' => if ltb y x then y :: insert x l' else x :: y :: l'
  end.

Fixpoint stable_sort (l : list A) : list A :=
  match l with
  | [] => []
  | x :: l' => insert x (stable_sort l')
  end.

(** [x] may stand before [y] in a sorted list. *)
Definition ordered (x y : A) : Prop := ltb y x = false.

End StableSort.

(** ** Table cells

    A cell of a table read by [pandas.read_csv] is a float (NaN for a
    missing field; integer columns are read as numbers too) or, in a column
    that does not parse as numbers, a string.  An integer column is taken
    at its value as a float, which is exact up to 2^53. *)

Inductive cell : Type :=
| Float (f : spec_float)
| Str (s : string).

Module Py.

(** [a < b]: numbers compare as IEEE 754 values, strings by code point;
    a string and a float do not compare ([TypeError]). *)
Definition lt (a b : cell) : result bool :=
  match a, b with
  | Float x, Float y => Ok (SFltb x y)
  | Str s, Str t => Ok (String.ltb s t)
  | _, _ => Raise TypeError
  end.

(** [a <= b]. *)
Definition le (a b : cell) : result bool :=
  match a, b with
  | Float x, Float y => Ok (SFleb x y)
  | Str s, Str t => Ok (String.leb s t)
  | _, _ => Raise TypeError
  end.

End Py.

(** ** Identifier normalizer (lines 42-44)

    [fun x => f"{x}.sdf" if str(x).isdigit() else str(x)]; the argument of
    the model is the string form [str(x)] of the raw identifier. *)

Definition is_digit (c : ascii) : bool :=
  (48 <=? nat_of_ascii c)%nat && (nat_of_ascii c <=? 57)%nat.

(** [str.isdigit] on ASCII strings: at least one character and all
    characters among [0] .. [9].  Python's [str.isdigit] is also true of
    strings made of other Unicode digits (superscripts, digits of other
    scripts; the set depends on the Unicode version of the interpreter);
    a string is taken here as its UTF-8 bytes, and on such a string this
    definition answers [false].  It is the model of [str.isdigit] for
    ASCII identifiers, which file names of ligands are; [normalize_with]
    below takes [str.isdigit] as it is. *)
Definition isdigit (s : string) : bool :=
  match s with
  | EmptyString => false
  | _ => forallb is_digit (list_ascii_of_string s)
  end.

Definition normalize_ligand (x : string) : string :=
  if isdigit x then x ++ ".sdf" else x.

(** The same lambda with [str.isdigit] as a parameter, for identifiers
    that need not be ASCII. *)
Definition normalize_with (str_isdigit : string -> bool) (x : string)
  : string :=
  if str_isdigit x then x ++ ".sdf" else x.

(** [s.isascii()]: every byte is below 128. *)
Definition isascii (s : string) : bool :=
  forallb (fun c => (nat_of_ascii c <? 128)%nat) (list_ascii_of_string s).

(** ** The two score tables and their join (lines 38-49) *)

Module SA.
(** A row of the synthesizability table; [filename] is its string form
    ([astype(str)], line 46). *)
Record row : Type := { filename : string; SA_score : cell }.
End SA.

Module Vina.
(** A row of the affinity table; [ligand] is the string form of the raw
    identifier, [affinity] the column [affinity_kcal/mol]. *)
Record row : Type := { ligand : string; affinity : cell }.
End Vina.

(** A row of [merged]: the columns of a left row and of a right row. *)
Definition merged_row : Type := (SA.row * Vina.row)%type.

(** A data frame: rows with their index labels. *)
Definition frame (R : Type) : Type := list (nat * R).

Definition reset_index {R : Type} (rows : list R) : frame R :=
  combine (seq 0 (List.length rows)) rows.

(** Lines 42-44 and 47: the [ligand] column after normalization. *)
Definition normalize_column (vina_df : list Vina.row) : list Vina.row :=
  map (fun r => {| Vina.ligand := normalize_ligand (Vina.ligand r);
                   Vina.affinity := Vina.affinity r |}) vina_df.

(** [pd.merge(left, right, left_on='filename', right_on='ligand')]: the
    inner join; every pair of a left and a right row with equal keys gives
    one row, in the order of the left rows, and the result is indexed
    0, 1, 2, ... *)
Definition join_rows (left : list SA.row) (right : list Vina.row)
  : list merged_row :=
  flat_map
    (fun l => map (fun r => (l, r))
                  (filter (fun r => String.eqb (SA.filename l) (Vina.ligand r))
                          right))
    left.

Definition pd_merge (left : list SA.row) (right : list Vina.row)
  : frame merged_row :=
  reset_index (join_rows left right).

(** Lines 42-49. *)
Definition merge_tables (sa_df : list SA.row) (vina_df : list Vina.row)
  : frame merged_row :=
  pd_merge sa_df (normalize_column vina_df).

Definition objA (r : nat * merged_row) : cell := SA.SA_score (fst (snd r)).
Definition objB (r : nat * merged_row) : cell := Vina.affinity (snd (snd r)).

(** ** Ascending order of [sort_values] (line 149)

    Ascending, missing values (NaN) last; in a column that holds both,
    numbers come before strings.  Two columns are compared
    lexicographically, and the sort is stable. *)

Definition isna (c : cell) : bool :=
  match c with
  | Float x => isnan x
  | Str _ => false
  end.

Definition cell_leb (a b : cell) : bool :=
  match a, b with
  | Float x, Float y => isnan y || (negb (isnan x) && SFleb x y)
  | Float x, Str _ => negb (isnan x)
  | Str _, Float y => isnan y
  | Str s, Str t => String.leb s t
  end.

Definition cell_ltb (a b : cell) : bool := negb (cell_leb b a).

Definition row_ltb (r1 r2 : nat * merged_row) : bool :=
  cell_ltb (objA r1) (objA r2)
  || (cell_leb (objA r1) (objA r2) && cell_ltb (objB r1) (objB r2)).

Definition row_leb (r1 r2 : nat * merged_row) : bool := negb (row_ltb r2 r1).

Definition sort_values (df : frame merged_row) : frame merged_row :=
  stable_sort row_ltb df.

(** ** The Pareto scan (lines 150-157) *)

Record scan_state : Type :=
  { pareto_front : list (cell * cell);
    pareto_indices : list nat;
    min_y : cell }.

Definition scan_init : scan_state :=
  {| pareto_front := []; pareto_indices := []; min_y := Float inf |}.

(** The body of the [for idx, row in pareto_points.iterrows()] loop. *)
Definition scan_body (st : scan_state) (it : nat * merged_row)
  : result scan_state :=
  b <- Py.lt (objB it) (min_y st) ;;
  if b then
    Ok {| pareto_front := pareto_front st ++ [(objA it, objB it)];
          pareto_indices := pareto_indices st ++ [fst it];
          min_y := objB it |}
  else Ok st.

Fixpoint for_each {S X : Type} (body : S -> X -> result S)
  (l : list X) (st : S) : result S :=
  match l with
  | [] => Ok st
  | x :: l' => st' <- body st x ;; for_each body l' st'
  end.

(** Lines 149-157: the frontier of a merged table. *)
Definition pareto (merged : frame merged_row) : result scan_state :=
  for_each scan_body (sort_values merged) scan_init.

(** [merged.loc[labels]]: the rows with the given labels, in that order. *)
Definition loc {R : Type} (df : frame R) (labels : list nat) : frame R :=
  flat_map (fun i => filter (fun r => Nat.eqb (fst r) i) df) labels.

(** ** [plot_sa_vs_affinity] without the rendering

    What the function leaves behind: the lines printed, the polyline
    plotted (line 160) and the rows saved to [pareto_csv_path] (lines
    162-164).  The scatter plot, the colour bars and the labels (lines
    56-143) read [merged] without changing it and are left out.  They
    can raise before the scan is reached (a column that is missing, or
    [idxmin] at lines 122-125 on a column without a number), so an
    outcome of this model after the guard of line 51 is the outcome of
    the function when lines 56-143 return. *)

Record plot_outcome : Type :=
  { printed : list string;
    frontier_line : option (list (cell * cell));
    pareto_csv : option (frame merged_row) }.

Definition no_match_warning : string :=
  "Warning: No matching rows after merging. Check that 'filename' in SA score CSV matches 'ligand' in Vina CSV (with .sdf appended).".

Definition plot_sa_vs_affinity (sa_df : list SA.row) (vina_df : list Vina.row)
  : result plot_outcome :=
  let merged := merge_tables sa_df vina_df in
  match merged with
  | [] =>
      Ok {| printed := [no_match_warning];
            frontier_line := None; pareto_csv := None |}
  | _ :: _ =>
      st <- pareto merged ;;
      match pareto_front st with
      | [] => Ok {| printed := []; frontier_line := None; pareto_csv := None |}
      | _ :: _ =>
          Ok {| printed := [];
                frontier_line := Some (pareto_front st);
                pareto_csv := Some (loc merged (pareto_indices st)) |}
      end
  end.

(** ** The rank sorter: [postprocess_vina_results] (lines 18-32) *)

(** [',' in line]. *)
Definition has_comma (line : string) : bool :=
  existsb (Ascii.eqb ",") (list_ascii_of_string line).

(** A dictionary with string keys, in insertion order; the values of a
    [DictReader] row are strings or [None] (the [restval]). *)
Definition pydict : Type := list (string * option string).

Fixpoint dict_set (k : string) (v : option string) (d : pydict) : pydict :=
  match d with
  | [] => [(k, v)]
  | (k', v') :: d' =>
      if String.eqb k k' then (k, v) :: d' else (k', v') :: dict_set k v d'
  end.

Definition dict_get (k : string) (d : pydict) : option (option string) :=
  match find (fun kv => String.eqb k (fst kv)) d with
  | Some kv => Some (snd kv)
  | None => None
  end.

(** A row of [csv.DictReader]: the dictionary of the named columns and,
    when the line has more fields than the header, the surplus fields
    (stored under the [restkey] [None]). *)
Record csv_row : Type :=
  { cols : pydict;
    surplus : option (list string) }.

Definition make_row (fieldnames fields : list string) : csv_row :=
  let d := fold_left (fun d kv => dict_set (fst kv) (Some (snd kv)) d)
                     (combine fieldnames fields) [] in
  let lf := List.length fieldnames in
  let lr := List.length fields in
  if (lf <? lr)%nat then {| cols := d; surplus := Some (skipn lf fields) |}
  else {| cols := fold_left (fun d k => dict_set k None d)
                            (skipn lr fieldnames) d;
          surplus := None |}.

Definition key_column : string := "affinity_kcal/mol".

(** What the call leaves behind: the rows of the output file ([None]: the
    file was never opened) and the exception that ended the call, if any. *)
Record outcome : Type :=
  { outfile : option (list (list string));
    raised : option exn }.

Section RankSorter.

(** [csv.reader]: the rows of fields of a sequence of lines. *)
Variable csv_reader : list string -> list (list string).

(** [float(s)] on a string; [None] stands for [ValueError]. *)
Variable float : string -> option spec_float.

(** [csv.DictReader(lines)]: the first row gives the field names, rows
    without fields are skipped. *)
Definition DictReader (lines : list string)
  : option (list string) * list csv_row :=
  match csv_reader lines with
  | [] => (None, [])
  | fieldnames :: rows =>
      (Some fieldnames,
       map (make_row fieldnames)
           (filter (fun r => negb (Nat.eqb (List.length r) 0)) rows))
  end.

(** [float(x['affinity_kcal/mol'])]. *)
Definition sort_key (x : csv_row) : result spec_float :=
  match dict_get key_column (cols x) with
  | None => Raise KeyError
  | Some None => Raise TypeError
  | Some (Some s) =>
      match float s with
      | Some f => Ok f
      | None => Raise ValueError
      end
  end.

(** [l.sort(key=key)]: the keys are computed first, from left to right;
    the list is then sorted by [<] on the keys, stably.  On keys that
    [<] orders (no NaN) every stable sort gives the same list, and the
    statements on the order of the result are made for such keys.  With
    a NaN among the keys the order that CPython's merge sort leaves can
    differ from the one of this insertion sort; on the keys 3, NaN, 1
    of [file_with_nan] both leave the list as it is. *)
Definition list_sort {X : Type} (key : X -> result spec_float) (l : list X)
  : result (list X) :=
  keys <- mapM key l ;;
  Ok (map snd (stable_sort (fun a b => SFltb (fst a) (fst b))
                           (combine keys l))).

(** Lines 19-26: the rows of the input in rank order. *)
Definition ranked_rows (infile : list string) : result (list csv_row) :=
  let lines := filter has_comma infile in
  list_sort sort_key (snd (DictReader lines)).

(** [DictWriter._dict_to_list]: a row with a key outside the field names
    is refused; [None] is written as the empty string. *)
Definition dict_to_list (fieldnames : list string) (x : csv_row)
  : result (list string) :=
  match surplus x with
  | Some _ => Raise ValueError
  | None =>
      Ok (map (fun k => match dict_get k (cols x) with
                        | Some (Some s) => s
                        | _ => ""
                        end) fieldnames)
  end.

(** [writer.writerows(rows)]: the rows written and the exception that
    stopped the writing, if any. *)
Fixpoint writerows (fieldnames : list string) (rows : list csv_row)
  : list (list string) * option exn :=
  match rows with
  | [] => ([], None)
  | x :: rows' =>
      match dict_to_list fieldnames x with
      | Raise e => ([], Some e)
      | Ok fields =>
          let (w, e) := writerows fieldnames rows' in (fields :: w, e)
      end
  end.

Definition postprocess_vina_results (infile : list string) : outcome :=
  let lines := filter has_comma infile in
  let reader := DictReader lines in
  match list_sort sort_key (snd reader) with
  | Raise e => {| outfile := None; raised := Some e |}
  | Ok rows =>
      match fst reader with
      | None => {| outfile := Some []; raised := Some TypeError |}
      | Some fieldnames =>
          let (w, e) := writerows fieldnames rows in
          {| outfile := Some (fieldnames :: w); raised := e |}
      end
  end.

End RankSorter.

(** ** A reader and a number parser for the examples

    [simple_reader] splits unquoted lines at the commas; [simple_float]
    reads the literals [nan], [inf] and the decimal integers, which
    [float] reads the same way. *)

Module Sample.

Fixpoint split_commas (acc : string) (s : string) : list string :=
  match s with
  | EmptyString => [acc]
  | String c s' =>
      if Ascii.eqb c "," then acc :: split_commas "" s'
      else if Ascii.eqb c "010" then split_commas acc s'
      else split_commas (acc ++ String c "") s'
  end.

Definition simple_reader (lines : list string) : list (list string) :=
  map (split_commas "") lines.

Fixpoint digits_value (acc : Z) (s : string) : option Z :=
  match s with
  | EmptyString => Some acc
  | String c s' =>
      if is_digit c
      then digits_value (10 * acc + Z.of_nat (nat_of_ascii c - 48)) s'
      else None
  end.

Definition unsigned_float (s : string) : option spec_float :=
  match s with
  | EmptyString => None
  | _ => option_map of_Z (digits_value 0 s)
  end.

Definition simple_float (s : string) : option spec_float :=
  if String.eqb s "nan" then Some nan
  else if String.eqb s "inf" then Some inf
  else match s with
       | String "-" s' => option_map SFopp (unsigned_float s')
       | _ => unsigned_float s
       end.

(** A merged row with the two objectives given as integers. *)
Definition point (label : nat) (a b : Z) : nat * merged_row :=
  (label,
   ({| SA.filename := "m.sdf"; SA.SA_score := Float (of_Z a) |},
    {| Vina.ligand := "m.sdf"; Vina.affinity := Float (of_Z b) |})).

Definition point_with (label : nat) (a b : cell) : nat * merged_row :=
  (label,
   ({| SA.filename := "m.sdf"; SA.SA_score := a |},
    {| Vina.ligand := "m.sdf"; Vina.affinity := b |})).

End Sample.

(** ** The scan as a function of the sorted rows

    [emitted rows m] lists the rows the loop of lines 153-157 appends when
    it starts on [rows] with [min_y = m]; [for_each_emitted] relates it to
    the loop. *)

Definition point_of (r : nat * merged_row) : cell * cell := (objA r, objB r).

Fixpoint emitted (rows : frame merged_row) (m : cell)
  : result (frame merged_row) :=
  match rows with
  | [] => Ok []
  | r :: rest =>
      b <- Py.lt (objB r) m ;;
      if b then out <- emitted rest (objB r) ;; Ok (r :: out)
      else emitted rest m
  end.

(** All cells of the objective-B column are floats (NaN included). *)
Definition float_column (merged : frame merged_row) : Prop :=
  forall r, In r merged -> exists f, objB r = Float f.

(** [r] and [p] stand at the same place of the [sort_values] order. *)
Definition tied (p r : nat * merged_row) : bool :=
  row_leb r p && row_leb p r.

(** ** Shape of the frontier

    [staircase p q]: from the frontier point [p] to the next one [q] the
    first objective does not decrease and the second one does not
    increase.  For the first objective this is stated in the ascending
    order of [sort_values] and with Python's comparisons: [q] is never
    [<] [p], and [p <= q] holds whenever the two are numbers. *)

Definition staircase (p q : cell * cell) : Prop :=
  cell_leb (fst p) (fst q) = true /\
  Py.lt (fst q) (fst p) <> Ok true /\
  (forall x y, fst p = Float x -> fst q = Float y -> isnan y = false ->
               Py.le (fst p) (fst q) = Ok true) /\
  Py.le (snd q) (snd p) = Ok true.

Definition ascending_objA (p q : cell * cell) : Prop :=
  cell_leb (fst p) (fst q) = true.

(** The first objective of every record is a number (not NaN). *)
Definition number_column_A (merged : frame merged_row) : Prop :=
  forall r, In r merged -> exists a, objA r = Float a /\ isnan a = false.

(** [p <= q] on the first objectives, as Python evaluates it. *)
Definition py_le_objA (p q : cell * cell) : Prop :=
  Py.le (fst p) (fst q) = Ok true.

(** The records of the scenario of section 8. *)
Definition scenario : frame merged_row :=
  [Sample.point 0 1 5; Sample.point 1 2 3; Sample.point 2 2 8;
   Sample.point 3 4 1].

(** ** Counting rows and keys of the join *)

Definition count_if {X : Type} (p : X -> bool) (l : list X) : nat :=
  List.length (filter p l).

(** The join key of a merged row, of a left row and of a right row. *)
Definition merged_key (m : nat * merged_row) : string :=
  SA.filename (fst (snd m)).

Definition normalized_key (v : Vina.row) : string :=
  normalize_ligand (Vina.ligand v).

Definition normalized_row (v : Vina.row) : Vina.row :=
  {| Vina.ligand := normalize_ligand (Vina.ligand v);
     Vina.affinity := Vina.affinity v |}.

(** ** Outcomes and inputs named in the claims *)

(** No left row and right row share a normalized identifier. *)
Definition no_common_key (sa_df : list SA.row) (vina_df : list Vina.row)
  : Prop :=
  forall l v, In l sa_df -> In v vina_df -> SA.filename l <> normalized_key v.

(** [plot_sa_vs_affinity] printed the warning of line 52 and returned. *)
Definition warned : plot_outcome :=
  {| printed := [no_match_warning];
     frontier_line := None;
     pareto_csv := None |}.

(** Rows to keep when the rows with a missing second objective are left
    out. *)
Definition has_objB (r : nat * merged_row) : bool := negb (isna (objB r)).

(** A table with a missing (NaN) objective in two of its three rows. *)
Definition table_with_nan : frame merged_row :=
  [Sample.point 0 1 5;
   Sample.point_with 1 (Float (of_Z 2)) (Float nan);
   Sample.point_with 2 (Float nan) (Float (of_Z 3))].

Definition newline : string := String "010" "".

(** A line of a text file. *)
Definition line (s : string) : string := s ++ newline.

(** A results file with a line that has no comma. *)
Definition file_with_note : list string :=
  [line "ligand,affinity_kcal/mol";
   line "a,3";
   line "# rerun";
   line "b,-7"].

(** A results file whose keys all parse, one of them as NaN. *)
Definition file_with_nan : list string :=
  [line "ligand,affinity_kcal/mol";
   line "a,3";
   line "b,nan";
   line "c,1"].

(** A results file with a key that does not parse. *)
Definition file_with_bad_key : list string :=
  [line "ligand,affinity_kcal/mol";
   line "a,3";
   line "b,n/a";
   line "c,1"].

(** A results file with two equal keys. *)
Definition file_with_tie : list string :=
  [line "ligand,affinity_kcal/mol";
   line "a,3";
   line "b,-7";
   line "c,1";
   line "d,-7"].

Section RankedRows.

Variable csv_reader : list string -> list (list string).
Variable float : string -> option spec_float.

(** The records of the input table: the rows [DictReader] yields. *)
Definition records (infile : list string) : list csv_row :=
  snd (DictReader csv_reader (filter has_comma infile)).

(** [x] may stand before [y] in ascending order of the key. *)
Definition key_le (x y : csv_row) : Prop :=
  exists fx fy,
    sort_key float x = Ok fx /\ sort_key float y = Ok fy /\
    SFleb fx fy = true.

(** The key of [x] equals [k]. *)
Definition has_key (k : spec_float) (x : csv_row) : bool :=
  match sort_key float x with
  | Ok f => SFeqb f k
  | Raise _ => false
  end.

(** The fields [DictWriter] writes for a row. *)
Definition written_fields (fieldnames : list string) (x : csv_row)
  : list string :=
  map (fun k => match dict_get k (cols x) with
                | Some (Some s) => s
                | _ => ""
                end) fieldnames.

End RankedRows.

(** Two non-empty tables whose identifiers do not meet. *)
Definition mismatched_sa : list SA.row :=
  [{| SA.filename := "1.sdf"; SA.SA_score := Float (of_Z 3) |}].

Definition mismatched_vina : list Vina.row :=
  [{| Vina.ligand := "2"; Vina.affinity := Float (of_Z 1) |}].

(** ** Further named notions *)

(** From a frontier point to a later one the first objective strictly
    increases (in the order of [sort_values]) and the second strictly
    decreases. *)
Definition strict_step (p q : cell * cell) : Prop :=
  cell_ltb (fst p) (fst q) = true /\ Py.lt (snd q) (snd p) = Ok true.

(** The labels of a frame are pairwise distinct. *)
Definition unique_labels {R : Type} (df : frame R) : Prop :=
  NoDup (map fst df).

(** The two steps by which [make_row] fills a dictionary: a field of the
    line, and the [restval] for a column the line does not reach. *)
Definition set_field (d : pydict) (kv : string * string) : pydict :=
  dict_set (fst kv) (Some (snd kv)) d.

Definition set_missing (d : pydict) (k : string) : pydict :=
  dict_set k None d.

(** The sort key of a line of fields under a header. *)
Definition field_key (float : string -> option spec_float)
  (fieldnames fields : list string) : result spec_float :=
  sort_key float (make_row fieldnames fields).

(** [float(s)] on a field, with [ValueError] when it does not parse. *)
Definition float_of_field (float : string -> option spec_float) (s : string)
  : result spec_float :=
  match float s with
  | Some f => Ok f
  | None => Raise ValueError
  end.

(** Two lines of fields in ascending order of their keys. *)
Definition fields_le (float : string -> option spec_float)
  (fieldnames a b : list string) : Prop :=
  exists fa fb,
    field_key float fieldnames a = Ok fa /\
    field_key float fieldnames b = Ok fb /\
    SFleb fa fb = true.

(** A results file whose third line is too short to have a key. *)
Definition file_with_short_line : list string :=
  [line "ligand,mode,affinity_kcal/mol";
   line "a,1,3";
   line "b,1";
   line "c,1,x"].

(** A results file without the key column. *)
Definition file_without_key_column : list string :=
  [line "ligand,score";
   line "a,3"].

(** A results file whose second record has a field too many. *)
Definition file_with_long_line : list string :=
  [line "ligand,affinity_kcal/mol";
   line "a,3,4";
   line "b,2"].

(** ** [plot_pareto.py]: names of structure files, images and legends *)

(** [s.endswith(suffix)]: some tail of [s] is [suffix]. *)
Fixpoint endswith (s suffix : string) : bool :=
  String.eqb s suffix
  || match s with
     | EmptyString => false
     | String _ s' => endswith s' suffix
     end.

(** Line 63: [filename if filename.endswith('.sdf') else f"{filename}.sdf"]. *)
Definition sdf_file (filename : string) : string :=
  if endswith filename ".sdf" then filename else filename ++ ".sdf".

(** Line 93: [smiles[:50] + "..." if len(smiles) > 50 else smiles]
    (SMILES strings are ASCII). *)
Definition smiles_display (smiles : string) : string :=
  if (50 <? String.length smiles)%nat
  then substring 0 50 smiles ++ "..."
  else smiles.

(** [str(n)] for a natural number. *)
Definition str_of_nat (n : nat) : string :=
  NilEmpty.string_of_uint (Nat.to_uint n).

(** [s.rfind(c)]: the last position of [c] in [s], [-1] when there is
    none. *)
Fixpoint rfind_from (c : ascii) (s : string) (i last : Z) : Z :=
  match s with
  | EmptyString => last
  | String a s' =>
      rfind_from c s' (i + 1) (if Ascii.eqb a c then i else last)
  end.

Definition rfind (c : ascii) (s : string) : Z := rfind_from c s 0 (-1).

(** [os.path.splitext] (POSIX): the extension starts at the last dot,
    when that dot comes after the last slash and after some character of
    the last component that is not a dot. *)
Definition splitext (p : string) : string * string :=
  let sepIndex := rfind "/" p in
  let dotIndex := rfind "." p in
  if (sepIndex <? dotIndex)%Z
     && existsb (fun a => negb (Ascii.eqb a "."))
                (list_ascii_of_string
                   (substring (Z.to_nat (sepIndex + 1))
                              (Z.to_nat (dotIndex - sepIndex - 1)) p))
  then (substring 0 (Z.to_nat dotIndex) p,
        substring (Z.to_nat dotIndex)
                  (String.length p - Z.to_nat dotIndex) p)
  else (p, "").

(** [b.startswith('/')]. *)
Definition is_absolute (b : string) : bool :=
  match b with
  | String c _ => Ascii.eqb c "/"
  | EmptyString => false
  end.

(** [os.path.join(a, b)] (POSIX): an absolute [b] replaces [a]; otherwise
    [b] is appended, after a slash unless [a] is empty or ends with one. *)
Definition path_join (a b : string) : string :=
  if is_absolute b then b
  else if String.eqb a "" || endswith a "/" then a ++ b
  else a ++ "/" ++ b.

(** Line 100: the image file of the molecule at position [idx] of the
    structure file of [filename]. *)
Definition img_path (output_dir filename : string) (idx : nat) : string :=
  path_join output_dir
            (fst (splitext filename) ++ "_mol_" ++ str_of_nat (idx + 1)
                 ++ ".png").

(** Line 94: the legend of an image. *)
Definition legend (filename smiles : string) : string :=
  fst (splitext filename) ++ newline ++ smiles_display smiles.

(** Line 113: a line of [pareto_smiles.txt]. *)
Definition smiles_line (entry : string * string) : string :=
  fst entry ++ String "009" (snd entry ++ newline).

(** A character occurs in a string. *)
Definition has_char (c : ascii) (s : string) : bool :=
  existsb (Ascii.eqb c) (list_ascii_of_string s).

(** ** The labelled points (lines 122-125)

    [merged[c].astype(float).idxmin()].  pandas takes the arg-min of the
    column with every missing value (NaN) replaced by [+inf], and gives
    the label at that position: the first row that holds the least
    value, where a missing value counts as [+inf]. *)

(** A column of a frame, with the labels of its rows. *)
Definition column (f : nat * merged_row -> cell) (df : frame merged_row)
  : list (nat * cell) :=
  map (fun r => (fst r, f r)) df.

(** [Series.astype(float)]: a string is converted with [float]. *)
Definition astype_float (float : string -> option spec_float)
  (col : list (nat * cell)) : result (list (nat * spec_float)) :=
  mapM (fun e => match snd e with
                 | Float x => Ok (fst e, x)
                 | Str s => match float s with
                            | Some x => Ok (fst e, x)
                            | None => Raise ValueError
                            end
                 end) col.

(** The fill value of [nanargmin]. *)
Definition fill_inf (v : spec_float) : spec_float :=
  if isnan v then inf else v.

(** [argmin] of the filled values after the position of [best]: the
    first position of the least value. *)
Fixpoint idxmin_from (best : nat * spec_float)
  (col : list (nat * spec_float)) : nat :=
  match col with
  | [] => fst best
  | e :: rest =>
      if SFltb (fill_inf (snd e)) (snd best)
      then idxmin_from (fst e, fill_inf (snd e)) rest
      else idxmin_from best rest
  end.

(** [Series.idxmin()]; [None] when every value of the column is NaN
    (pandas then raises or gives NaN, depending on its version), and on
    the empty column. *)
Definition idxmin (col : list (nat * spec_float)) : option nat :=
  if forallb (fun e => isnan (snd e)) col then None
  else match col with
       | [] => None
       | e :: rest => Some (idxmin_from (fst e, fill_inf (snd e)) rest)
       end.

(** Two cells at the same place of the ascending order: two equal
    numbers, two NaN, or two equal strings. *)
Definition cell_eqv (a b : cell) : bool := cell_leb a b && cell_leb b a.

Definition same_point (p q : cell * cell) : Prop :=
  cell_eqv (fst p) (fst q) = true /\ cell_eqv (snd p) (snd q) = true.

(** Line 64: [os.path.join(ligands_dir, sdf_file)]. *)
Definition sdf_path (ligands_dir filename : string) : string :=
  path_join ligands_dir (sdf_file filename).

(** ** [plot_pareto.py]: the loop over the frontier (lines 58-115)

    The calls into RDKit and the file system are the fields of an
    [environment]; each of them returns or raises.  [E] is the type of
    the exceptions they raise, [Mol] the type of molecules.  The answers
    do not change during the loop: the only files the loop writes are
    images, whose names end in [.png], and the paths it tests end in
    [.sdf].  A file that opens is written in full. *)

Inductive answer (E X : Type) : Type :=
| Returns (x : X)
| Raises (e : E).

Arguments Returns {E X} x.
Arguments Raises {E X} e.

Record environment (Mol E : Type) : Type :=
  { (* [os.path.exists] on the path of a structure file (line 66) *)
    path_exists : string -> bool;
    (* [Chem.SDMolSupplier(sdf_path)] (line 71), with the molecules it
       yields; [None] stands for a record RDKit could not parse *)
    SDMolSupplier : string -> answer E (list (option Mol));
    (* line 77 *)
    Compute2DCoords : Mol -> answer E Mol;
    (* line 78 *)
    MolToSmiles : Mol -> answer E string;
    (* lines 85-98: the drawing of a molecule with its legend *)
    draw : Mol -> string -> answer E (list Byte.byte);
    (* [open(path, mode)] for writing (lines 101 and 110) *)
    open_file : string -> answer E unit;
    (* [str(e)] *)
    str_of_exception : E -> string }.

Arguments path_exists {Mol E} _ _.
Arguments SDMolSupplier {Mol E} _ _.
Arguments Compute2DCoords {Mol E} _ _.
Arguments MolToSmiles {Mol E} _ _.
Arguments draw {Mol E} _ _ _.
Arguments open_file {Mol E} _ _.
Arguments str_of_exception {Mol E} _ _.

(** What the loop has built and left behind. *)
Record run_state : Type :=
  { smiles_list : list (string * string);
    processed_count : nat;
    (* the image files written, oldest first *)
    images : list (string * list Byte.byte);
    (* the lines of [pareto_smiles.txt], once it is written *)
    smiles_txt : option (list string);
    (* the lines printed, oldest first *)
    console : list string }.

Definition run_init : run_state :=
  {| smiles_list := []; processed_count := 0; images := [];
     smiles_txt := None; console := [] |}.

(** An exception in flight: the [AttributeError] of a method call on a
    value that is not a string, or an exception of the environment. *)
Inductive thrown (E : Type) : Type :=
| AttributeError
| Library (e : E).

Arguments AttributeError {E}.
Arguments Library {E} e.

Inductive completion (E A : Type) : Type :=
| Normal (a : A)
| Thrown (t : thrown E).

Arguments Normal {E A} a.
Arguments Thrown {E A} t.

(** A statement: it changes the state and completes normally or throws;
    what it did to the state before throwing stays done. *)
Definition run (E A : Type) : Type :=
  run_state -> run_state * completion E A.

Definition ret {E A : Type} (a : A) : run E A := fun st => (st, Normal a).

Definition throw {E A : Type} (t : thrown E) : run E A :=
  fun st => (st, Thrown t).

Definition then_ {E A B : Type} (m : run E A) (k : A -> run E B) : run E B :=
  fun st =>
    match m st with
    | (st', Normal a) => k a st'
    | (st', Thrown t) => (st', Thrown t)
    end.

Notation "x <~ m ;; k" := (then_ m (fun x => k))
  (at level 61, m at next level, right associativity).

Definition call {E X : Type} (a : answer E X) : run E X :=
  fun st =>
    match a with
    | Returns x => (st, Normal x)
    | Raises e => (st, Thrown (Library e))
    end.

(** [try: body except Exception as e: handler(e)]. *)
Definition try_except {E : Type} (body : run E unit)
  (handler : thrown E -> run E unit) : run E unit :=
  fun st =>
    match body st with
    | (st', Normal _) => (st', Normal tt)
    | (st', Thrown t) => handler t st'
    end.

Fixpoint for_run {E X : Type} (body : X -> run E unit) (l : list X)
  : run E unit :=
  match l with
  | [] => ret tt
  | x :: l' => _ <~ body x ;; for_run body l'
  end.

Definition get {E : Type} : run E run_state := fun st => (st, Normal st).

Definition print {E : Type} (s : string) : run E unit :=
  fun st =>
    ({| smiles_list := smiles_list st;
        processed_count := processed_count st;
        images := images st;
        smiles_txt := smiles_txt st;
        console := console st ++ [s] |}, Normal tt).

(** Line 79: [smiles_list.append((filename, smiles))]. *)
Definition append_smiles {E : Type} (entry : string * string) : run E unit :=
  fun st =>
    ({| smiles_list := smiles_list st ++ [entry];
        processed_count := processed_count st;
        images := images st;
        smiles_txt := smiles_txt st;
        console := console st |}, Normal tt).

(** Lines 101-102: [with open(img_path, "wb") as img_file:
    img_file.write(img_bytes)]. *)
Definition write_image {Mol E : Type} (env : environment Mol E)
  (path : string) (img_bytes : list Byte.byte) : run E unit :=
  _ <~ call (open_file env path) ;;
  fun st =>
    ({| smiles_list := smiles_list st;
        processed_count := processed_count st;
        images := images st ++ [(path, img_bytes)];
        smiles_txt := smiles_txt st;
        console := console st |}, Normal tt).

(** Line 104: [processed_count += 1]. *)
Definition count_one {E : Type} : run E unit :=
  fun st =>
    ({| smiles_list := smiles_list st;
        processed_count := processed_count st + 1;
        images := images st;
        smiles_txt := smiles_txt st;
        console := console st |}, Normal tt).

(** [enumerate(suppl)]. *)
Definition enumerate {X : Type} (l : list X) : list (nat * X) :=
  combine (seq 0 (List.length l)) l.

(** Lines 73-104: the body of [for idx, mol in enumerate(suppl)]. *)
Definition process_mol {Mol E : Type} (env : environment Mol E)
  (output_dir filename : string) (it : nat * option Mol) : run E unit :=
  match snd it with
  | None => ret tt
  | Some mol =>
      mol <~ call (Compute2DCoords env mol) ;;
      smiles <~ call (MolToSmiles env mol) ;;
      _ <~ append_smiles (filename, smiles) ;;
      _ <~ print ("Processing: " ++ filename) ;;
      _ <~ print ("SMILES: " ++ smiles) ;;
      img_bytes <~ call (draw env mol (legend filename smiles)) ;;
      _ <~ write_image env (img_path output_dir filename (fst it)) img_bytes ;;
      count_one
  end.

(** The text of an exception caught at line 105. *)
Definition str_of_thrown {Mol E : Type} (env : environment Mol E)
  (t : thrown E) : string :=
  match t with
  | AttributeError => "'float' object has no attribute 'endswith'"
  | Library e => str_of_exception env e
  end.

(** Lines 63-106: the body of [for filename in pareto_filenames].  The
    identifiers are cells of the frontier table as pandas reads it; on
    a cell that is not a string [filename.endswith] raises, outside of
    the [try]. *)
Definition process_file {Mol E : Type} (env : environment Mol E)
  (ligands_dir output_dir : string) (filename : cell) : run E unit :=
  match filename with
  | Float _ => throw AttributeError
  | Str filename =>
      if negb (path_exists env (sdf_path ligands_dir filename))
      then print ("Warning: SDF file not found: "
                    ++ sdf_path ligands_dir filename)
      else
        try_except
          (suppl <~ call (SDMolSupplier env (sdf_path ligands_dir filename)) ;;
           for_run (process_mol env output_dir filename) (enumerate suppl))
          (fun e => print ("Error processing " ++ sdf_file filename ++ ": "
                             ++ str_of_thrown env e))
  end.

Definition tab : string := String "009" "".

Definition smiles_header : string := "filename" ++ tab ++ "smiles" ++ newline.

(** Lines 110-113. *)
Definition write_smiles {Mol E : Type} (env : environment Mol E)
  (smiles_file : string) : run E unit :=
  _ <~ call (open_file env smiles_file) ;;
  fun st =>
    ({| smiles_list := smiles_list st;
        processed_count := processed_count st;
        images := images st;
        smiles_txt := Some (smiles_header :: map smiles_line (smiles_list st));
        console := console st |}, Normal tt).

(** Lines 109-115: the SMILES file and the closing message. *)
Definition finish {Mol E : Type} (env : environment Mol E)
  (output_dir : string) : run E unit :=
  _ <~ write_smiles env (path_join output_dir "pareto_smiles.txt") ;;
  st <~ get ;;
  print ("Processed " ++ str_of_nat (processed_count st)
           ++ " Pareto frontier molecules. Images and SMILES saved to "
           ++ output_dir).

(** Lines 58-115, for the identifiers in the order in which the set
    [pareto_filenames] yields them. *)
Definition frontier_loop {Mol E : Type} (env : environment Mol E)
  (ligands_dir output_dir : string) (pareto_filenames : list cell)
  : run E unit :=
  _ <~ for_run (process_file env ligands_dir output_dir) pareto_filenames ;;
  finish env output_dir.

(** The state without its printed lines. *)
Definition silent (st : run_state) : run_state :=
  {| smiles_list := smiles_list st;
     processed_count := processed_count st;
     images := images st;
     smiles_txt := smiles_txt st;
     console := [] |}.

(** The structure file of an identifier is there (a cell that is not a
    string has none to look for). *)
Definition present {Mol E : Type} (env : environment Mol E)
  (ligands_dir : string) (filename : cell) : bool :=
  match filename with
  | Float _ => true
  | Str filename => path_exists env (sdf_path ligands_dir filename)
  end.

Definition is_str (c : cell) : bool :=
  match c with
  | Str _ => true
  | Float _ => false
  end.

(** An environment for examples: molecules are their own SMILES, the
    only structure file is [ligands/1.sdf] with two molecules and one
    record that does not parse, and drawing fails on the molecule
    [C]. *)
Definition sample_env : environment string string :=
  {| path_exists := fun p => String.eqb p "ligands/1.sdf";
     SDMolSupplier := fun _ => Returns [Some "CCO"; None; Some "C"];
     Compute2DCoords := fun m => Returns m;
     MolToSmiles := fun m => Returns m;
     draw := fun m _ =>
               if String.eqb m "C" then Raises "no drawing"
               else Returns [Byte.x89; Byte.x50; Byte.x4e; Byte.x47];
     open_file := fun _ => Returns tt;
     str_of_exception := fun e => e |}.

(** The books of the loop are in order: every image written has been
    counted, every counted molecule has its entry in [smiles_list], and
    entries and images belong to identifiers of the frontier. *)
Definition accounted (output_dir : string) (pareto_filenames : list cell)
  (st : run_state) : Prop :=
  processed_count st = List.length (images st) /\
  List.length (images st) <= List.length (smiles_list st) /\
  Forall (fun entry => In (Str (fst entry)) pareto_filenames)
         (smiles_list st) /\
  Forall (fun img => exists filename idx,
              In (Str filename) pareto_filenames /\
              fst img = img_path output_dir filename idx)
         (images st).

(** A statement that neither reads nor depends on the printed lines. *)
Definition console_blind {E A : Type} (m : run E A) : Prop :=
  forall st1 st2,
    silent st1 = silent st2 ->
    silent (fst (m st1)) = silent (fst (m st2)) /\
    snd (m st1) = snd (m st2).

(** As [sample_env], with a drawing for every molecule. *)
Definition quiet_env : environment string string :=
  {| path_exists := fun p => String.eqb p "ligands/1.sdf";
     SDMolSupplier := fun _ => Returns [Some "CCO"; None; Some "C"];
     Compute2DCoords := fun m => Returns m;
     MolToSmiles := fun m => Returns m;
     draw := fun _ _ => Returns [Byte.x89; Byte.x50; Byte.x4e; Byte.x47];
     open_file := fun _ => Returns tt;
     str_of_exception := fun e => e |}.

(** * Properties *)

(** ** Order of the floating-point numbers *)

Lemma lex_compare_Lt a b : lex_compare a b = Lt <-> lex_lt a b.
Proof.
  destruct a as [[a1 a2] a3], b as [[b1 b2] b3]; simpl.
  destruct (Z.compare_spec a1 b1), (Z.compare_spec a2 b2),
    (Z.compare_spec a3 b3); split; intros; try discriminate;
    try reflexivity; lia.
Qed.

Lemma lex_compare_Gt a b : lex_compare a b = Gt <-> lex_lt b a.
Proof.
  destruct a as [[a1 a2] a3], b as [[b1 b2] b3]; simpl.
  destruct (Z.compare_spec a1 b1), (Z.compare_spec a2 b2),
    (Z.compare_spec a3 b3); split; intros; try discriminate;
    try reflexivity; lia.
Qed.

Lemma lex_compare_Eq a b : lex_compare a b = Eq <-> a = b.
Proof.
  destruct a as [[a1 a2] a3], b as [[b1 b2] b3]; simpl.
  destruct (Z.compare_spec a1 b1), (Z.compare_spec a2 b2),
    (Z.compare_spec a3 b3); split; intros H2; try discriminate;
    try reflexivity; try (inversion H2; lia); subst; reflexivity.
Qed.

Lemma SFcompare_rank x y :
  SFcompare x y =
  match rank x, rank y with
  | Some a, Some b => Some (lex_compare a b)
  | _, _ => None
  end.
Proof.
  destruct x as [[]|[]| |[] m1 e1], y as [[]|[]| |[] m2 e2];
    simpl; try reflexivity.
  rewrite Z.compare_opp, (Z.compare_antisym e1 e2).
  destruct (e1 ?= e2)%Z; reflexivity.
Qed.

Lemma SFltb_rank x y :
  SFltb x y = true <->
  exists a b, rank x = Some a /\ rank y = Some b /\ lex_lt a b.
Proof.
  unfold SFltb. rewrite SFcompare_rank.
  destruct (rank x) as [a|], (rank y) as [b|]; split; intros H;
    try discriminate; try (destruct H as (? & ? & ? & ? & ?); discriminate).
  - exists a, b. repeat split. apply lex_compare_Lt.
    destruct (lex_compare a b); congruence.
  - destruct H as (a' & b' & Ha & Hb & H). inversion Ha; inversion Hb; subst.
    apply lex_compare_Lt in H. rewrite H. reflexivity.
Qed.

Lemma SFleb_rank x y :
  SFleb x y = true <->
  exists a b, rank x = Some a /\ rank y = Some b /\ ~ lex_lt b a.
Proof.
  unfold SFleb. rewrite SFcompare_rank.
  destruct (rank x) as [a|], (rank y) as [b|]; split; intros H;
    try discriminate; try (destruct H as (? & ? & ? & ? & ?); discriminate).
  - exists a, b. repeat split. intros Hlt. apply lex_compare_Gt in Hlt.
    rewrite Hlt in H. discriminate.
  - destruct H as (a' & b' & Ha & Hb & H). inversion Ha; inversion Hb; subst.
    destruct (lex_compare a' b') eqn:E; try reflexivity.
    apply lex_compare_Gt in E. contradiction.
Qed.

Lemma rank_isnan x : isnan x = false -> exists a, rank x = Some a.
Proof.
  destruct x as [[]|[]| |[] m e]; simpl; intros; try discriminate; eauto.
Qed.

Lemma rank_some_isnan x a : rank x = Some a -> isnan x = false.
Proof. destruct x; simpl; intros; try discriminate; reflexivity. Qed.

Lemma lex_lt_trans a b c : lex_lt a b -> lex_lt b c -> lex_lt a c.
Proof.
  destruct a as [[a1 a2] a3], b as [[b1 b2] b3], c as [[c1 c2] c3];
    simpl; lia.
Qed.

Lemma lex_lt_irrefl a : ~ lex_lt a a.
Proof. destruct a as [[a1 a2] a3]; simpl; lia. Qed.

Lemma lex_le_trans a b c : ~ lex_lt b a -> ~ lex_lt c b -> ~ lex_lt c a.
Proof.
  destruct a as [[a1 a2] a3], b as [[b1 b2] b3], c as [[c1 c2] c3];
    simpl; lia.
Qed.

Lemma lex_lt_total a b : lex_lt a b \/ ~ lex_lt a b.
Proof. destruct a as [[a1 a2] a3], b as [[b1 b2] b3]; simpl; lia. Qed.

Lemma SFltb_irrefl x : SFltb x x = false.
Proof.
  destruct (SFltb x x) eqn:E; [|reflexivity].
  apply SFltb_rank in E. destruct E as (a & b & Ha & Hb & H).
  rewrite Ha in Hb. inversion Hb; subst. now apply lex_lt_irrefl in H.
Qed.

Lemma SFltb_trans x y z :
  SFltb x y = true -> SFltb y z = true -> SFltb x z = true.
Proof.
  rewrite !SFltb_rank.
  intros (a & b & Ha & Hb & H1) (b' & c & Hb' & Hc & H2).
  rewrite Hb in Hb'. inversion Hb'; subst.
  exists a, c. repeat split; auto. eapply lex_lt_trans; eauto.
Qed.

Lemma SFltb_asym x y : SFltb x y = true -> SFltb y x = false.
Proof.
  intros H. destruct (SFltb y x) eqn:E; [|reflexivity].
  pose proof (SFltb_trans _ _ _ H E) as H2.
  rewrite SFltb_irrefl in H2. discriminate.
Qed.

Lemma SFltb_isnan_l x y : SFltb x y = true -> isnan x = false.
Proof.
  rewrite SFltb_rank. intros (a & b & Ha & _).
  eapply rank_some_isnan; eauto.
Qed.

Lemma SFltb_isnan_r x y : SFltb x y = true -> isnan y = false.
Proof.
  rewrite SFltb_rank. intros (a & b & _ & Hb & _).
  eapply rank_some_isnan; eauto.
Qed.

Lemma SFleb_isnan_l x y : SFleb x y = true -> isnan x = false.
Proof.
  rewrite SFleb_rank. intros (a & b & Ha & _).
  eapply rank_some_isnan; eauto.
Qed.

Lemma SFleb_isnan_r x y : SFleb x y = true -> isnan y = false.
Proof.
  rewrite SFleb_rank. intros (a & b & _ & Hb & _).
  eapply rank_some_isnan; eauto.
Qed.

Create HintDb floats.
#[local] Hint Resolve SFltb_isnan_l SFltb_isnan_r SFleb_isnan_l SFleb_isnan_r
  : floats.

(** On numbers, [<=] is the negation of the converse [<]. *)
Lemma SFleb_ltb x y :
  isnan x = false -> isnan y = false -> SFleb x y = negb (SFltb y x).
Proof.
  intros Hx Hy.
  destruct (rank_isnan _ Hx) as [a Ha], (rank_isnan _ Hy) as [b Hb].
  destruct (SFltb y x) eqn:E; simpl.
  - destruct (SFleb x y) eqn:E2; [|reflexivity].
    apply SFltb_rank in E. apply SFleb_rank in E2.
    destruct E as (b' & a' & Hb' & Ha' & H).
    destruct E2 as (a'' & b'' & Ha'' & Hb'' & H2).
    congruence.
  - apply SFleb_rank. exists a, b. repeat split; auto.
    intros H. assert (SFltb y x = true) by (apply SFltb_rank; eauto).
    congruence.
Qed.

Lemma SFleb_trans x y z :
  SFleb x y = true -> SFleb y z = true -> SFleb x z = true.
Proof.
  rewrite !SFleb_rank.
  intros (a & b & Ha & Hb & H1) (b' & c & Hb' & Hc & H2).
  rewrite Hb in Hb'. inversion Hb'; subst.
  exists a, c. repeat split; auto. eapply lex_le_trans; eauto.
Qed.

Lemma SFleb_ltb_trans x y z :
  SFleb x y = true -> SFltb y z = true -> SFltb x z = true.
Proof.
  rewrite !SFleb_rank, !SFltb_rank.
  intros (a & b & Ha & Hb & H1) (b' & c & Hb' & Hc & H2).
  rewrite Hb in Hb'. inversion Hb'; subst.
  exists a, c. repeat split; auto.
  destruct a as [[a1 a2] a3], b' as [[b1 b2] b3], c as [[c1 c2] c3];
    simpl in *; lia.
Qed.

Lemma SFeqb_leb x y : SFeqb x y = true -> SFleb x y = true /\ SFleb y x = true.
Proof.
  unfold SFeqb, SFleb. rewrite !SFcompare_rank.
  destruct (rank x) as [a|], (rank y) as [b|]; try discriminate.
  destruct (lex_compare a b) eqn:E; try discriminate. intros _.
  apply lex_compare_Eq in E. subst.
  destruct (lex_compare b b) eqn:E2; auto.
  apply lex_compare_Gt in E2. now apply lex_lt_irrefl in E2.
Qed.

Lemma SFeqb_not_ltb x y k :
  SFeqb x k = true -> SFeqb y k = true -> SFltb y x = false.
Proof.
  intros Hx Hy. apply SFeqb_leb in Hx, Hy.
  destruct Hx as [Hx1 Hx2], Hy as [Hy1 Hy2].
  pose proof (SFleb_trans _ _ _ Hx1 Hy2) as H.
  rewrite SFleb_ltb in H
    by (eauto using SFleb_isnan_l, SFleb_isnan_r).
  now apply negb_true_iff in H.
Qed.


(** ** String order

    Python compares [str] values by code point; on UTF-8 encoded text this
    is the bytewise order [String.compare]. *)

Section StringOrder.

Lemma string_ltb_leb s t : String.ltb s t = negb (String.leb t s).
Proof.
  unfold String.ltb, String.leb. rewrite (String.compare_antisym s t).
  destruct (String.compare t s); reflexivity.
Qed.

Lemma string_compare_Gt s t :
  String.compare s t = Gt <-> String_as_OT.lt t s.
Proof.
  rewrite <- String_as_OT.cmp_lt. unfold String_as_OT.cmp.
  rewrite (String.compare_antisym s t).
  destruct (String.compare t s); simpl; split; congruence.
Qed.

Lemma string_leb_trans s t u :
  String.leb s t = true -> String.leb t u = true -> String.leb s u = true.
Proof.
  unfold String.leb. intros H1 H2.
  destruct (String.compare s u) eqn:E; try reflexivity.
  apply string_compare_Gt in E.
  destruct (String.compare s t) eqn:E1; try discriminate.
  - apply String.compare_eq_iff in E1. subst.
    apply string_compare_Gt in E. rewrite E in H2. discriminate.
  - apply String_as_OT.cmp_lt in E1.
    pose proof (String_as_OT.lt_trans _ _ _ E E1) as H.
    apply string_compare_Gt in H. rewrite H in H2. discriminate.
Qed.

Lemma string_leb_refl s : String.leb s s = true.
Proof. destruct (String.leb_total s s); assumption. Qed.

Lemma string_ltb_trans s t u :
  String.ltb s t = true -> String.ltb t u = true -> String.ltb s u = true.
Proof.
  unfold String.ltb. intros H1 H2.
  destruct (String.compare s t) eqn:E1; try discriminate.
  destruct (String.compare t u) eqn:E2; try discriminate.
  apply String_as_OT.cmp_lt in E1, E2.
  pose proof (String_as_OT.lt_trans _ _ _ E1 E2) as H.
  apply String_as_OT.cmp_lt in H. unfold String_as_OT.cmp in H.
  rewrite H. reflexivity.
Qed.

End StringOrder.

(** ** Facts on the stable sort *)

Section StableSortFacts.

Context {A : Type} (ltb : A -> A -> bool).

Local Abbreviation insert := (insert ltb).
Local Abbreviation stable_sort := (stable_sort ltb).
Local Abbreviation ordered := (ordered ltb).

Lemma insert_perm x l : Permutation (x :: l) (insert x l).
Proof.
  induction l as [|y l IH]; simpl.
  - apply Permutation_refl.
  - destruct (ltb y x).
    + eapply perm_trans; [apply perm_swap|]. now apply perm_skip.
    + apply Permutation_refl.
Qed.

Lemma stable_sort_perm l : Permutation l (stable_sort l).
Proof.
  induction l as [|x l IH]; simpl.
  - apply perm_nil.
  - eapply perm_trans; [apply perm_skip, IH|apply insert_perm].
Qed.

Lemma stable_sort_In x l : In x (stable_sort l) <-> In x l.
Proof.
  split; intros H.
  - eapply Permutation_in; [apply Permutation_sym, stable_sort_perm|exact H].
  - eapply Permutation_in; [apply stable_sort_perm|exact H].
Qed.

Lemma stable_sort_length l :
  List.length (stable_sort l) = List.length l.
Proof. symmetry. apply Permutation_length, stable_sort_perm. Qed.

(** Stability: a class of elements none of which sorts strictly before
    another keeps its order. *)
Lemma insert_filter (p : A -> bool) x l :
  (forall a b, p a = true -> p b = true -> ltb a b = false) ->
  filter p (insert x l) = filter p (x :: l).
Proof.
  intros Hp. induction l as [|y l IH]; [reflexivity|].
  simpl insert. destruct (ltb y x) eqn:E; [|reflexivity].
  simpl in *. rewrite IH.
  destruct (p x) eqn:Ex, (p y) eqn:Ey; try reflexivity.
  rewrite (Hp y x Ey Ex) in E. discriminate.
Qed.

Lemma stable_sort_filter (p : A -> bool) l :
  (forall a b, p a = true -> p b = true -> ltb a b = false) ->
  filter p (stable_sort l) = filter p l.
Proof.
  intros Hp. induction l as [|x l IH]; [reflexivity|].
  simpl stable_sort. rewrite insert_filter by assumption.
  simpl. rewrite IH. reflexivity.
Qed.

Section StrictWeakOrder.

(** The comparison is a strict weak order on the elements that satisfy
    [P] (for floats: the numbers, on which [<] is one; NaN is not). *)
Variable P : A -> Prop.
Hypothesis ltb_asym :
  forall x y, P x -> P y -> ltb x y = true -> ltb y x = false.
Hypothesis ltb_negtrans :
  forall x y z, P x -> P y -> P z ->
                ltb x y = false -> ltb y z = false -> ltb x z = false.

Lemma insert_Forall x l : P x -> Forall P l -> Forall P (insert x l).
Proof.
  intros Hx Hl. eapply Permutation_Forall; [apply insert_perm|].
  now constructor.
Qed.

Lemma stable_sort_Forall l : Forall P l -> Forall P (stable_sort l).
Proof. apply Permutation_Forall, stable_sort_perm. Qed.

Lemma insert_sorted x l :
  P x -> Forall P l ->
  StronglySorted ordered l -> StronglySorted ordered (insert x l).
Proof.
  intros Hx HP Hs. induction Hs as [|y l Hs IH Hall]; simpl.
  - constructor; constructor.
  - apply Forall_cons_iff in HP. destruct HP as [Hy HP].
    destruct (ltb y x) eqn:E.
    + constructor; [now apply IH|].
      apply Forall_forall. intros z Hz.
      apply (Permutation_in _ (Permutation_sym (insert_perm x l))) in Hz.
      destruct Hz as [<-|Hz].
      * now apply ltb_asym.
      * rewrite Forall_forall in Hall. now apply Hall.
    + constructor; [constructor; assumption|].
      constructor; [exact E|].
      rewrite Forall_forall in *. intros z Hz.
      unfold ordered. eapply (ltb_negtrans z y x); auto.
      now apply Hall.
Qed.

Lemma stable_sort_sorted l :
  Forall P l -> StronglySorted ordered (stable_sort l).
Proof.
  induction l as [|x l IH]; intros HP; simpl.
  - constructor.
  - apply Forall_cons_iff in HP. destruct HP as [Hx HP].
    apply insert_sorted; auto using stable_sort_Forall.
Qed.

(** Sorting commutes with the removal of rows. *)
Lemma insert_filter_comm (p : A -> bool) x l :
  P x -> Forall P l -> StronglySorted ordered l ->
  filter p (insert x l) =
  if p x then insert x (filter p l) else filter p l.
Proof.
  intros Hx HP Hs. induction Hs as [|y l Hs IH Hall]; simpl.
  - destruct (p x); reflexivity.
  - apply Forall_cons_iff in HP. destruct HP as [Hy HP].
    destruct (ltb y x) eqn:E; simpl.
    + rewrite (IH HP).
      destruct (p x), (p y); simpl; try rewrite E; reflexivity.
    + destruct (p x) eqn:Ex, (p y) eqn:Ey; simpl; try rewrite E;
        try reflexivity.
      destruct (filter p l) as [|z l'] eqn:Ef; [reflexivity|].
      assert (Hz : In z l).
      { apply (proj1 (filter_In p z l)). rewrite Ef. now left. }
      simpl. rewrite Forall_forall in Hall, HP.
      rewrite (ltb_negtrans z y x); auto. now apply Hall.
Qed.

Lemma stable_sort_filter_comm (p : A -> bool) l :
  Forall P l -> filter p (stable_sort l) = stable_sort (filter p l).
Proof.
  induction l as [|x l IH]; intros HP; [reflexivity|].
  apply Forall_cons_iff in HP. destruct HP as [Hx HP].
  simpl. rewrite insert_filter_comm
    by auto using stable_sort_Forall, stable_sort_sorted.
  rewrite (IH HP). destruct (p x); reflexivity.
Qed.

End StrictWeakOrder.

End StableSortFacts.

(** ** The ascending order of [sort_values] is a total preorder *)

Section CellOrder.

Lemma SFleb_total x y :
  isnan x = false -> isnan y = false ->
  SFleb x y = true \/ SFleb y x = true.
Proof.
  intros Hx Hy. rewrite (SFleb_ltb x y), (SFleb_ltb y x) by assumption.
  destruct (SFltb y x) eqn:E; [right|left; reflexivity].
  now rewrite (SFltb_asym _ _ E).
Qed.

Lemma cell_leb_total a b : cell_leb a b = true \/ cell_leb b a = true.
Proof.
  destruct a as [x|s], b as [y|t]; simpl.
  - destruct (isnan x) eqn:Hx, (isnan y) eqn:Hy; simpl; auto.
    apply SFleb_total; assumption.
  - destruct (isnan x); auto.
  - destruct (isnan y); auto.
  - apply String.leb_total.
Qed.

Lemma cell_leb_refl a : cell_leb a a = true.
Proof. destruct (cell_leb_total a a); assumption. Qed.

Lemma cell_leb_trans a b c :
  cell_leb a b = true -> cell_leb b c = true -> cell_leb a c = true.
Proof.
  destruct a as [x|s], b as [y|t], c as [z|u]; simpl;
    repeat match goal with
           | |- context [isnan ?v] => destruct (isnan v) eqn:?
           end; simpl; try congruence.
  - apply SFleb_trans.
  - apply string_leb_trans.
Qed.

Lemma cell_ltb_leb a b : cell_ltb a b = true -> cell_leb a b = true.
Proof.
  unfold cell_ltb. intros H. apply negb_true_iff in H.
  destruct (cell_leb_total a b); congruence.
Qed.

(** On numbers and on strings the order is Python's [<=]. *)
Lemma cell_leb_numbers x y :
  isnan x = false -> isnan y = false ->
  cell_leb (Float x) (Float y) = SFleb x y.
Proof. intros Hx Hy. simpl. rewrite Hx, Hy. reflexivity. Qed.

Lemma py_le_cell_leb a b : Py.le a b = Ok true -> cell_leb a b = true.
Proof.
  destruct a as [x|s], b as [y|t]; simpl; intros H; try discriminate;
    injection H as H1; try assumption.
  rewrite (SFleb_isnan_l _ _ H1), (SFleb_isnan_r _ _ H1). exact H1.
Qed.

Lemma py_lt_cell_ltb a b : Py.lt a b = Ok true -> cell_ltb a b = true.
Proof.
  unfold cell_ltb.
  destruct a as [x|s], b as [y|t]; simpl; intros H; try discriminate;
    injection H as H1.
  - rewrite (SFltb_isnan_l _ _ H1), (SFltb_isnan_r _ _ H1). simpl.
    rewrite SFleb_ltb
      by eauto using SFltb_isnan_l, SFltb_isnan_r.
    now rewrite H1.
  - rewrite string_ltb_leb in H1. now rewrite H1.
Qed.

Lemma py_lt_trans a b c :
  Py.lt a b = Ok true -> Py.lt b c = Ok true -> Py.lt a c = Ok true.
Proof.
  destruct a as [x|s], b as [y|t], c as [z|u]; simpl; intros H1 H2;
    try discriminate; injection H1 as H1; injection H2 as H2; f_equal.
  - eapply SFltb_trans; eauto.
  - eapply string_ltb_trans; eauto.
Qed.

Lemma py_lt_irrefl a : Py.lt a a <> Ok true.
Proof.
  destruct a as [x|s]; simpl; intros H; injection H as H1.
  - rewrite SFltb_irrefl in H1. discriminate.
  - rewrite string_ltb_leb, string_leb_refl in H1. discriminate.
Qed.

Lemma py_lt_le a b : Py.lt a b = Ok true -> Py.le a b = Ok true.
Proof.
  destruct a as [x|s], b as [y|t]; simpl; intros H; try discriminate;
    injection H as H1; f_equal.
  - unfold SFltb in H1. unfold SFleb.
    destruct (SFcompare x y) as [[]|]; congruence.
  - unfold String.ltb in H1. unfold String.leb.
    destruct (String.compare s t); congruence.
Qed.

Lemma row_leb_spec r1 r2 :
  row_leb r1 r2 = true <->
  cell_leb (objA r1) (objA r2) = true /\
  (cell_leb (objA r2) (objA r1) = true ->
   cell_leb (objB r1) (objB r2) = true).
Proof.
  unfold row_leb, row_ltb, cell_ltb.
  destruct (cell_leb (objA r1) (objA r2)), (cell_leb (objA r2) (objA r1)),
    (cell_leb (objB r1) (objB r2)); simpl; intuition congruence.
Qed.

Lemma row_ltb_asym r1 r2 : row_ltb r1 r2 = true -> row_ltb r2 r1 = false.
Proof.
  intros H. apply negb_true_iff. fold (row_leb r1 r2).
  apply row_leb_spec. unfold row_ltb in H.
  apply orb_true_iff in H. destruct H as [H|H].
  - split; [now apply cell_ltb_leb|].
    unfold cell_ltb in H. apply negb_true_iff in H. congruence.
  - apply andb_true_iff in H. destruct H as [H1 H2].
    split; [assumption|]. intros _. now apply cell_ltb_leb.
Qed.

Lemma row_leb_trans r1 r2 r3 :
  row_leb r1 r2 = true -> row_leb r2 r3 = true -> row_leb r1 r3 = true.
Proof.
  rewrite !row_leb_spec. intros [Ha1 Hb1] [Ha2 Hb2]. split.
  - eapply cell_leb_trans; eauto.
  - intros H. eapply cell_leb_trans.
    + apply Hb1. eapply cell_leb_trans; eauto.
    + apply Hb2. eapply cell_leb_trans; eauto.
Qed.

Lemma row_ltb_negtrans r1 r2 r3 :
  row_ltb r1 r2 = false -> row_ltb r2 r3 = false -> row_ltb r1 r3 = false.
Proof.
  intros H1 H2. apply negb_true_iff. fold (row_leb r3 r1).
  apply row_leb_trans with r2; unfold row_leb; apply negb_true_iff;
    assumption.
Qed.

Lemma row_leb_total r1 r2 : row_leb r1 r2 = true \/ row_leb r2 r1 = true.
Proof.
  unfold row_leb. destruct (row_ltb r2 r1) eqn:E; [right|left; reflexivity].
  now rewrite (row_ltb_asym _ _ E).
Qed.

Lemma sort_values_sorted df :
  StronglySorted (fun r1 r2 => row_leb r1 r2 = true) (sort_values df).
Proof.
  assert (H : StronglySorted (ordered row_ltb) (stable_sort row_ltb df)).
  { apply (stable_sort_sorted row_ltb (fun _ => True)).
    - intros x y _ _. apply row_ltb_asym.
    - intros x y z _ _ _. apply row_ltb_negtrans.
    - apply Forall_forall. auto. }
  unfold sort_values. induction H as [|r l Hs IH Hall]; constructor; auto.
  clear - Hall. unfold ordered, row_leb in *.
  induction Hall as [|r' l H]; constructor; auto.
  now apply negb_true_iff.
Qed.

Lemma sort_values_In r df : In r (sort_values df) <-> In r df.
Proof. apply stable_sort_In. Qed.

End CellOrder.

(** ** The Pareto scan *)

Section Frontier.

Lemma last_cons {X : Type} (a d : X) (l : list X) :
  last (a :: l) d = last l a.
Proof.
  revert a d. induction l as [|b l IH]; intros a d; [reflexivity|].
  change (last (a :: b :: l) d) with (last (b :: l) d).
  rewrite IH. symmetry. apply IH.
Qed.

Lemma for_each_emitted rows st :
  for_each scan_body rows st =
  out <- emitted rows (min_y st) ;;
  Ok {| pareto_front := pareto_front st ++ map point_of out;
        pareto_indices := pareto_indices st ++ map fst out;
        min_y := last (map objB out) (min_y st) |}.
Proof.
  revert st. induction rows as [|r rest IH]; intros st.
  - simpl. rewrite !app_nil_r. destruct st; reflexivity.
  - simpl. unfold scan_body at 1.
    destruct (Py.lt (objB r) (min_y st)) as [[|]|e]; simpl.
    + rewrite IH. simpl.
      destruct (emitted rest (objB r)) as [out|e]; simpl; [|reflexivity].
      rewrite <- !app_assoc. simpl.
      change (match map objB out with
              | [] => objB r
              | _ :: _ => last (map objB out) (min_y st)
              end) with (last (objB r :: map objB out) (min_y st)).
      now rewrite (last_cons (objB r) (min_y st)).
    + apply IH.
    + reflexivity.
Qed.

Lemma pareto_emitted merged :
  pareto merged =
  out <- emitted (sort_values merged) (Float inf) ;;
  Ok {| pareto_front := map point_of out;
        pareto_indices := map fst out;
        min_y := last (map objB out) (Float inf) |}.
Proof. unfold pareto. now rewrite for_each_emitted. Qed.

(** The scan raises exactly when it meets a string in the second column. *)
Lemma emitted_total rows :
  (forall r, In r rows -> exists f, objB r = Float f) ->
  forall m, exists out, emitted rows (Float m) = Ok out.
Proof.
  induction rows as [|r rest IH]; intros H m; simpl.
  - eauto.
  - destruct (H r (or_introl eq_refl)) as [f Hf]. rewrite Hf. simpl.
    assert (Hrest : forall r, In r rest -> exists f, objB r = Float f)
      by (intros; apply H; now right).
    destruct (SFltb f m).
    + destruct (IH Hrest f) as [out Hout]. rewrite Hout. simpl. eauto.
    + apply IH, Hrest.
Qed.

Lemma emitted_raises rows r s :
  In r rows -> objB r = Str s ->
  forall m, emitted rows (Float m) = Raise TypeError.
Proof.
  induction rows as [|x rest IH]; intros Hin Hs m; [destruct Hin|].
  simpl. destruct Hin as [->|Hin].
  - rewrite Hs. reflexivity.
  - destruct (objB x) as [f|t] eqn:E; simpl; [|reflexivity].
    destruct (SFltb f m).
    + rewrite (IH Hin Hs f). reflexivity.
    + apply IH; assumption.
Qed.

Lemma emitted_below rows m out p :
  emitted rows m = Ok out -> In p out ->
  In p rows /\ Py.lt (objB p) m = Ok true.
Proof.
  revert m out. induction rows as [|r rest IH]; intros m out H Hp; simpl in H.
  - injection H as <-. destruct Hp.
  - destruct (Py.lt (objB r) m) as [[|]|e] eqn:E; simpl in H;
      try discriminate.
    + destruct (emitted rest (objB r)) as [out'|e] eqn:E'; simpl in H;
        try discriminate.
      injection H as <-. destruct Hp as [<-|Hp].
      * split; [now left|assumption].
      * destruct (IH _ _ E' Hp) as [Hin Hlt].
        split; [now right|]. eapply py_lt_trans; eauto.
    + destruct (IH _ _ H Hp) as [Hin Hlt]. split; [now right|assumption].
Qed.

Lemma emitted_sorted (R : nat * merged_row -> nat * merged_row -> Prop)
  rows m out :
  emitted rows m = Ok out ->
  StronglySorted R rows -> StronglySorted R out.
Proof.
  revert m out. induction rows as [|r rest IH]; intros m out H Hs;
    simpl in H.
  - injection H as <-. constructor.
  - apply StronglySorted_inv in Hs. destruct Hs as [Hs Hall].
    destruct (Py.lt (objB r) m) as [[|]|e]; simpl in H; try discriminate.
    + destruct (emitted rest (objB r)) as [out'|e] eqn:E'; simpl in H;
        try discriminate.
      injection H as <-. constructor; [eapply IH; eauto|].
      rewrite Forall_forall in *. intros q Hq.
      apply Hall. eapply emitted_below; eauto.
    + eapply IH; eauto.
Qed.

Lemma emitted_decreasing rows m out :
  emitted rows m = Ok out ->
  Sorted (fun p q => Py.lt (objB q) (objB p) = Ok true) out.
Proof.
  revert m out. induction rows as [|r rest IH]; intros m out H; simpl in H.
  - injection H as <-. constructor.
  - destruct (Py.lt (objB r) m) as [[|]|e]; simpl in H; try discriminate.
    + destruct (emitted rest (objB r)) as [out'|e] eqn:E'; simpl in H;
        try discriminate.
      injection H as <-. constructor; [eapply IH; eauto|].
      destruct out' as [|q out'']; constructor.
      eapply emitted_below; [exact E'|now left].
    + eapply IH; eauto.
Qed.

(** No row of a sorted table undercuts an emitted row. *)
Lemma emitted_undominated rows m out p r :
  StronglySorted (fun r1 r2 => row_leb r1 r2 = true) rows ->
  emitted rows m = Ok out ->
  In p out -> In r rows ->
  ~ (Py.le (objA r) (objA p) = Ok true /\ Py.lt (objB r) (objB p) = Ok true).
Proof.
  intros Hs. revert m out. induction Hs as [|x rest Hs IH Hall];
    intros m out H Hp Hr [HA HB]; simpl in H; [destruct Hr|].
  destruct (Py.lt (objB x) m) as [[|]|e] eqn:E; simpl in H; try discriminate.
  - destruct (emitted rest (objB x)) as [out'|e] eqn:E'; simpl in H;
      try discriminate.
    injection H as <-. destruct Hp as [<-|Hp].
    + destruct Hr as [<-|Hr]; [now apply py_lt_irrefl in HB|].
      rewrite Forall_forall in Hall. apply Hall in Hr.
      apply row_leb_spec in Hr. destruct Hr as [_ Hr].
      apply py_lt_cell_ltb in HB. unfold cell_ltb in HB.
      rewrite (Hr (py_le_cell_leb _ _ HA)) in HB. discriminate.
    + destruct Hr as [<-|Hr]; [|now apply (IH _ _ E' Hp Hr)].
      destruct (emitted_below _ _ _ _ E' Hp) as [_ Hlt].
      apply (py_lt_irrefl (objB x)). eapply py_lt_trans; eauto.
  - destruct Hr as [<-|Hr]; [|now apply (IH _ _ H Hp Hr)].
    destruct (emitted_below _ _ _ _ H Hp) as [_ Hlt].
    rewrite (py_lt_trans _ _ _ HB Hlt) in E. discriminate.
Qed.

Lemma Sorted_map {X Y : Type} (f : X -> Y) (R : Y -> Y -> Prop) l :
  Sorted (fun a b => R (f a) (f b)) l -> Sorted R (map f l).
Proof.
  induction 1 as [|a l Hs IH Hd]; simpl; constructor; auto.
  destruct Hd; simpl; constructor; assumption.
Qed.

Lemma StronglySorted_map {X Y : Type} (f : X -> Y) (R : Y -> Y -> Prop) l :
  StronglySorted (fun a b => R (f a) (f b)) l -> StronglySorted R (map f l).
Proof.
  induction 1 as [|a l Hs IH Hall]; simpl; constructor; auto.
  rewrite Forall_forall in *. intros y Hy.
  apply in_map_iff in Hy. destruct Hy as (b & <- & Hb). now apply Hall.
Qed.

Lemma StronglySorted_impl {X : Type} (R1 R2 : X -> X -> Prop) l :
  (forall a b, R1 a b -> R2 a b) ->
  StronglySorted R1 l -> StronglySorted R2 l.
Proof.
  intros HR. induction 1 as [|a l Hs IH Hall]; constructor; auto.
  eapply Forall_impl; [|exact Hall]. auto.
Qed.

Lemma Sorted_and {X : Type} (R1 R2 : X -> X -> Prop) l :
  Sorted R1 l -> Sorted R2 l -> Sorted (fun a b => R1 a b /\ R2 a b) l.
Proof.
  induction 1 as [|a l Hs IH Hd]; intros H2; constructor.
  - apply IH. now inversion H2.
  - inversion H2 as [|? ? ? Hd2]; subst.
    destruct Hd; constructor. inversion Hd2; subst. now split.
Qed.

Lemma isreal_below_inf f : isreal f = true -> SFltb f inf = true.
Proof.
  destruct f as [[]|[]| |[] m e]; simpl; intros; try discriminate;
    reflexivity.
Qed.

End Frontier.

(** Case analysis on the membership in a list given by its elements. *)
Ltac in_cases H :=
  simpl in H; repeat (destruct H as [<-|H]); try contradiction.

(** ** The frontier engine: claims C1, C2, C3 and C9 *)

(** C1.  On the records (1,5), (2,3), (2,8), (4,1), labelled 0 to 3, the
    scan starts from [min_y = +inf], visits the records in the order
    (1,5), (2,3), (2,8), (4,1) and returns exactly the points (1,5),
    (2,3), (4,1), with the labels 0, 1 and 3: the record (2,8), which
    shares its first objective with an accepted record, is not strictly
    below the running minimum 3 and is left out. *)
Theorem C1_scenario_frontier :
  min_y scan_init = Float inf /\
  map fst (sort_values scenario) = [0; 1; 2; 3] /\
  Py.lt (Float (of_Z 8)) (Float (of_Z 3)) = Ok false /\
  pareto scenario =
  Ok {| pareto_front := [(Float (of_Z 1), Float (of_Z 5));
                         (Float (of_Z 2), Float (of_Z 3));
                         (Float (of_Z 4), Float (of_Z 1))];
        pareto_indices := [0; 1; 3];
        min_y := Float (of_Z 1) |}.
Proof. repeat split; reflexivity. Qed.

Lemma pareto_returns merged :
  float_column merged ->
  exists out,
    emitted (sort_values merged) (Float inf) = Ok out /\
    pareto merged =
    Ok {| pareto_front := map point_of out;
          pareto_indices := map fst out;
          min_y := last (map objB out) (Float inf) |}.
Proof.
  intros H.
  destruct (emitted_total (sort_values merged)) with (m := inf)
    as [out Hout].
  - intros r Hr. apply H. now apply sort_values_In.
  - exists out. split; [assumption|].
    rewrite pareto_emitted, Hout. reflexivity.
Qed.

(** The frontier engine raises [TypeError] exactly when the second column
    holds a string. *)
Lemma pareto_raises merged r s :
  In r merged -> objB r = Str s -> pareto merged = Raise TypeError.
Proof.
  intros Hin Hs. rewrite pareto_emitted.
  rewrite (emitted_raises (sort_values merged) r s); auto.
  now apply sort_values_In.
Qed.

(** C2.  Frontier minimality: the frontier engine returns on every table
    whose second objective is a float column, and no record left out of
    its output has a first objective [<=] that of an emitted point
    together with a second objective [<] that of the same point. *)
Theorem C2_frontier_minimality merged :
  float_column merged ->
  exists st,
    pareto merged = Ok st /\
    forall r p,
      In r merged -> ~ In (fst r) (pareto_indices st) ->
      In p (pareto_front st) ->
      ~ (Py.le (objA r) (fst p) = Ok true /\
         Py.lt (objB r) (snd p) = Ok true).
Proof.
  intros H. destruct (pareto_returns merged H) as (out & Hout & Hst).
  eexists. split; [exact Hst|]. simpl.
  intros r p Hr _ Hp. apply in_map_iff in Hp.
  destruct Hp as (p' & <- & Hp'). simpl.
  eapply emitted_undominated; eauto using sort_values_sorted.
  now apply sort_values_In.
Qed.

Lemma C2_frontier_minimality_witness :
  exists st,
    pareto scenario = Ok st /\
    forall r p,
      In r scenario -> ~ In (fst r) (pareto_indices st) ->
      In p (pareto_front st) ->
      ~ (Py.le (objA r) (fst p) = Ok true /\
         Py.lt (objB r) (snd p) = Ok true).
Proof.
  apply (C2_frontier_minimality scenario).
  intros r Hr. in_cases Hr; eexists; reflexivity.
Defined.

Lemma StronglySorted_impl_In {X : Type} (R R' : X -> X -> Prop) l :
  StronglySorted R l ->
  (forall a b, In a l -> In b l -> R a b -> R' a b) ->
  StronglySorted R' l.
Proof.
  induction 1 as [|x l Hs IH Hall]; intros Himp; constructor.
  - apply IH. intros a b Ha Hb. apply Himp; now right.
  - rewrite Forall_forall in *. intros y Hy.
    apply Himp; [now left|now right|auto].
Qed.

(** C3.  Frontier monotonicity and output order: on every table whose
    second objective is a float column, across consecutive points of the
    output the second objective does not increase (it strictly
    decreases), and the whole output is in the order [sort_values] gave
    it: ascending in the first objective, a missing one (NaN) last.
    When no first objective is missing, the first objective does not
    decrease, in Python's [<=], from any point to any later one, so that
    the output needs no sorting again.  With a missing first objective
    this holds up to the last point only: see [C3_counterexample]. *)
Theorem C3_frontier_staircase merged :
  float_column merged ->
  exists st,
    pareto merged = Ok st /\
    Sorted staircase (pareto_front st) /\
    Sorted (fun p q => Py.lt (snd q) (snd p) = Ok true) (pareto_front st) /\
    StronglySorted ascending_objA (pareto_front st) /\
    (number_column_A merged ->
     StronglySorted py_le_objA (pareto_front st)).
Proof.
  intros H. destruct (pareto_returns merged H) as (out & Hout & Hst).
  eexists. split; [exact Hst|]. simpl.
  assert (Hasc : StronglySorted
                   (fun p q => ascending_objA (point_of p) (point_of q)) out).
  { apply (emitted_sorted _ _ _ _ Hout).
    eapply StronglySorted_impl; [|apply sort_values_sorted].
    intros p q Hq. apply row_leb_spec in Hq. apply Hq. }
  assert (Hdec : Sorted (fun p q => Py.lt (snd (point_of q))
                                          (snd (point_of p)) = Ok true) out)
    by apply (emitted_decreasing _ _ _ Hout).
  split; [|split; [|split]].
  - apply Sorted_map.
    pose proof (Sorted_and _ _ _ (StronglySorted_Sorted Hasc) Hdec) as Hs.
    clear - Hs. induction Hs as [|p l Hs IH Hd]; constructor; auto.
    destruct Hd as [|q l [Ha Hb]]; constructor.
    unfold staircase. unfold ascending_objA in Ha.
    split; [exact Ha|]. split; [|split]; auto using py_lt_le.
    + intros Hlt. apply py_lt_cell_ltb in Hlt. unfold cell_ltb in Hlt.
      rewrite Ha in Hlt. discriminate.
    + intros x y Hx Hy Hn. rewrite Hx, Hy in *. simpl in *.
      rewrite Hn in Ha. simpl in Ha.
      apply andb_true_iff in Ha. now rewrite (proj2 Ha).
  - now apply Sorted_map.
  - now apply StronglySorted_map.
  - intros Hnum. apply StronglySorted_map.
    apply (StronglySorted_impl_In _ _ _ Hasc).
    intros p q Hp Hq Hpq.
    assert (Hin : forall r, In r out -> In r merged).
    { intros r Hr. apply sort_values_In. eapply emitted_below; eauto. }
    destruct (Hnum p (Hin p Hp)) as (a & Ha & Hna).
    destruct (Hnum q (Hin q Hq)) as (b & Hb & Hnb).
    unfold py_le_objA, ascending_objA, point_of in *. simpl in *.
    rewrite Ha, Hb in *. simpl in *.
    rewrite Hna, Hnb in Hpq. simpl in Hpq. now rewrite Hpq.
Qed.

Lemma C3_frontier_staircase_witness :
  exists st,
    pareto scenario = Ok st /\
    Sorted staircase (pareto_front st) /\
    Sorted (fun p q => Py.lt (snd q) (snd p) = Ok true) (pareto_front st) /\
    StronglySorted ascending_objA (pareto_front st) /\
    StronglySorted py_le_objA (pareto_front st).
Proof.
  destruct (C3_frontier_staircase scenario)
    as (st & H1 & H2 & H3 & H4 & H5).
  - intros r Hr. in_cases Hr; eexists; reflexivity.
  - exists st. repeat split; try assumption. apply H5.
    intros r Hr. in_cases Hr; eexists; split; reflexivity.
Defined.

(** C3, as stated, fails: a record without its first objective (NaN) is
    sorted last and still emitted when its second objective is the
    lowest so far; the frontier then ends in a point whose first
    objective is NaN, and [1 <= NaN] is [False]. *)
Lemma C3_counterexample :
  float_column table_with_nan /\
  pareto table_with_nan =
  Ok {| pareto_front := [(Float (of_Z 1), Float (of_Z 5));
                         (Float nan, Float (of_Z 3))];
        pareto_indices := [0; 2];
        min_y := Float (of_Z 3) |} /\
  Py.le (Float (of_Z 1)) (Float nan) = Ok false /\
  ~ Sorted py_le_objA [(Float (of_Z 1), Float (of_Z 5));
                       (Float nan, Float (of_Z 3))].
Proof.
  split; [|split; [reflexivity|split; [reflexivity|]]].
  - intros r Hr. in_cases Hr; eexists; reflexivity.
  - intros H. apply Sorted_inv in H. destruct H as [_ H].
    apply HdRel_inv in H. discriminate.
Qed.

Lemma tied_not_ltb p a b :
  tied p a = true -> tied p b = true -> row_ltb a b = false.
Proof.
  unfold tied. rewrite !andb_true_iff. intros [Ha1 Ha2] [Hb1 Hb2].
  apply negb_true_iff. fold (row_leb b a).
  eapply row_leb_trans; eauto.
Qed.

(** C9.  On a non-empty table whose second objective holds real numbers
    only, the frontier engine emits at least one point, and the first one
    is the record that is minimal in the lexicographic order of the two
    objectives: the first record that [sort_values] yields, which is the
    first record of the table among those tied at the minimum. *)
Theorem C9_first_point_is_minimum merged :
  merged <> [] ->
  (forall r, In r merged -> exists f, objB r = Float f /\ isreal f = true) ->
  exists st p front labels,
    pareto merged = Ok st /\
    pareto_front st = (objA p, objB p) :: front /\
    pareto_indices st = fst p :: labels /\
    In p merged /\
    (forall r, In r merged -> row_leb p r = true) /\
    hd_error (sort_values merged) = Some p /\
    hd_error (filter (tied p) merged) = Some p.
Proof.
  intros Hne Hreal.
  assert (Hcol : float_column merged).
  { intros r Hr. destruct (Hreal r Hr) as (f & Hf & _). eauto. }
  destruct (sort_values merged) as [|p rest] eqn:Es.
  { exfalso. apply Hne.
    pose proof (stable_sort_length row_ltb merged) as Hlen.
    fold (sort_values merged) in Hlen. rewrite Es in Hlen.
    destruct merged; [reflexivity|discriminate]. }
  assert (Hp : In p merged) by (apply sort_values_In; rewrite Es; now left).
  destruct (Hreal p Hp) as (f & Hf & Hr).
  destruct (emitted_total rest) with (m := f) as [out Hout].
  { intros r Hr'. apply Hcol, sort_values_In. rewrite Es. now right. }
  assert (Hmin : forall r, In r merged -> row_leb p r = true).
  { intros r Hr'. apply sort_values_In in Hr'.
    pose proof (sort_values_sorted merged) as Hs. rewrite Es in *.
    apply StronglySorted_inv in Hs. destruct Hs as [_ Hall].
    rewrite Forall_forall in Hall.
    destruct Hr' as [<-|Hr']; [|now apply Hall].
    destruct (row_leb_total p p); assumption. }
  eexists. exists p, (map point_of out), (map fst out).
  split; [|repeat split; auto].
  - rewrite pareto_emitted, Es. simpl. rewrite Hf. simpl.
    rewrite (isreal_below_inf _ Hr), Hout. simpl. reflexivity.
  - reflexivity.
  - reflexivity.
  - pose proof (stable_sort_filter row_ltb (tied p) merged
                  (tied_not_ltb p)) as Hst.
    fold (sort_values merged) in Hst. rewrite Es in Hst.
    simpl in Hst. unfold tied at 1 in Hst.
    rewrite (Hmin p Hp) in Hst. simpl in Hst.
    rewrite <- Hst. reflexivity.
Qed.

Lemma C9_first_point_is_minimum_witness :
  exists st p front labels,
    pareto scenario = Ok st /\
    pareto_front st = (objA p, objB p) :: front /\
    pareto_indices st = fst p :: labels /\
    In p scenario /\
    (forall r, In r scenario -> row_leb p r = true) /\
    hd_error (sort_values scenario) = Some p /\
    hd_error (filter (tied p) scenario) = Some p.
Proof.
  apply (C9_first_point_is_minimum scenario).
  - discriminate.
  - intros r Hr. in_cases Hr; eexists; split; reflexivity.
Defined.

(** ** The identifier normalizer: claim C5 *)

Section Normalizer.

Lemma not_digits_suffixed x :
  forallb is_digit (list_ascii_of_string (x ++ ".sdf")) = false.
Proof.
  induction x as [|c x IH]; [reflexivity|].
  simpl. rewrite IH. apply andb_false_r.
Qed.

Lemma isdigit_suffixed x : isdigit (x ++ ".sdf") = false.
Proof.
  destruct x as [|c x]; [reflexivity|].
  change (isdigit (String c x ++ ".sdf"))
    with (forallb is_digit (list_ascii_of_string (String c x ++ ".sdf"))).
  apply not_digits_suffixed.
Qed.

Lemma isdigit_spec x :
  isdigit x = true <->
  x <> "" /\ Forall (fun c => (48 <= nat_of_ascii c <= 57)%nat)
                    (list_ascii_of_string x).
Proof.
  assert (Hd : forall l, forallb is_digit l = true <->
                         Forall (fun c => (48 <= nat_of_ascii c <= 57)%nat) l).
  { intros l. rewrite forallb_forall, Forall_forall.
    split; intros H c Hc; specialize (H c Hc); unfold is_digit in *.
    - apply andb_true_iff in H. destruct H as [H1 H2].
      apply Nat.leb_le in H1, H2. lia.
    - apply andb_true_iff. split; apply Nat.leb_le; lia. }
  destruct x as [|c x].
  - simpl. split; [discriminate|]. intros [H _]. now elim H.
  - unfold isdigit. rewrite Hd. split; [|tauto].
    intros H. split; [discriminate|assumption].
Qed.

End Normalizer.

(** C5.  The normalizer appends [.sdf] to an identifier whose string
    form consists of digits only and returns any other identifier
    unchanged; it is a total function on strings and idempotent; it sends
    [42] to [42.sdf] and leaves [42.sdf] as it is.

    This is stated for [str.isdigit] as Python has it, a parameter
    [str_isdigit] of which two facts are used: on ASCII strings it is
    [isdigit], and a string that ends in [.sdf] is never made of digits
    (the dot is not a digit, in any version of Unicode).  On ASCII
    identifiers the normalizer of the merge, [normalize_ligand], is that
    function; it is idempotent too and has the same two examples. *)
Theorem C5_normalizer (str_isdigit : string -> bool) (x : string) :
  (forall s, isascii s = true -> str_isdigit s = isdigit s) ->
  (forall s, str_isdigit (s ++ ".sdf")%string = false) ->
  (str_isdigit x = true ->
   normalize_with str_isdigit x = (x ++ ".sdf")%string) /\
  (str_isdigit x = false -> normalize_with str_isdigit x = x) /\
  normalize_with str_isdigit (normalize_with str_isdigit x)
  = normalize_with str_isdigit x /\
  normalize_with str_isdigit "42" = "42.sdf" /\
  normalize_with str_isdigit "42.sdf" = "42.sdf" /\
  (isascii x = true -> normalize_ligand x = normalize_with str_isdigit x) /\
  (isdigit x = true -> normalize_ligand x = (x ++ ".sdf")%string) /\
  (isascii x = true -> isdigit x = false -> normalize_ligand x = x) /\
  normalize_ligand (normalize_ligand x) = normalize_ligand x /\
  normalize_ligand "42" = "42.sdf" /\
  normalize_ligand "42.sdf" = "42.sdf".
Proof.
  intros Hascii Hsuffix.
  assert (H42 : str_isdigit "42" = true) by (now rewrite Hascii).
  assert (H42s : str_isdigit "42.sdf" = false) by (now rewrite Hascii).
  repeat split.
  - unfold normalize_with. now intros ->.
  - unfold normalize_with. now intros ->.
  - unfold normalize_with at 2 3. destruct (str_isdigit x) eqn:E.
    + unfold normalize_with. now rewrite Hsuffix.
    + unfold normalize_with. now rewrite E.
  - unfold normalize_with. now rewrite H42.
  - unfold normalize_with. now rewrite H42s.
  - intros Hx. unfold normalize_ligand, normalize_with.
    now rewrite (Hascii x Hx).
  - unfold normalize_ligand. now intros ->.
  - unfold normalize_ligand. now intros _ ->.
  - unfold normalize_ligand at 2 3. destruct (isdigit x) eqn:E.
    + unfold normalize_ligand. now rewrite isdigit_suffixed.
    + unfold normalize_ligand. now rewrite E.
Qed.

Lemma C5_normalizer_witness :
  normalize_with isdigit "7" = "7.sdf" /\
  normalize_ligand "ligand_007.sdf" = "ligand_007.sdf".
Proof.
  destruct (C5_normalizer isdigit "7") as (H1 & _);
    [reflexivity|apply isdigit_suffixed|].
  destruct (C5_normalizer isdigit "ligand_007.sdf")
    as (_ & _ & _ & _ & _ & _ & _ & H2 & _);
    [reflexivity|apply isdigit_suffixed|].
  split; [apply H1|apply H2]; reflexivity.
Defined.

(** ** The join: claim C4 *)

Section Join.

Lemma reset_index_snd {R : Type} (rows : list R) :
  map snd (reset_index rows) = rows.
Proof.
  unfold reset_index. generalize 0.
  induction rows as [|r rows IH]; intros n; [reflexivity|].
  simpl. now rewrite IH.
Qed.

Lemma reset_index_In {R : Type} (rows : list R) (x : R) :
  In x rows <-> exists i, In (i, x) (reset_index rows).
Proof.
  rewrite <- (reset_index_snd rows) at 1. rewrite in_map_iff. split.
  - intros ([i y] & <- & H). now exists i.
  - intros [i H]. now exists (i, x).
Qed.

Lemma count_if_map {X Y : Type} (f : X -> Y) (p : Y -> bool) l :
  count_if p (map f l) = count_if (fun x => p (f x)) l.
Proof.
  unfold count_if. induction l as [|x l IH]; [reflexivity|].
  simpl. destruct (p (f x)); simpl; now rewrite IH.
Qed.

Lemma count_if_app {X : Type} (p : X -> bool) l1 l2 :
  count_if p (l1 ++ l2) = count_if p l1 + count_if p l2.
Proof. unfold count_if. now rewrite filter_app, length_app. Qed.

Lemma count_if_all {X : Type} (p : X -> bool) l :
  (forall x, In x l -> p x = true) -> count_if p l = List.length l.
Proof.
  unfold count_if. induction l as [|x l IH]; intros H; [reflexivity|].
  simpl. rewrite (H x (or_introl eq_refl)). simpl.
  rewrite IH; auto. intros; apply H; now right.
Qed.

Lemma count_if_none {X : Type} (p : X -> bool) l :
  (forall x, In x l -> p x = false) -> count_if p l = 0.
Proof.
  unfold count_if. induction l as [|x l IH]; intros H; [reflexivity|].
  simpl. rewrite (H x (or_introl eq_refl)).
  apply IH. intros; apply H; now right.
Qed.

Lemma join_rows_In left right l r :
  In (l, r) (join_rows left right) <->
  In l left /\ In r right /\ SA.filename l = Vina.ligand r.
Proof.
  unfold join_rows. rewrite in_flat_map. split.
  - intros (l' & Hl & H). apply in_map_iff in H.
    destruct H as (r' & Heq & Hr). injection Heq as -> ->.
    apply filter_In in Hr. destruct Hr as [Hr He].
    apply String.eqb_eq in He. auto.
  - intros (Hl & Hr & He). exists l. split; [assumption|].
    apply in_map. apply filter_In. split; [assumption|].
    now apply String.eqb_eq.
Qed.

Lemma join_rows_count left right k :
  count_if (fun m => String.eqb k (SA.filename (fst m)))
           (join_rows left right) =
  count_if (fun l => String.eqb k (SA.filename l)) left *
  count_if (fun r => String.eqb k (Vina.ligand r)) right.
Proof.
  induction left as [|l left IH]; [reflexivity|].
  unfold join_rows in *. simpl flat_map.
  rewrite count_if_app, IH, count_if_map. simpl fst.
  destruct (String.eqb k (SA.filename l)) eqn:E.
  - rewrite count_if_all by reflexivity.
    apply String.eqb_eq in E. subst k.
    unfold count_if. simpl. rewrite String.eqb_refl. simpl. lia.
  - rewrite count_if_none by reflexivity.
    unfold count_if. simpl. rewrite E. reflexivity.
Qed.

Lemma count_if_ext {X : Type} (p q : X -> bool) l :
  (forall x, p x = q x) -> count_if p l = count_if q l.
Proof.
  intros H. unfold count_if. f_equal. now apply filter_ext.
Qed.

Lemma count_if_filter {X : Type} (f p : X -> bool) l :
  count_if p (filter f l) = count_if (fun x => f x && p x) l.
Proof.
  unfold count_if. induction l as [|x l IH]; [reflexivity|].
  simpl. destruct (f x); simpl; [|exact IH].
  destruct (p x); simpl; now rewrite IH.
Qed.

Lemma count_if_cons {X : Type} (p : X -> bool) x l :
  count_if p (x :: l) = (if p x then 1 else 0) + count_if p l.
Proof. unfold count_if. simpl. now destruct (p x). Qed.

(** The rows of the join that pair left rows of a class [p] with right
    rows of a class [q] under the key [k]: one for each such left row
    and each such right row. *)
Lemma join_rows_count_classes left right k
  (p : SA.row -> bool) (q : Vina.row -> bool) :
  count_if (fun m => String.eqb k (SA.filename (fst m))
                     && p (fst m) && q (snd m))
           (join_rows left right) =
  count_if (fun l => String.eqb k (SA.filename l) && p l) left *
  count_if (fun r => String.eqb k (Vina.ligand r) && q r) right.
Proof.
  induction left as [|l left IH]; [reflexivity|].
  unfold join_rows in *. simpl flat_map.
  rewrite count_if_app, IH, count_if_map, count_if_filter. simpl fst.
  simpl snd.
  destruct (String.eqb k (SA.filename l) && p l) eqn:E.
  - apply andb_true_iff in E. destruct E as [Ek Ep].
    apply String.eqb_eq in Ek. subst k.
    rewrite (count_if_ext _ (fun r => String.eqb (SA.filename l)
                                                 (Vina.ligand r) && q r)).
    + rewrite count_if_cons, String.eqb_refl, Ep. simpl. lia.
    + intros r. reflexivity.
  - rewrite (count_if_none _ right).
    + rewrite count_if_cons, E. reflexivity.
    + intros r _. simpl. apply andb_false_r.
Qed.

End Join.

(** C4.  Join correctness: every row of the merge pairs a row of the
    first table with a (normalized) row of the second one that has the
    same identifier; every identifier found in both normalized key sets is
    the key of some output row; an identifier that occurs [m] times on
    the left and [n] times on the right gives [m * n] output rows; and
    these rows are the combinations: every left row is paired with every
    right row that has its identifier, as many times as the two rows
    occur (for every class [p] of left rows and every class [q] of right
    rows, the output has one row for each left row in [p] and each right
    row in [q] under the same key). *)
Theorem C4_join_correctness (sa_df : list SA.row) (vina_df : list Vina.row) :
  (forall i l r,
      In (i, (l, r)) (merge_tables sa_df vina_df) ->
      In l sa_df /\
      (exists v, In v vina_df /\ r = normalized_row v) /\
      SA.filename l = Vina.ligand r) /\
  (forall k,
      In k (map SA.filename sa_df) ->
      In k (map normalized_key vina_df) ->
      In k (map merged_key (merge_tables sa_df vina_df))) /\
  (forall k,
      count_if (fun m => String.eqb k (merged_key m))
               (merge_tables sa_df vina_df) =
      count_if (fun l => String.eqb k (SA.filename l)) sa_df *
      count_if (fun v => String.eqb k (normalized_key v)) vina_df) /\
  (forall l v,
      In l sa_df -> In v vina_df ->
      SA.filename l = normalized_key v ->
      exists i, In (i, (l, normalized_row v)) (merge_tables sa_df vina_df)) /\
  (forall k (p : SA.row -> bool) (q : Vina.row -> bool),
      count_if (fun m => String.eqb k (merged_key m)
                         && p (fst (snd m)) && q (snd (snd m)))
               (merge_tables sa_df vina_df) =
      count_if (fun l => String.eqb k (SA.filename l) && p l) sa_df *
      count_if (fun v => String.eqb k (normalized_key v)
                         && q (normalized_row v)) vina_df).
Proof.
  unfold merge_tables, pd_merge. split; [|split; [|split; [|split]]].
  - intros i l r H.
    assert (H' : In (l, r) (join_rows sa_df (normalize_column vina_df)))
      by (apply reset_index_In; eauto).
    apply join_rows_In in H'. destruct H' as (Hl & Hr & He).
    unfold normalize_column in Hr. apply in_map_iff in Hr.
    destruct Hr as (v & <- & Hv). repeat split; eauto.
  - intros k Hl Hr. apply in_map_iff in Hl, Hr.
    destruct Hl as (l & <- & Hl), Hr as (v & Hk & Hv).
    assert (H : In (l, normalized_row v)
                   (join_rows sa_df (normalize_column vina_df))).
    { apply join_rows_In. repeat split; auto.
      unfold normalize_column. now apply (in_map normalized_row). }
    apply reset_index_In in H. destruct H as [i H].
    apply in_map_iff. now exists (i, (l, normalized_row v)).
  - intros k.
    transitivity
      (count_if (fun y => String.eqb k (SA.filename (fst y)))
         (map snd (reset_index
                     (join_rows sa_df (normalize_column vina_df))))).
    { rewrite count_if_map. reflexivity. }
    rewrite reset_index_snd, join_rows_count. f_equal.
    unfold normalize_column. now rewrite count_if_map.
  - intros l v Hl Hv He.
    apply reset_index_In. apply join_rows_In. repeat split; auto.
    unfold normalize_column. now apply (in_map normalized_row).
  - intros k p q.
    transitivity
      (count_if (fun y => String.eqb k (SA.filename (fst y))
                          && p (fst y) && q (snd y))
         (map snd (reset_index
                     (join_rows sa_df (normalize_column vina_df))))).
    { rewrite count_if_map. reflexivity. }
    rewrite reset_index_snd, join_rows_count_classes. f_equal.
    unfold normalize_column. now rewrite count_if_map.
Qed.

Lemma C4_join_correctness_witness :
  In "7.sdf"
     (map merged_key
          (merge_tables
             [{| SA.filename := "7.sdf"; SA.SA_score := Float (of_Z 3) |}]
             [{| Vina.ligand := "7"; Vina.affinity := Float (of_Z 1) |};
              {| Vina.ligand := "7.sdf"; Vina.affinity := Float (of_Z 2) |}])) /\
  exists i,
    In (i, ({| SA.filename := "7.sdf"; SA.SA_score := Float (of_Z 3) |},
            {| Vina.ligand := "7.sdf"; Vina.affinity := Float (of_Z 2) |}))
       (merge_tables
          [{| SA.filename := "7.sdf"; SA.SA_score := Float (of_Z 3) |}]
          [{| Vina.ligand := "7"; Vina.affinity := Float (of_Z 1) |};
           {| Vina.ligand := "7.sdf"; Vina.affinity := Float (of_Z 2) |}]).
Proof.
  split.
  - apply (proj1 (proj2 (C4_join_correctness _ _))); simpl; auto.
  - apply (proj1 (proj2 (proj2 (proj2
             (C4_join_correctness
                [{| SA.filename := "7.sdf"; SA.SA_score := Float (of_Z 3) |}]
                [{| Vina.ligand := "7"; Vina.affinity := Float (of_Z 1) |};
                 {| Vina.ligand := "7.sdf";
                    Vina.affinity := Float (of_Z 2) |}]))))
             {| SA.filename := "7.sdf"; SA.SA_score := Float (of_Z 3) |}
             {| Vina.ligand := "7.sdf"; Vina.affinity := Float (of_Z 2) |});
      simpl; auto.
Defined.

Example join_expands_duplicates :
  map snd
      (merge_tables
         [{| SA.filename := "7.sdf"; SA.SA_score := Float (of_Z 1) |};
          {| SA.filename := "7.sdf"; SA.SA_score := Float (of_Z 2) |}]
         [{| Vina.ligand := "7"; Vina.affinity := Float (of_Z 3) |};
          {| Vina.ligand := "7.sdf"; Vina.affinity := Float (of_Z 4) |}]) =
  [({| SA.filename := "7.sdf"; SA.SA_score := Float (of_Z 1) |},
    {| Vina.ligand := "7.sdf"; Vina.affinity := Float (of_Z 3) |});
   ({| SA.filename := "7.sdf"; SA.SA_score := Float (of_Z 1) |},
    {| Vina.ligand := "7.sdf"; Vina.affinity := Float (of_Z 4) |});
   ({| SA.filename := "7.sdf"; SA.SA_score := Float (of_Z 2) |},
    {| Vina.ligand := "7.sdf"; Vina.affinity := Float (of_Z 3) |});
   ({| SA.filename := "7.sdf"; SA.SA_score := Float (of_Z 2) |},
    {| Vina.ligand := "7.sdf"; Vina.affinity := Float (of_Z 4) |})].
Proof. reflexivity. Qed.

(** ** The empty merge: claim C7 *)

Lemma merge_tables_empty sa_df vina_df :
  no_common_key sa_df vina_df <-> merge_tables sa_df vina_df = [].
Proof.
  unfold merge_tables, pd_merge. split.
  - intros H.
    destruct (join_rows sa_df (normalize_column vina_df)) as [|[l r] rows]
      eqn:E; [reflexivity|].
    assert (Hin : In (l, r) (join_rows sa_df (normalize_column vina_df)))
      by (rewrite E; now left).
    apply join_rows_In in Hin. destruct Hin as (Hl & Hr & He).
    apply in_map_iff in Hr. destruct Hr as (v & <- & Hv).
    now elim (H l v Hl Hv).
  - intros H l v Hl Hv He.
    assert (Hin : In (l, normalized_row v)
                     (join_rows sa_df (normalize_column vina_df))).
    { apply join_rows_In. repeat split; auto.
      now apply (in_map normalized_row). }
    apply reset_index_In in Hin. destruct Hin as [i Hin].
    exact (eq_ind _ (fun t => In (i, (l, normalized_row v)) t) Hin _ H).
Qed.

(** C7, as the code has it.  When the normalized identifiers of the two
    tables do not meet (one of the tables may have no rows at all), the
    merge is empty, and [plot_sa_vs_affinity] prints the warning of line
    52 and returns: nothing is plotted or saved and no exception is
    raised. *)
Theorem C7_empty_merge_warning sa_df vina_df :
  no_common_key sa_df vina_df ->
  merge_tables sa_df vina_df = [] /\
  plot_sa_vs_affinity sa_df vina_df = Ok warned.
Proof.
  intros H. apply merge_tables_empty in H.
  split; [assumption|]. unfold plot_sa_vs_affinity. now rewrite H.
Qed.

Lemma C7_empty_merge_warning_witness :
  merge_tables mismatched_sa mismatched_vina = [] /\
  plot_sa_vs_affinity mismatched_sa mismatched_vina = Ok warned.
Proof.
  apply (C7_empty_merge_warning mismatched_sa mismatched_vina).
  intros l v Hl Hv. in_cases Hl. in_cases Hv. discriminate.
Defined.

(** C7, as stated, fails: two non-empty tables with no common identifier
    give the same merge and the same outcome as two tables without rows,
    and the outcome is a normal return, not an error. *)
Lemma C7_counterexample :
  mismatched_sa <> [] /\ mismatched_vina <> [] /\
  no_common_key mismatched_sa mismatched_vina /\
  merge_tables mismatched_sa mismatched_vina = merge_tables [] [] /\
  plot_sa_vs_affinity mismatched_sa mismatched_vina =
  plot_sa_vs_affinity [] [] /\
  plot_sa_vs_affinity mismatched_sa mismatched_vina = Ok warned.
Proof.
  repeat split; try discriminate; try reflexivity.
  intros l v Hl Hv. in_cases Hl. in_cases Hv. discriminate.
Qed.

(** ** Lines without a comma: claim C10 *)

(** C10.  A line without a comma is discarded before the parsing and the
    sorting: whatever the reader and the number parser, the call leaves
    the same output file and ends the same way as on the input without
    that line, and the ranked rows are those of the lines that have a
    comma. *)
Theorem C10_commaless_line_dropped
  (csv_reader : list string -> list (list string))
  (float : string -> option spec_float)
  (before after : list string) (l : string) :
  has_comma l = false ->
  postprocess_vina_results csv_reader float (before ++ l :: after) =
  postprocess_vina_results csv_reader float (before ++ after) /\
  ranked_rows csv_reader float (before ++ l :: after) =
  ranked_rows csv_reader float (before ++ after) /\
  ranked_rows csv_reader float (before ++ l :: after) =
  list_sort (sort_key float)
            (snd (DictReader csv_reader
                    (filter has_comma (before ++ after)))).
Proof.
  intros H. unfold postprocess_vina_results, ranked_rows.
  rewrite !filter_app. simpl. rewrite H. repeat split; reflexivity.
Qed.

Lemma C10_commaless_line_dropped_witness :
  postprocess_vina_results Sample.simple_reader Sample.simple_float
                           file_with_note =
  {| outfile := Some [["ligand"; "affinity_kcal/mol"];
                      ["b"; "-7"]; ["a"; "3"]];
     raised := None |}.
Proof.
  change file_with_note
    with ([line "ligand,affinity_kcal/mol"; line "a,3"]
            ++ line "# rerun" :: [line "b,-7"]).
  rewrite (proj1 (C10_commaless_line_dropped
                    Sample.simple_reader Sample.simple_float
                    [line "ligand,affinity_kcal/mol"; line "a,3"]
                    [line "b,-7"] (line "# rerun") eq_refl)).
  reflexivity.
Defined.

(** ** The rank sorter: claims C6 and C8 *)

Section ListSort.

Context {X : Type} (key : X -> result spec_float).

Lemma mapM_raises (l : list X) x e :
  In x l -> key x = Raise e -> exists e', mapM key l = Raise e'.
Proof.
  induction l as [|y l IH]; intros Hin He; [destruct Hin|].
  simpl. destruct (key y) as [f|e1] eqn:Ey; simpl; [|eauto].
  destruct Hin as [->|Hin]; [congruence|].
  destruct (IH Hin He) as [e' ->]. simpl. eauto.
Qed.

(** When every key is computed, the list is decorated with its keys. *)
Lemma mapM_decorate (l : list X) :
  (forall x, In x l -> exists f, key x = Ok f) ->
  exists keys,
    mapM key l = Ok keys /\
    map snd (combine keys l) = l /\
    Forall (fun d => key (snd d) = Ok (fst d)) (combine keys l).
Proof.
  induction l as [|x l IH]; intros H.
  - exists []. repeat split. constructor.
  - destruct (H x (or_introl eq_refl)) as [f Hf].
    destruct IH as (keys & Hk & Hs & Hall);
      [intros; apply H; now right|].
    exists (f :: keys). simpl. rewrite Hf, Hk. simpl. rewrite Hs.
    repeat split. now constructor.
Qed.

Lemma list_sort_raises (l : list X) x e :
  In x l -> key x = Raise e -> exists e', list_sort key l = Raise e'.
Proof.
  intros Hin He. destruct (mapM_raises l x e Hin He) as [e' H].
  exists e'. unfold list_sort. now rewrite H.
Qed.

Lemma list_sort_perm (l : list X) :
  (forall x, In x l -> exists f, key x = Ok f) ->
  exists out, list_sort key l = Ok out /\ Permutation l out.
Proof.
  intros H. destruct (mapM_decorate l H) as (keys & Hk & Hs & _).
  unfold list_sort. rewrite Hk. simpl. eexists. split; [reflexivity|].
  rewrite <- Hs at 1. apply Permutation_map, stable_sort_perm.
Qed.

Lemma filter_decorated (k : spec_float) (d : list (spec_float * X)) :
  Forall (fun a => key (snd a) = Ok (fst a)) d ->
  filter (fun x => match key x with
                   | Ok f => SFeqb f k
                   | Raise _ => false
                   end) (map snd d) =
  map snd (filter (fun a => SFeqb (fst a) k) d).
Proof.
  induction 1 as [|a d Ha Hd IH]; [reflexivity|].
  simpl. rewrite Ha, IH. destruct (SFeqb (fst a) k); reflexivity.
Qed.

Lemma StronglySorted_on {Y : Type} (Q : Y -> Prop) (R1 R2 : Y -> Y -> Prop)
  (l : list Y) :
  (forall a b, Q a -> Q b -> R1 a b -> R2 a b) ->
  Forall Q l -> StronglySorted R1 l -> StronglySorted R2 l.
Proof.
  intros HR HQ Hs. induction Hs as [|a l Hs IH Hall]; constructor.
  - apply IH. now apply Forall_cons_iff in HQ.
  - apply Forall_cons_iff in HQ. destruct HQ as [Ha HQ].
    rewrite Forall_forall in *. auto.
Qed.

(** On keys that are numbers, the sort is ascending and stable. *)
Lemma list_sort_sorted (l : list X) :
  (forall x, In x l -> exists f, key x = Ok f /\ isnan f = false) ->
  exists out,
    list_sort key l = Ok out /\
    Permutation l out /\
    StronglySorted
      (fun x y => exists fx fy,
           key x = Ok fx /\ key y = Ok fy /\ SFleb fx fy = true) out /\
    forall k,
      filter (fun x => match key x with
                       | Ok f => SFeqb f k
                       | Raise _ => false
                       end) out =
      filter (fun x => match key x with
                       | Ok f => SFeqb f k
                       | Raise _ => false
                       end) l.
Proof.
  intros H.
  destruct (mapM_decorate l) as (keys & Hk & Hs & Hall).
  { intros x Hx. destruct (H x Hx) as (f & Hf & _). eauto. }
  set (ltb := fun a b : spec_float * X => SFltb (fst a) (fst b)).
  set (Q := fun a : spec_float * X =>
              key (snd a) = Ok (fst a) /\ isnan (fst a) = false).
  assert (HQ : Forall Q (combine keys l)).
  { rewrite Forall_forall in *. intros a Ha. split; [now apply Hall|].
    assert (Hin : In (snd a) l)
      by (rewrite <- Hs; now apply in_map).
    destruct (H _ Hin) as (f & Hf & Hn).
    rewrite (Hall a Ha) in Hf. injection Hf as ->. assumption. }
  unfold list_sort. rewrite Hk. simpl. fold ltb.
  eexists. split; [reflexivity|]. split; [|split].
  - rewrite <- Hs at 1. apply Permutation_map, stable_sort_perm.
  - apply StronglySorted_map.
    apply (StronglySorted_on Q (ordered ltb)).
    + intros a b [Ha Hna] [Hb Hnb] Hab.
      exists (fst a), (fst b). repeat split; auto.
      unfold ordered, ltb in Hab. rewrite SFleb_ltb by assumption.
      now rewrite Hab.
    + now apply (stable_sort_Forall ltb Q).
    + apply (stable_sort_sorted ltb Q); [| |exact HQ].
      * intros x y _ _. apply SFltb_asym.
      * intros x y z [_ Hx] [_ Hy] [_ Hz] H1 H2. unfold ltb in *.
        apply negb_true_iff. rewrite <- SFleb_ltb by assumption.
        apply SFleb_trans with (fst y); rewrite SFleb_ltb by assumption;
          now apply negb_true_iff.
  - intros k. rewrite <- Hs at 2.
    rewrite !filter_decorated.
    + f_equal. apply stable_sort_filter.
      intros a b Ha Hb. unfold ltb. eapply SFeqb_not_ltb; eauto.
    + exact Hall.
    + eapply Forall_impl; [|apply (stable_sort_Forall ltb Q), HQ].
      intros a Ha. apply Ha.
Qed.

End ListSort.

Section Writer.

Variable csv_reader : list string -> list (list string).
Variable float : string -> option spec_float.

Lemma postprocess_raises infile e :
  ranked_rows csv_reader float infile = Raise e ->
  postprocess_vina_results csv_reader float infile =
  {| outfile := None; raised := Some e |}.
Proof.
  unfold ranked_rows, postprocess_vina_results. intros ->. reflexivity.
Qed.

Lemma writerows_written fieldnames rows :
  (forall x, In x rows -> surplus x = None) ->
  writerows fieldnames rows = (map (written_fields fieldnames) rows, None).
Proof.
  induction rows as [|x rows IH]; intros H; [reflexivity|].
  simpl. unfold dict_to_list. rewrite (H x (or_introl eq_refl)).
  rewrite IH by (intros; apply H; now right). reflexivity.
Qed.

Lemma postprocess_written infile fieldnames out :
  ranked_rows csv_reader float infile = Ok out ->
  fst (DictReader csv_reader (filter has_comma infile)) = Some fieldnames ->
  (forall x, In x out -> surplus x = None) ->
  postprocess_vina_results csv_reader float infile =
  {| outfile := Some (fieldnames :: map (written_fields fieldnames) out);
     raised := None |}.
Proof.
  unfold ranked_rows, postprocess_vina_results. intros -> -> H.
  now rewrite writerows_written.
Qed.

End Writer.

(** C8, as the code has it.  On every input table whose key values all
    parse as floating-point numbers other than NaN, the rank sorter
    returns all the rows, in ascending order of the key, and rows with the
    same key keep the order they have in the input; the rows are written
    in that order below the header (when no row is longer than the
    header). *)
Theorem C8_sort_order_and_stability
  (csv_reader : list string -> list (list string))
  (float : string -> option spec_float) (infile : list string) :
  (forall x, In x (records csv_reader infile) ->
             exists f, sort_key float x = Ok f /\ isnan f = false) ->
  exists out,
    ranked_rows csv_reader float infile = Ok out /\
    Permutation (records csv_reader infile) out /\
    StronglySorted (key_le float) out /\
    (forall k, filter (has_key float k) out =
               filter (has_key float k) (records csv_reader infile)) /\
    (forall fieldnames,
        fst (DictReader csv_reader (filter has_comma infile))
        = Some fieldnames ->
        (forall x, In x (records csv_reader infile) -> surplus x = None) ->
        postprocess_vina_results csv_reader float infile =
        {| outfile := Some (fieldnames
                              :: map (written_fields fieldnames) out);
           raised := None |}).
Proof.
  intros H.
  destruct (list_sort_sorted (sort_key float) _ H)
    as (out & Hout & Hperm & Hsorted & Hstable).
  exists out. repeat split; auto.
  intros fieldnames Hf Hs. apply postprocess_written; auto.
  intros x Hx. apply Hs.
  eapply Permutation_in; [apply Permutation_sym, Hperm|exact Hx].
Qed.

Lemma C8_sort_order_and_stability_witness :
  exists out,
    ranked_rows Sample.simple_reader Sample.simple_float file_with_tie
    = Ok out /\
    Permutation (records Sample.simple_reader file_with_tie) out /\
    StronglySorted (key_le Sample.simple_float) out /\
    (forall k,
        filter (has_key Sample.simple_float k) out =
        filter (has_key Sample.simple_float k)
               (records Sample.simple_reader file_with_tie)) /\
    (forall fieldnames,
        fst (DictReader Sample.simple_reader
                        (filter has_comma file_with_tie))
        = Some fieldnames ->
        (forall x, In x (records Sample.simple_reader file_with_tie) ->
                   surplus x = None) ->
        postprocess_vina_results Sample.simple_reader Sample.simple_float
                                 file_with_tie =
        {| outfile := Some (fieldnames
                              :: map (written_fields fieldnames) out);
           raised := None |}).
Proof.
  apply (C8_sort_order_and_stability
           Sample.simple_reader Sample.simple_float file_with_tie).
  intros x Hx. in_cases Hx; eexists; split; reflexivity.
Defined.

Example ranked_file_with_tie :
  postprocess_vina_results Sample.simple_reader Sample.simple_float
                           file_with_tie =
  {| outfile := Some [["ligand"; "affinity_kcal/mol"];
                      ["b"; "-7"]; ["d"; "-7"]; ["c"; "1"]; ["a"; "3"]];
     raised := None |}.
Proof. reflexivity. Qed.

(** C8, as stated, fails: the keys [3], [nan], [1] all parse as floating
    point, and the rows come back in the order of the input, the key 3
    before the key 1. *)
Lemma C8_counterexample :
  mapM (sort_key Sample.simple_float)
       (records Sample.simple_reader file_with_nan) =
  Ok [of_Z 3; nan; of_Z 1] /\
  exists out,
    ranked_rows Sample.simple_reader Sample.simple_float file_with_nan
    = Ok out /\
    mapM (sort_key Sample.simple_float) out = Ok [of_Z 3; nan; of_Z 1] /\
    SFltb (of_Z 1) (of_Z 3) = true /\
    postprocess_vina_results Sample.simple_reader Sample.simple_float
                             file_with_nan =
    {| outfile := Some [["ligand"; "affinity_kcal/mol"];
                        ["a"; "3"]; ["b"; "nan"]; ["c"; "1"]];
       raised := None |}.
Proof.
  split; [reflexivity|]. eexists. repeat split; reflexivity.
Qed.

(** ** Records with a missing objective *)

Lemma emitted_skips_nan rows :
  forall m, emitted (filter has_objB rows) (Float m) = emitted rows (Float m).
Proof.
  induction rows as [|r rows IH]; intros m; [reflexivity|].
  simpl. unfold has_objB at 1. destruct (objB r) as [f|s] eqn:E; simpl.
  - destruct (isnan f) eqn:En; simpl.
    + destruct f; try discriminate. simpl. apply IH.
    + rewrite E. simpl. destruct (SFltb f m); [|apply IH].
      now rewrite IH.
  - rewrite E. reflexivity.
Qed.

Lemma pareto_skips_nan merged :
  pareto merged = pareto (filter has_objB merged).
Proof.
  rewrite !pareto_emitted. unfold sort_values.
  rewrite <- (stable_sort_filter_comm row_ltb (fun _ => True)).
  - now rewrite emitted_skips_nan.
  - intros x y _ _. apply row_ltb_asym.
  - intros x y z _ _ _. apply row_ltb_negtrans.
  - apply Forall_forall. auto.
Qed.

(** C6, as the code has it.  When the key of some record does not parse,
    the rank sorter raises before the output file is opened, so nothing
    is written; when all keys parse, all records are ranked.  The
    frontier computation raises [TypeError], and returns no frontier, when
    the second objective of some record is a string; a record whose second
    objective is missing (NaN) does not stop it: the result is the
    frontier of the table without these records. *)
Theorem C6_abort_policy
  (csv_reader : list string -> list (list string))
  (float : string -> option spec_float)
  (infile : list string) (merged : frame merged_row) :
  ((exists x e, In x (records csv_reader infile) /\
                sort_key float x = Raise e) ->
   exists e,
     ranked_rows csv_reader float infile = Raise e /\
     postprocess_vina_results csv_reader float infile =
     {| outfile := None; raised := Some e |}) /\
  ((forall x, In x (records csv_reader infile) ->
              exists f, sort_key float x = Ok f) ->
   exists out,
     ranked_rows csv_reader float infile = Ok out /\
     Permutation (records csv_reader infile) out) /\
  ((exists r s, In r merged /\ objB r = Str s) ->
   pareto merged = Raise TypeError) /\
  pareto merged = pareto (filter has_objB merged).
Proof.
  split; [|split; [|split]].
  - intros (x & e & Hx & He).
    destruct (list_sort_raises (sort_key float) _ x e Hx He) as [e' H].
    exists e'. split; [exact H|]. now apply postprocess_raises.
  - intros H. now apply list_sort_perm.
  - intros (r & s & Hr & Hs). eapply pareto_raises; eauto.
  - apply pareto_skips_nan.
Qed.

Lemma C6_abort_policy_witness :
  (exists e,
      ranked_rows Sample.simple_reader Sample.simple_float file_with_bad_key
      = Raise e /\
      postprocess_vina_results Sample.simple_reader Sample.simple_float
                               file_with_bad_key =
      {| outfile := None; raised := Some e |}) /\
  pareto [Sample.point 0 1 5; Sample.point_with 1 (Float (of_Z 2)) (Str "x")]
  = Raise TypeError.
Proof.
  split.
  - apply (proj1 (C6_abort_policy Sample.simple_reader Sample.simple_float
                                  file_with_bad_key [])).
    exists {| cols := [("ligand", Some "b");
                       ("affinity_kcal/mol", Some "n/a")];
              surplus := None |}, ValueError.
    split; [simpl; auto|reflexivity].
  - apply (proj1 (proj2 (proj2
             (C6_abort_policy Sample.simple_reader Sample.simple_float []
                [Sample.point 0 1 5;
                 Sample.point_with 1 (Float (of_Z 2)) (Str "x")])))).
    exists (Sample.point_with 1 (Float (of_Z 2)) (Str "x")), "x".
    split; [simpl; auto|reflexivity].
Defined.

(** C6, as stated, fails for the frontier: in a table where one record
    has no second objective (NaN) and another one no first objective, the
    computation does not stop; it returns a frontier that leaves the first
    of them out and contains the second. *)
Lemma C6_counterexample :
  (exists r, In r table_with_nan /\ isna (objB r) = true) /\
  (exists r, In r table_with_nan /\ isna (objA r) = true) /\
  pareto table_with_nan =
  Ok {| pareto_front := [(Float (of_Z 1), Float (of_Z 5));
                         (Float nan, Float (of_Z 3))];
        pareto_indices := [0; 2];
        min_y := Float (of_Z 3) |}.
Proof.
  split; [|split; [|reflexivity]].
  - exists (Sample.point_with 1 (Float (of_Z 2)) (Float nan)).
    split; [simpl; auto|reflexivity].
  - exists (Sample.point_with 2 (Float nan) (Float (of_Z 3))).
    split; [simpl; auto|reflexivity].
Qed.

(** * Further properties of the code *)

(** ** The frontier: what it covers and where it ends *)

Section FrontierCoverage.

Lemma stable_sort_sorted_id {A : Type} (ltb : A -> A -> bool) (l : list A) :
  StronglySorted (ordered ltb) l -> stable_sort ltb l = l.
Proof.
  induction 1 as [|x l Hs IH Hall]; [reflexivity|].
  simpl. rewrite IH. destruct Hall as [|y l Hy Hall]; [reflexivity|].
  simpl. unfold ordered in Hy. now rewrite Hy.
Qed.

Lemma sort_values_sorted_id (df : frame merged_row) :
  StronglySorted (fun r1 r2 => row_leb r1 r2 = true) df ->
  sort_values df = df.
Proof.
  intros H. apply stable_sort_sorted_id.
  eapply StronglySorted_impl; [|exact H].
  intros a b Hab. unfold ordered. unfold row_leb in Hab.
  now apply negb_true_iff in Hab.
Qed.

Lemma SFleb_refl x : isnan x = false -> SFleb x x = true.
Proof.
  intros Hx. rewrite SFleb_ltb by assumption. now rewrite SFltb_irrefl.
Qed.

Lemma SFltb_leb x y : SFltb x y = true -> SFleb x y = true.
Proof.
  unfold SFltb, SFleb. destruct (SFcompare x y) as [[]|]; congruence.
Qed.

Lemma SFltb_nan_l y : SFltb nan y = false.
Proof. reflexivity. Qed.

Lemma SFltb_inf_r x : SFltb x inf = false -> SFleb inf x = true \/ isnan x = true.
Proof.
  destruct x as [[]|[]| |[] m e]; simpl; intros H; try discriminate; auto.
Qed.

(** A record whose second objective is below the running minimum is
    weakly dominated by an emitted record that sorts no later. *)
Lemma emitted_covers rows :
  StronglySorted (fun r1 r2 => row_leb r1 r2 = true) rows ->
  forall m out r b,
    emitted rows (Float m) = Ok out ->
    In r rows -> objB r = Float b -> SFltb b m = true ->
    exists p pb,
      In p out /\ row_leb p r = true /\
      objB p = Float pb /\ SFleb pb b = true.
Proof.
  induction 1 as [|x rest Hs IH Hall]; intros m out r b H Hr Hb Hlt;
    [destruct Hr|].
  simpl in H. destruct (objB x) as [xb|s] eqn:Ex; simpl in H;
    [|discriminate].
  destruct Hr as [<-|Hr].
  - rewrite Ex in Hb. injection Hb as ->. rewrite Hlt in H.
    destruct (emitted rest (Float b)) as [out'|e]; simpl in H;
      [|discriminate].
    injection H as <-. exists x, b. repeat split; auto.
    + now left.
    + destruct (row_leb_total x x); assumption.
    + apply SFleb_refl. eauto with floats.
  - destruct (SFltb xb m) eqn:Exm.
    + destruct (emitted rest (Float xb)) as [out'|e] eqn:E'; simpl in H;
        [|discriminate].
      injection H as <-. destruct (SFltb b xb) eqn:Ebx.
      * destruct (IH _ _ _ _ E' Hr Hb Ebx) as (p & pb & Hp & Hle & Hpb & Hb').
        exists p, pb. repeat split; auto. now right.
      * exists x, xb. repeat split; auto.
        -- now left.
        -- rewrite Forall_forall in Hall. now apply Hall.
        -- rewrite SFleb_ltb by eauto with floats. now rewrite Ebx.
    + destruct (IH _ _ _ _ H Hr Hb Hlt) as (p & pb & Hp & Hle & Hpb & Hb').
      exists p, pb. repeat split; auto.
Qed.

(** The running minimum only goes down, and it ends below every number
    of the second column. *)
Lemma emitted_final_le rows :
  forall m out,
    emitted rows (Float m) = Ok out -> isnan m = false ->
    exists mf,
      last (map objB out) (Float m) = Float mf /\
      isnan mf = false /\ SFleb mf m = true.
Proof.
  induction rows as [|x rest IH]; intros m out H Hm; simpl in H.
  - injection H as <-. exists m. repeat split; auto using SFleb_refl.
  - destruct (objB x) as [xb|s] eqn:Ex; simpl in H; [|discriminate].
    destruct (SFltb xb m) eqn:Exm.
    + destruct (emitted rest (Float xb)) as [out'|e] eqn:E'; simpl in H;
        [|discriminate].
      injection H as <-. simpl map. rewrite last_cons, Ex.
      destruct (IH _ _ E') as (mf & Hl & Hn & Hle); [eauto with floats|].
      exists mf. repeat split; auto.
      eapply SFleb_trans; [exact Hle|]. now apply SFltb_leb.
    + now apply IH.
Qed.

Lemma emitted_final_min rows :
  forall m out r b,
    emitted rows (Float m) = Ok out -> isnan m = false ->
    In r rows -> objB r = Float b -> isnan b = false ->
    exists mf,
      last (map objB out) (Float m) = Float mf /\ SFleb mf b = true.
Proof.
  induction rows as [|x rest IH]; intros m out r b H Hm Hr Hb Hn;
    [destruct Hr|].
  simpl in H. destruct (objB x) as [xb|s] eqn:Ex; simpl in H;
    [|discriminate].
  destruct (SFltb xb m) eqn:Exm.
  - destruct (emitted rest (Float xb)) as [out'|e] eqn:E'; simpl in H;
      [|discriminate].
    injection H as <-. simpl map. rewrite last_cons, Ex.
    destruct Hr as [<-|Hr].
    + rewrite Ex in Hb. injection Hb as ->.
      destruct (emitted_final_le _ _ _ E' Hn) as (mf & Hl & _ & Hle).
      eauto.
    + eapply IH; eauto with floats.
  - destruct Hr as [<-|Hr]; [|eapply IH; eauto].
    rewrite Ex in Hb. injection Hb as ->.
    destruct (emitted_final_le _ _ _ H Hm) as (mf & Hl & _ & Hle).
    exists mf. split; [assumption|].
    eapply SFleb_trans; [exact Hle|].
    rewrite SFleb_ltb by assumption. now rewrite Exm.
Qed.

Lemma emitted_nil_iff rows m :
  emitted rows (Float m) = Ok [] <->
  forall r, In r rows -> exists b, objB r = Float b /\ SFltb b m = false.
Proof.
  induction rows as [|x rest IH]; simpl.
  - split; [intros _ r []|reflexivity].
  - destruct (objB x) as [xb|s] eqn:Ex; simpl.
    + destruct (SFltb xb m) eqn:Exm.
      * split.
        -- destruct (emitted rest (Float xb)); simpl; discriminate.
        -- intros H. destruct (H x (or_introl eq_refl)) as (b & Hb & Hlt).
           rewrite Ex in Hb. injection Hb as <-. congruence.
      * rewrite IH. split.
        -- intros H r [<-|Hr]; eauto.
        -- intros H r Hr. apply H. now right.
    + split; [discriminate|].
      intros H. destruct (H x (or_introl eq_refl)) as (b & Hb & _).
      congruence.
Qed.

Lemma emitted_fixed rows :
  forall m out, emitted rows m = Ok out -> emitted out m = Ok out.
Proof.
  induction rows as [|x rest IH]; intros m out H; simpl in H.
  - now injection H as <-.
  - destruct (Py.lt (objB x) m) as [[|]|e] eqn:E; simpl in H;
      try discriminate.
    + destruct (emitted rest (objB x)) as [out'|e] eqn:E'; simpl in H;
        [|discriminate].
      injection H as <-. simpl. rewrite E. simpl.
      now rewrite (IH _ _ E').
    + now apply IH.
Qed.

End FrontierCoverage.

Section FrontierResults.

Lemma pareto_inv merged st :
  pareto merged = Ok st ->
  exists out,
    emitted (sort_values merged) (Float inf) = Ok out /\
    st = {| pareto_front := map point_of out;
            pareto_indices := map fst out;
            min_y := last (map objB out) (Float inf) |}.
Proof.
  rewrite pareto_emitted.
  destruct (emitted (sort_values merged) (Float inf)) as [out|e];
    simpl; intros H; [|discriminate].
  injection H as <-. eauto.
Qed.

Lemma map_snd_point_of out : map snd (map point_of out) = map objB out.
Proof. rewrite map_map. reflexivity. Qed.

Lemma reset_index_labels {R : Type} (rows : list R) :
  map fst (reset_index rows) = seq 0 (List.length rows).
Proof.
  unfold reset_index. generalize 0.
  induction rows as [|r rows IH]; intros n; [reflexivity|].
  simpl. now rewrite IH.
Qed.

Lemma merge_tables_unique_labels sa_df vina_df :
  unique_labels (merge_tables sa_df vina_df).
Proof.
  unfold unique_labels, merge_tables, pd_merge.
  rewrite reset_index_labels. apply seq_NoDup.
Qed.

Lemma filter_none {X : Type} (p : X -> bool) (l : list X) :
  (forall x, In x l -> p x = false) -> filter p l = [].
Proof.
  induction l as [|x l IH]; intros H; [reflexivity|].
  simpl. rewrite (H x (or_introl eq_refl)).
  apply IH. intros; apply H; now right.
Qed.

Lemma filter_label {R : Type} (df : frame R) (r : nat * R) :
  unique_labels df -> In r df ->
  filter (fun x => Nat.eqb (fst x) (fst r)) df = [r].
Proof.
  unfold unique_labels. induction df as [|x df IH]; intros Hnd Hin;
    [destruct Hin|].
  simpl in Hnd. apply NoDup_cons_iff in Hnd. destruct Hnd as [Hx Hnd].
  simpl. destruct Hin as [->|Hin].
  - rewrite Nat.eqb_refl. f_equal. apply filter_none.
    intros y Hy. apply Nat.eqb_neq. intros E. apply Hx.
    rewrite <- E. now apply in_map.
  - destruct (Nat.eqb (fst x) (fst r)) eqn:E.
    + apply Nat.eqb_eq in E. exfalso. apply Hx. rewrite E.
      now apply in_map.
    + now apply IH.
Qed.

Lemma loc_labels {R : Type} (df : frame R) (rows : frame R) :
  unique_labels df -> (forall r, In r rows -> In r df) ->
  loc df (map fst rows) = rows.
Proof.
  intros Hnd. induction rows as [|r rows IH]; intros H; [reflexivity|].
  unfold loc in *. simpl.
  rewrite (filter_label df r Hnd) by (apply H; now left).
  simpl. f_equal. apply IH. intros; apply H; now right.
Qed.

Lemma emitted_In rows m out p :
  emitted rows m = Ok out -> In p out -> In p rows.
Proof. intros H Hp. eapply emitted_below; eauto. Qed.

Lemma emitted_sublist_NoDup rows :
  forall m out,
    emitted rows m = Ok out ->
    NoDup (map fst rows) -> NoDup (map fst out).
Proof.
  induction rows as [|x rest IH]; intros m out H Hnd; simpl in H.
  - injection H as <-. constructor.
  - simpl in Hnd. apply NoDup_cons_iff in Hnd. destruct Hnd as [Hx Hnd].
    destruct (Py.lt (objB x) m) as [[|]|e]; simpl in H; try discriminate.
    + destruct (emitted rest (objB x)) as [out'|e] eqn:E'; simpl in H;
        [|discriminate].
      injection H as <-. simpl. constructor; [|eapply IH; eauto].
      intros Hin. apply Hx. apply in_map_iff in Hin.
      destruct Hin as (p & Hp & Hin). rewrite <- Hp.
      apply in_map. eapply emitted_In; eauto.
    + eapply IH; eauto.
Qed.

Lemma sort_values_unique_labels df :
  unique_labels df -> unique_labels (sort_values df).
Proof.
  unfold unique_labels. intros H.
  eapply Permutation_NoDup; [|exact H].
  apply Permutation_map, stable_sort_perm.
Qed.

Lemma py_lt_strongly_decreasing out :
  Sorted (fun p q => Py.lt (objB q) (objB p) = Ok true) out ->
  StronglySorted (fun p q => Py.lt (objB q) (objB p) = Ok true) out.
Proof.
  apply Sorted_StronglySorted.
  intros p q r Hpq Hqr. eapply py_lt_trans; eauto.
Qed.

Lemma StronglySorted_and {X : Type} (R1 R2 : X -> X -> Prop) l :
  StronglySorted R1 l -> StronglySorted R2 l ->
  StronglySorted (fun a b => R1 a b /\ R2 a b) l.
Proof.
  induction 1 as [|a l Hs IH Hall]; intros H2; constructor.
  - apply IH. now apply StronglySorted_inv in H2.
  - apply StronglySorted_inv in H2. destruct H2 as [_ Hall2].
    rewrite Forall_forall in *. auto.
Qed.

End FrontierResults.

(** X1.  Every record whose second objective is below [+inf] is weakly
    dominated by a frontier point: some emitted point has a first
    objective that sorts no later and a second objective [<=] its own. *)
Theorem frontier_covers merged st r b :
  pareto merged = Ok st ->
  In r merged -> objB r = Float b -> SFltb b inf = true ->
  exists p,
    In p (pareto_front st) /\
    cell_leb (fst p) (objA r) = true /\
    Py.le (snd p) (objB r) = Ok true.
Proof.
  intros H Hr Hb Hlt. destruct (pareto_inv _ _ H) as (out & Hout & ->).
  apply sort_values_In in Hr.
  destruct (emitted_covers _ (sort_values_sorted merged) _ _ _ _
              Hout Hr Hb Hlt) as (p & pb & Hp & Hle & Hpb & Hb').
  exists (point_of p). simpl. split; [now apply in_map|].
  apply row_leb_spec in Hle. split; [apply Hle|].
  rewrite Hpb, Hb. simpl. now rewrite Hb'.
Qed.

Lemma frontier_covers_witness :
  exists p,
    In p [(Float (of_Z 1), Float (of_Z 5));
          (Float (of_Z 2), Float (of_Z 3));
          (Float (of_Z 4), Float (of_Z 1))] /\
    cell_leb (fst p) (Float (of_Z 2)) = true /\
    Py.le (snd p) (Float (of_Z 8)) = Ok true.
Proof.
  apply (frontier_covers scenario
           {| pareto_front := [(Float (of_Z 1), Float (of_Z 5));
                               (Float (of_Z 2), Float (of_Z 3));
                               (Float (of_Z 4), Float (of_Z 1))];
              pareto_indices := [0; 1; 3];
              min_y := Float (of_Z 1) |}
           (Sample.point 2 2 8) (of_Z 8));
    [reflexivity|simpl; auto|reflexivity|reflexivity].
Defined.

(** X2.  When the scan returns, [min_y] is the second objective of the
    last frontier point ([+inf] when there is none), it is a number, and
    no number of the second column is below it. *)
Theorem frontier_ends_at_minimum merged st :
  pareto merged = Ok st ->
  min_y st = last (map snd (pareto_front st)) (Float inf) /\
  exists m,
    min_y st = Float m /\ isnan m = false /\
    forall r b,
      In r merged -> objB r = Float b -> isnan b = false ->
      SFleb m b = true.
Proof.
  intros H. destruct (pareto_inv _ _ H) as (out & Hout & ->). simpl.
  split; [now rewrite map_snd_point_of|].
  destruct (emitted_final_le _ _ _ Hout eq_refl) as (m & Hm & Hn & _).
  exists m. repeat split; auto.
  intros r b Hr Hb Hnb. apply sort_values_In in Hr.
  destruct (emitted_final_min _ _ _ _ _ Hout eq_refl Hr Hb Hnb)
    as (m' & Hm' & Hle).
  congruence.
Qed.

Lemma frontier_ends_at_minimum_witness :
  min_y
    {| pareto_front := [(Float (of_Z 1), Float (of_Z 5));
                        (Float nan, Float (of_Z 3))];
       pareto_indices := [0; 2];
       min_y := Float (of_Z 3) |} =
  last (map snd [(Float (of_Z 1), Float (of_Z 5));
                 (Float nan, Float (of_Z 3))]) (Float inf) /\
  exists m,
    Float (of_Z 3) = Float m /\ isnan m = false /\
    forall r b,
      In r table_with_nan -> objB r = Float b -> isnan b = false ->
      SFleb m b = true.
Proof.
  apply (frontier_ends_at_minimum table_with_nan). reflexivity.
Defined.

(** X3.  The scan of lines 149-157 ends as it started (no point, no
    label, [min_y] at [+inf]) exactly when every affinity of the table is
    a float that is not below [+inf], that is NaN or [+inf]; line 158
    then takes the [else] branch and nothing is saved. *)
Theorem no_frontier_iff merged :
  pareto merged = Ok scan_init <->
  forall r, In r merged -> exists b, objB r = Float b /\ SFltb b inf = false.
Proof.
  rewrite pareto_emitted. split.
  - intros H r Hr. apply sort_values_In in Hr. revert r Hr.
    apply emitted_nil_iff.
    destruct (emitted (sort_values merged) (Float inf))
      as [[|p out]|e]; simpl in H; try discriminate; reflexivity.
  - intros H.
    assert (E : emitted (sort_values merged) (Float inf) = Ok []).
    { apply emitted_nil_iff. intros r Hr. apply H.
      now apply sort_values_In. }
    rewrite E. reflexivity.
Qed.

Lemma no_frontier_iff_witness :
  pareto [Sample.point_with 0 (Float (of_Z 2)) (Float inf);
          Sample.point_with 1 (Float (of_Z 1)) (Float inf)]
  = Ok scan_init.
Proof.
  apply no_frontier_iff.
  intros r Hr. in_cases Hr; exists inf; split; reflexivity.
Defined.

(** X4.  No two frontier points share a first objective: from any
    frontier point to any later one the first objective strictly
    increases in the order of [sort_values] and the second strictly
    decreases. *)
Theorem frontier_strict merged st :
  pareto merged = Ok st -> StronglySorted strict_step (pareto_front st).
Proof.
  intros H. destruct (pareto_inv _ _ H) as (out & Hout & ->). simpl.
  apply StronglySorted_map.
  pose proof (emitted_sorted _ _ _ _ Hout (sort_values_sorted merged))
    as Hasc.
  pose proof (py_lt_strongly_decreasing _ (emitted_decreasing _ _ _ Hout))
    as Hdec.
  eapply StronglySorted_impl; [|exact (StronglySorted_and _ _ _ Hasc Hdec)].
  intros p q [Hle Hlt]. split; [|exact Hlt]. simpl.
  apply row_leb_spec in Hle. destruct Hle as [_ Hle].
  apply py_lt_cell_ltb in Hlt. unfold cell_ltb in *.
  destruct (cell_leb (objA q) (objA p)); [|reflexivity].
  rewrite Hle in Hlt by reflexivity. discriminate.
Qed.

Lemma frontier_strict_witness :
  StronglySorted strict_step
    [(Float (of_Z 1), Float (of_Z 5));
     (Float (of_Z 2), Float (of_Z 3));
     (Float (of_Z 4), Float (of_Z 1))].
Proof.
  apply (frontier_strict scenario
           {| pareto_front := [(Float (of_Z 1), Float (of_Z 5));
                               (Float (of_Z 2), Float (of_Z 3));
                               (Float (of_Z 4), Float (of_Z 1))];
              pareto_indices := [0; 1; 3];
              min_y := Float (of_Z 1) |}).
  reflexivity.
Defined.

(** X5.  When [plot_sa_vs_affinity] plots a frontier, the rows it saves
    to the Pareto file are rows of the merged table with pairwise
    distinct labels, one per plotted point and in the plotted order, and
    their two objectives are the plotted points. *)
Theorem saved_rows_are_the_frontier sa_df vina_df o line :
  plot_sa_vs_affinity sa_df vina_df = Ok o ->
  frontier_line o = Some line ->
  exists csv,
    pareto_csv o = Some csv /\
    map point_of csv = line /\
    line <> [] /\
    NoDup (map fst csv) /\
    forall r, In r csv -> In r (merge_tables sa_df vina_df).
Proof.
  unfold plot_sa_vs_affinity. intros H Hline.
  pose proof (merge_tables_unique_labels sa_df vina_df) as Hnd.
  destruct (merge_tables sa_df vina_df) as [|r0 merged] eqn:Em.
  { injection H as <-. discriminate. }
  destruct (pareto (r0 :: merged)) as [st|e] eqn:Est; simpl in H;
    [|discriminate].
  destruct (pareto_inv _ _ Est) as (out & Hout & ->). simpl in H.
  assert (Hin : forall r, In r out -> In r (r0 :: merged)).
  { intros r Hr. apply sort_values_In. eapply emitted_In; eauto. }
  assert (Hout' : NoDup (map fst out)).
  { eapply emitted_sublist_NoDup; [exact Hout|].
    now apply sort_values_unique_labels. }
  rewrite (loc_labels _ out Hnd Hin) in H.
  destruct (map point_of out) as [|p front] eqn:Ef.
  { injection H as <-. discriminate. }
  injection H as <-. simpl in Hline. injection Hline as <-.
  exists out. repeat split; auto; discriminate.
Qed.

Lemma saved_rows_are_the_frontier_witness :
  exists csv,
    Some [(0, ({| SA.filename := "7.sdf"; SA.SA_score := Float (of_Z 2) |},
               {| Vina.ligand := "7.sdf";
                  Vina.affinity := Float (of_Z 1) |}))] = Some csv /\
    map point_of csv = [(Float (of_Z 2), Float (of_Z 1))] /\
    [(Float (of_Z 2), Float (of_Z 1))] <> [] /\
    NoDup (map fst csv) /\
    forall r,
      In r csv ->
      In r (merge_tables
              [{| SA.filename := "7.sdf"; SA.SA_score := Float (of_Z 2) |}]
              [{| Vina.ligand := "7"; Vina.affinity := Float (of_Z 1) |}]).
Proof.
  apply (saved_rows_are_the_frontier
           [{| SA.filename := "7.sdf"; SA.SA_score := Float (of_Z 2) |}]
           [{| Vina.ligand := "7"; Vina.affinity := Float (of_Z 1) |}]
           {| printed := [];
              frontier_line := Some [(Float (of_Z 2), Float (of_Z 1))];
              pareto_csv :=
                Some [(0, ({| SA.filename := "7.sdf";
                              SA.SA_score := Float (of_Z 2) |},
                           {| Vina.ligand := "7.sdf";
                              Vina.affinity := Float (of_Z 1) |}))] |});
    reflexivity.
Defined.

(** X6.  The saved table is its own frontier: on a table with distinct
    labels, running the scan on the rows [merged.loc[pareto_indices]]
    returns the same points, labels and minimum. *)
Theorem frontier_of_frontier merged st :
  unique_labels merged ->
  pareto merged = Ok st ->
  pareto (loc merged (pareto_indices st)) = Ok st.
Proof.
  intros Hnd H. destruct (pareto_inv _ _ H) as (out & Hout & ->). simpl.
  rewrite loc_labels; auto.
  - rewrite pareto_emitted.
    rewrite sort_values_sorted_id
      by (eapply emitted_sorted; eauto using sort_values_sorted).
    rewrite (emitted_fixed _ _ _ Hout). reflexivity.
  - intros r Hr. apply sort_values_In. eapply emitted_In; eauto.
Qed.

Lemma frontier_of_frontier_witness :
  pareto (loc scenario [0; 1; 3]) =
  Ok {| pareto_front := [(Float (of_Z 1), Float (of_Z 5));
                         (Float (of_Z 2), Float (of_Z 3));
                         (Float (of_Z 4), Float (of_Z 1))];
        pareto_indices := [0; 1; 3];
        min_y := Float (of_Z 1) |}.
Proof.
  apply (frontier_of_frontier scenario
           {| pareto_front := [(Float (of_Z 1), Float (of_Z 5));
                               (Float (of_Z 2), Float (of_Z 3));
                               (Float (of_Z 4), Float (of_Z 1))];
              pareto_indices := [0; 1; 3];
              min_y := Float (of_Z 1) |}).
  - unfold unique_labels. simpl.
    repeat constructor; simpl; intuition discriminate.
  - reflexivity.
Defined.

(** ** The join: identifiers that cannot match, and duplication *)

Section JoinFacts.

Lemma isdigit_normalized x : isdigit (normalize_ligand x) = false.
Proof.
  unfold normalize_ligand. destruct (isdigit x) eqn:E; [|exact E].
  apply isdigit_suffixed.
Qed.

Lemma filter_key_unique {X : Type} (f : X -> string) (k : string) l :
  NoDup (map f l) ->
  List.length (filter (fun r => String.eqb k (f r)) l) <= 1.
Proof.
  induction l as [|x l IH]; intros Hnd; simpl; [lia|].
  simpl in Hnd. apply NoDup_cons_iff in Hnd. destruct Hnd as [Hx Hnd].
  destruct (String.eqb k (f x)) eqn:E; [|now apply IH].
  apply String.eqb_eq in E. subst k. simpl.
  rewrite filter_none; [simpl; lia|].
  intros y Hy. apply String.eqb_neq. intros Heq. apply Hx.
  rewrite Heq. now apply in_map.
Qed.

Lemma join_rows_length_le left right :
  NoDup (map Vina.ligand right) ->
  List.length (join_rows left right) <= List.length left.
Proof.
  intros Hnd. unfold join_rows.
  induction left as [|l left IH]; simpl; [lia|].
  rewrite length_app, length_map.
  exact (Nat.add_le_mono _ 1 _ _
           (filter_key_unique Vina.ligand (SA.filename l) right Hnd) IH).
Qed.

Lemma reset_index_length {R : Type} (rows : list R) :
  List.length (reset_index rows) = List.length rows.
Proof.
  rewrite <- (length_map snd). now rewrite reset_index_snd.
Qed.

End JoinFacts.

(** X7.  A row of the first table whose filename is a bare number never
    reaches the merge: only the identifiers of the second table get the
    [.sdf] suffix, so the filename of every merged row contains a
    character that is not a digit. *)
Theorem numeric_filename_never_merges sa_df vina_df i l r :
  In (i, (l, r)) (merge_tables sa_df vina_df) ->
  isdigit (SA.filename l) = false.
Proof.
  unfold merge_tables, pd_merge. intros H.
  assert (H' : In (l, r) (join_rows sa_df (normalize_column vina_df)))
    by (apply reset_index_In; eauto).
  apply join_rows_In in H'. destruct H' as (_ & Hr & He).
  apply in_map_iff in Hr. destruct Hr as (v & <- & _).
  rewrite He. apply isdigit_normalized.
Qed.

Lemma numeric_filename_never_merges_witness :
  isdigit "7.sdf" = false /\
  merge_tables [{| SA.filename := "7"; SA.SA_score := Float (of_Z 2) |}]
               [{| Vina.ligand := "7"; Vina.affinity := Float (of_Z 1) |}]
  = [].
Proof.
  split; [|reflexivity].
  apply (numeric_filename_never_merges
           [{| SA.filename := "7.sdf"; SA.SA_score := Float (of_Z 2) |}]
           [{| Vina.ligand := "7"; Vina.affinity := Float (of_Z 1) |}]
           0
           {| SA.filename := "7.sdf"; SA.SA_score := Float (of_Z 2) |}
           {| Vina.ligand := "7.sdf"; Vina.affinity := Float (of_Z 1) |}).
  simpl. auto.
Defined.

(** X8.  When the identifiers of the second table are pairwise distinct
    after normalization, the merge has at most one row per row of the
    first table.  (Distinct raw identifiers are not enough: [7] and
    [7.sdf] normalize to the same key.) *)
Theorem unique_ligands_no_duplication sa_df vina_df :
  NoDup (map normalized_key vina_df) ->
  List.length (merge_tables sa_df vina_df) <= List.length sa_df.
Proof.
  intros Hnd. unfold merge_tables, pd_merge.
  rewrite reset_index_length. apply join_rows_length_le.
  unfold normalize_column. rewrite map_map. exact Hnd.
Qed.

Lemma unique_ligands_no_duplication_witness :
  List.length
    (merge_tables
       [{| SA.filename := "7.sdf"; SA.SA_score := Float (of_Z 2) |};
        {| SA.filename := "8.sdf"; SA.SA_score := Float (of_Z 3) |}]
       [{| Vina.ligand := "7"; Vina.affinity := Float (of_Z 1) |};
        {| Vina.ligand := "9.sdf"; Vina.affinity := Float (of_Z 4) |}])
  <= 2.
Proof.
  apply (unique_ligands_no_duplication
           [{| SA.filename := "7.sdf"; SA.SA_score := Float (of_Z 2) |};
            {| SA.filename := "8.sdf"; SA.SA_score := Float (of_Z 3) |}]).
  simpl. repeat constructor; simpl; intuition discriminate.
Defined.

(** ** Rows of [csv.DictReader]: lookup by column name *)

Section DictRows.

Lemma dict_get_set_same k v d : dict_get k (dict_set k v d) = Some v.
Proof.
  unfold dict_get. induction d as [|[k' v'] d IH]; simpl.
  - now rewrite String.eqb_refl.
  - destruct (String.eqb k k') eqn:E; simpl.
    + now rewrite String.eqb_refl.
    + rewrite E. exact IH.
Qed.

Lemma dict_get_set_other k k' v d :
  k <> k' -> dict_get k (dict_set k' v d) = dict_get k d.
Proof.
  intros Hne. apply String.eqb_neq in Hne.
  unfold dict_get. induction d as [|[k1 v1] d IH]; simpl.
  - now rewrite Hne.
  - destruct (String.eqb k' k1) eqn:E; simpl.
    + apply String.eqb_eq in E. subst k1. now rewrite Hne.
    + destruct (String.eqb k k1); [reflexivity|exact IH].
Qed.

Lemma zip_get_notin k kvs d :
  ~ In k (map fst kvs) ->
  dict_get k (fold_left set_field kvs d) = dict_get k d.
Proof.
  revert d. induction kvs as [|[k1 v1] kvs IH]; intros d H; [reflexivity|].
  simpl in *. rewrite IH by tauto.
  apply dict_get_set_other. intros E. apply H. now left.
Qed.

Lemma zip_get_in k v kvs d :
  NoDup (map fst kvs) -> In (k, v) kvs ->
  dict_get k (fold_left set_field kvs d) = Some (Some v).
Proof.
  revert d. induction kvs as [|[k1 v1] kvs IH]; intros d Hnd Hin;
    [destruct Hin|].
  simpl in Hnd. apply NoDup_cons_iff in Hnd. destruct Hnd as [Hk Hnd].
  simpl. destruct Hin as [E|Hin].
  - injection E as -> ->. rewrite zip_get_notin by assumption.
    apply dict_get_set_same.
  - now apply IH.
Qed.

Lemma missing_get_notin k ks d :
  ~ In k ks -> dict_get k (fold_left set_missing ks d) = dict_get k d.
Proof.
  revert d. induction ks as [|k1 ks IH]; intros d H; [reflexivity|].
  simpl in *. rewrite IH by tauto.
  apply dict_get_set_other. intros E. apply H. now left.
Qed.

Lemma missing_get_in k ks d :
  In k ks -> dict_get k (fold_left set_missing ks d) = Some None.
Proof.
  revert d. induction ks as [|k1 ks IH]; intros d H; [destruct H|].
  simpl. destruct (in_dec string_dec k ks) as [Hin|Hnin].
  - now apply IH.
  - destruct H as [->|H]; [|contradiction].
    rewrite missing_get_notin by assumption. apply dict_get_set_same.
Qed.

Lemma combine_keys_NoDup (names fields : list string) :
  NoDup names -> NoDup (map fst (combine names fields)).
Proof.
  revert fields. induction names as [|n names IH]; intros fields Hnd;
    [constructor|].
  destruct fields as [|f fields]; [constructor|].
  apply NoDup_cons_iff in Hnd. destruct Hnd as [Hn Hnd].
  simpl. constructor; [|now apply IH].
  intros Hin. apply Hn. apply in_map_iff in Hin.
  destruct Hin as ([a b] & <- & Hab). simpl.
  eapply in_combine_l; eauto.
Qed.

Lemma combine_nth_error (names fields : list string) i k s :
  nth_error names i = Some k -> nth_error fields i = Some s ->
  In (k, s) (combine names fields).
Proof.
  revert names fields. induction i as [|i IH]; intros [|n names] [|f fields];
    simpl; intros Hk Hs; try discriminate.
  - injection Hk as ->. injection Hs as ->. now left.
  - right. now apply IH.
Qed.

Lemma combine_keys_bound (names fields : list string) k :
  In k (map fst (combine names fields)) ->
  exists j, j < List.length fields /\ nth_error names j = Some k.
Proof.
  revert fields. induction names as [|n names IH]; intros [|f fields];
    simpl; intros H; try contradiction.
  destruct H as [<-|H].
  - exists 0. split; [lia|reflexivity].
  - destruct (IH _ H) as (j & Hj & Hn). exists (S j). split; [lia|exact Hn].
Qed.

Lemma skipn_In_nth_error {X : Type} (l : list X) n x :
  In x (skipn n l) <-> exists j, n <= j /\ nth_error l j = Some x.
Proof.
  split.
  - intros H. apply In_nth_error in H. destruct H as [j Hj].
    rewrite nth_error_skipn in Hj. exists (n + j). split; [lia|exact Hj].
  - intros (j & Hj & Hx). apply (nth_error_In _ (j - n)).
    rewrite nth_error_skipn. now replace (n + (j - n)) with j by lia.
Qed.

(** The value a row holds for the column at position [i] of a header
    without repeated names: the field at position [i] of the line, or
    [None] (the [restval]) when the line is too short. *)
Lemma make_row_get (fieldnames fields : list string) i k :
  NoDup fieldnames -> nth_error fieldnames i = Some k ->
  dict_get k (cols (make_row fieldnames fields)) = Some (nth_error fields i).
Proof.
  intros Hnd Hk. unfold make_row.
  fold set_field. fold set_missing.
  assert (Hi : i < List.length fieldnames)
    by (apply nth_error_Some; congruence).
  destruct (nth_error fields i) as [s|] eqn:Es.
  - assert (Hlt : i < List.length fields)
      by (apply nth_error_Some; congruence).
    assert (Hz : dict_get k (fold_left set_field
                               (combine fieldnames fields) [])
                 = Some (Some s)).
    { apply zip_get_in; auto using combine_keys_NoDup.
      eapply combine_nth_error; eauto. }
    destruct (List.length fieldnames <? List.length fields)%nat;
      simpl; [exact Hz|].
    rewrite missing_get_notin; [exact Hz|].
    intros Hin. apply skipn_In_nth_error in Hin.
    destruct Hin as (j & Hj & Hn).
    assert (i = j); [|lia].
    apply (proj1 (NoDup_nth_error fieldnames) Hnd); [assumption|congruence].
  - apply nth_error_None in Es.
    destruct (List.length fieldnames <? List.length fields)%nat eqn:E.
    + apply Nat.ltb_lt in E. lia.
    + simpl. apply missing_get_in. apply skipn_In_nth_error.
      exists i. split; [lia|exact Hk].
Qed.

Lemma make_row_get_absent (fieldnames fields : list string) k :
  ~ In k fieldnames ->
  dict_get k (cols (make_row fieldnames fields)) = None.
Proof.
  intros Hk. unfold make_row. fold set_field. fold set_missing.
  assert (Hz : dict_get k (fold_left set_field
                             (combine fieldnames fields) []) = None).
  { rewrite zip_get_notin; [reflexivity|].
    intros Hin. apply combine_keys_bound in Hin.
    destruct Hin as (j & _ & Hj). apply Hk. eapply nth_error_In; eauto. }
  destruct (List.length fieldnames <? List.length fields)%nat;
    simpl; [exact Hz|].
  rewrite missing_get_notin; [exact Hz|].
  intros Hin. apply Hk. apply skipn_In_nth_error in Hin.
  destruct Hin as (j & _ & Hj). eapply nth_error_In; eauto.
Qed.

Lemma make_row_surplus (fieldnames fields : list string) :
  surplus (make_row fieldnames fields) = None <->
  List.length fields <= List.length fieldnames.
Proof.
  unfold make_row.
  destruct (List.length fieldnames <? List.length fields)%nat eqn:E; simpl.
  - apply Nat.ltb_lt in E. split; [discriminate|lia].
  - apply Nat.ltb_ge in E. tauto.
Qed.

End DictRows.

(** ** The rank sorter: failures, degenerate inputs and round trips *)

Section RankSorterFacts.

Variable csv_reader : list string -> list (list string).
Variable float : string -> option spec_float.

Lemma mapM_first_raise {X Y : Type} (key : X -> result Y) pre x post e :
  (forall y, In y pre -> exists f, key y = Ok f) ->
  key x = Raise e ->
  mapM key (pre ++ x :: post) = Raise e.
Proof.
  induction pre as [|y pre IH]; intros Hpre Hx; simpl.
  - now rewrite Hx.
  - destruct (Hpre y (or_introl eq_refl)) as [f ->]. simpl.
    rewrite IH; auto. intros; apply Hpre; now right.
Qed.

Lemma writerows_stops fieldnames pre x post s :
  (forall y, In y pre -> surplus y = None) ->
  surplus x = Some s ->
  writerows fieldnames (pre ++ x :: post) =
  (map (written_fields fieldnames) pre, Some ValueError).
Proof.
  induction pre as [|y pre IH]; intros Hpre Hx; simpl.
  - unfold dict_to_list. now rewrite Hx.
  - unfold dict_to_list at 1. rewrite (Hpre y (or_introl eq_refl)).
    rewrite IH; auto. intros; apply Hpre; now right.
Qed.

Lemma written_make_row (fieldnames fields : list string) :
  NoDup fieldnames ->
  List.length fields <= List.length fieldnames ->
  written_fields fieldnames (make_row fieldnames fields) =
  fields ++ repeat "" (List.length fieldnames - List.length fields).
Proof.
  intros Hnd Hlen. apply nth_error_ext. intros j.
  unfold written_fields. rewrite nth_error_map.
  destruct (nth_error fieldnames j) as [k|] eqn:Ek; simpl.
  - rewrite (make_row_get fieldnames fields j k Hnd Ek).
    assert (Hj : j < List.length fieldnames)
      by (apply nth_error_Some; congruence).
    destruct (nth_error fields j) as [s|] eqn:Es.
    + rewrite nth_error_app1 by (apply nth_error_Some; congruence).
      now rewrite Es.
    + apply nth_error_None in Es. rewrite nth_error_app2 by assumption.
      rewrite nth_error_repeat by lia. reflexivity.
  - apply nth_error_None in Ek. symmetry. apply nth_error_None.
    rewrite length_app, repeat_length. lia.
Qed.

Lemma StronglySorted_map_inv {X Y : Type} (f : X -> Y)
  (R : Y -> Y -> Prop) l :
  StronglySorted R (map f l) -> StronglySorted (fun a b => R (f a) (f b)) l.
Proof.
  induction l as [|a l IH]; intros H; constructor.
  - apply IH. simpl in H. now apply StronglySorted_inv in H.
  - simpl in H. apply StronglySorted_inv in H. destruct H as [_ H].
    rewrite Forall_forall in *. intros b Hb. apply H. now apply in_map.
Qed.

Lemma filter_all {X : Type} (p : X -> bool) (l : list X) :
  (forall x, In x l -> p x = true) -> filter p l = l.
Proof.
  induction l as [|x l IH]; intros H; [reflexivity|].
  simpl. rewrite (H x (or_introl eq_refl)). f_equal.
  apply IH. intros; apply H; now right.
Qed.

Lemma list_sort_fixed {X : Type} (key : X -> result spec_float) l :
  StronglySorted
    (fun x y => exists fx fy,
         key x = Ok fx /\ key y = Ok fy /\ SFleb fx fy = true) l ->
  (forall x, In x l -> exists f, key x = Ok f /\ isnan f = false) ->
  list_sort key l = Ok l.
Proof.
  intros Hs H.
  destruct (mapM_decorate key l) as (keys & Hk & Hsnd & Hall).
  { intros x Hx. destruct (H x Hx) as (f & Hf & _). eauto. }
  unfold list_sort. rewrite Hk. simpl. f_equal.
  rewrite stable_sort_sorted_id; [exact Hsnd|].
  rewrite <- Hsnd in Hs. apply StronglySorted_map_inv in Hs.
  eapply StronglySorted_on; [|exact Hall|exact Hs].
  intros a b Ha Hb (fa & fb & Hfa & Hfb & Hle). simpl in *.
  unfold ordered. rewrite Ha in Hfa. rewrite Hb in Hfb.
  injection Hfa as <-. injection Hfb as <-.
  rewrite SFleb_ltb in Hle by eauto with floats.
  now apply negb_true_iff in Hle.
Qed.

End RankSorterFacts.

(** X9.  The first record, in the order of the file, whose key cannot be
    computed decides the exception of [postprocess_vina_results], and
    the output file is not opened. *)
Theorem first_bad_key_decides
  (csv_reader : list string -> list (list string))
  (float : string -> option spec_float)
  (infile : list string) (pre : list csv_row) (x : csv_row)
  (post : list csv_row) (e : exn) :
  records csv_reader infile = pre ++ x :: post ->
  (forall y, In y pre -> exists f, sort_key float y = Ok f) ->
  sort_key float x = Raise e ->
  postprocess_vina_results csv_reader float infile =
  {| outfile := None; raised := Some e |}.
Proof.
  intros Hrec Hpre Hx. apply postprocess_raises.
  unfold ranked_rows, list_sort. fold (records csv_reader infile).
  rewrite Hrec, (mapM_first_raise _ pre x post e Hpre Hx). reflexivity.
Qed.

Lemma first_bad_key_decides_witness :
  postprocess_vina_results Sample.simple_reader Sample.simple_float
                           file_with_short_line =
  {| outfile := None; raised := Some TypeError |}.
Proof.
  apply (first_bad_key_decides
           Sample.simple_reader Sample.simple_float file_with_short_line
           [make_row ["ligand"; "mode"; "affinity_kcal/mol"] ["a"; "1"; "3"]]
           (make_row ["ligand"; "mode"; "affinity_kcal/mol"] ["b"; "1"])
           [make_row ["ligand"; "mode"; "affinity_kcal/mol"]
                     ["c"; "1"; "x"]]).
  - reflexivity.
  - intros y Hy. in_cases Hy. eexists. reflexivity.
  - reflexivity.
Defined.

(** X10.  When the header has no column [affinity_kcal/mol] and the file
    has a record, [postprocess_vina_results] raises [KeyError] and writes
    nothing. *)
Theorem missing_key_column
  (csv_reader : list string -> list (list string))
  (float : string -> option spec_float)
  (infile : list string) (fieldnames row : list string)
  (rows : list (list string)) :
  csv_reader (filter has_comma infile) = fieldnames :: rows ->
  ~ In key_column fieldnames ->
  In row rows -> row <> [] ->
  postprocess_vina_results csv_reader float infile =
  {| outfile := None; raised := Some KeyError |}.
Proof.
  intros Hread Hkey Hrow Hne.
  assert (Hrec : exists r0 rest,
             records csv_reader infile =
             [] ++ make_row fieldnames r0 :: rest).
  { unfold records, DictReader. rewrite Hread. simpl.
    destruct (filter (fun r => negb (Nat.eqb (List.length r) 0)) rows)
      as [|r0 rest] eqn:Ef.
    - exfalso.
      assert (Hin : In row (filter (fun r => negb (Nat.eqb (List.length r) 0))
                                   rows)).
      { apply filter_In. split; [assumption|]. now destruct row. }
      rewrite Ef in Hin. destruct Hin.
    - simpl. eauto. }
  destruct Hrec as (r0 & rest & Hrec).
  apply postprocess_raises.
  unfold ranked_rows, list_sort. fold (records csv_reader infile).
  rewrite Hrec, (mapM_first_raise _ [] _ rest KeyError); [reflexivity| |].
  - intros y [].
  - unfold sort_key. now rewrite make_row_get_absent.
Qed.

Lemma missing_key_column_witness :
  postprocess_vina_results Sample.simple_reader Sample.simple_float
                           file_without_key_column =
  {| outfile := None; raised := Some KeyError |}.
Proof.
  apply (missing_key_column
           Sample.simple_reader Sample.simple_float file_without_key_column
           ["ligand"; "score"] ["a"; "3"] [["a"; "3"]]).
  - reflexivity.
  - simpl. intuition discriminate.
  - simpl. auto.
  - discriminate.
Defined.

(** X11.  Under a header without repeated names, the key of a line is
    read at the position of the column [affinity_kcal/mol]: it is
    [float] of the field there, and a line too short to have that field
    gives [TypeError] ([float(None)]). *)
Theorem key_of_line
  (float : string -> option spec_float)
  (fieldnames fields : list string) (i : nat) :
  NoDup fieldnames ->
  nth_error fieldnames i = Some key_column ->
  field_key float fieldnames fields =
  match nth_error fields i with
  | Some s => float_of_field float s
  | None => Raise TypeError
  end.
Proof.
  intros Hnd Hi. unfold field_key, sort_key.
  rewrite (make_row_get fieldnames fields i key_column Hnd Hi).
  destruct (nth_error fields i); reflexivity.
Qed.

Lemma key_of_line_witness :
  field_key Sample.simple_float
            ["ligand"; "mode"; "affinity_kcal/mol"] ["b"; "1"] =
  Raise TypeError /\
  field_key Sample.simple_float
            ["ligand"; "mode"; "affinity_kcal/mol"] ["a"; "1"; "-7"] =
  float_of_field Sample.simple_float "-7".
Proof.
  split.
  - apply (key_of_line Sample.simple_float
             ["ligand"; "mode"; "affinity_kcal/mol"] ["b"; "1"] 2);
      [|reflexivity].
    repeat constructor; simpl; intuition discriminate.
  - apply (key_of_line Sample.simple_float
             ["ligand"; "mode"; "affinity_kcal/mol"] ["a"; "1"; "-7"] 2);
      [|reflexivity].
    repeat constructor; simpl; intuition discriminate.
Defined.

(** X12.  Degenerate inputs.  When no line of the input has a comma (and
    the reader yields no row for no line), [postprocess_vina_results]
    opens the output file, leaves it empty and raises [TypeError] (there
    are no field names to write).  When the lines with a comma are a
    header only, the output is that header and nothing is raised, whether
    or not the header has the key column. *)
Theorem degenerate_inputs
  (csv_reader : list string -> list (list string))
  (float : string -> option spec_float) (infile : list string) :
  (csv_reader [] = [] ->
   (forall l, In l infile -> has_comma l = false) ->
   postprocess_vina_results csv_reader float infile =
   {| outfile := Some []; raised := Some TypeError |}) /\
  (forall fieldnames,
      csv_reader (filter has_comma infile) = [fieldnames] ->
      postprocess_vina_results csv_reader float infile =
      {| outfile := Some [fieldnames]; raised := None |}).
Proof.
  split.
  - intros Hempty Hno. unfold postprocess_vina_results, DictReader.
    rewrite (filter_none has_comma infile Hno), Hempty. reflexivity.
  - intros fieldnames Hread.
    unfold postprocess_vina_results, DictReader. rewrite Hread.
    reflexivity.
Qed.

Lemma degenerate_inputs_witness :
  postprocess_vina_results Sample.simple_reader Sample.simple_float
                           [line "affinity_kcal/mol"; line "-7"] =
  {| outfile := Some []; raised := Some TypeError |} /\
  postprocess_vina_results Sample.simple_reader Sample.simple_float
                           [line "ligand,score"] =
  {| outfile := Some [["ligand"; "score"]]; raised := None |}.
Proof.
  split.
  - apply (proj1 (degenerate_inputs Sample.simple_reader Sample.simple_float
                    [line "affinity_kcal/mol"; line "-7"]));
      [reflexivity|].
    intros l Hl. in_cases Hl; reflexivity.
  - apply (proj2 (degenerate_inputs Sample.simple_reader Sample.simple_float
                    [line "ligand,score"])).
    reflexivity.
Defined.

(** X13.  A record with more fields than the header stops the writing
    with [ValueError] after the file was opened: the header and the rows
    ranked before that record are already written, the rows ranked after
    it are not. *)
Theorem surplus_field_partial_output
  (csv_reader : list string -> list (list string))
  (float : string -> option spec_float)
  (infile : list string) (fieldnames : list string)
  (pre : list csv_row) (x : csv_row) (post : list csv_row)
  (s : list string) :
  ranked_rows csv_reader float infile = Ok (pre ++ x :: post) ->
  fst (DictReader csv_reader (filter has_comma infile)) = Some fieldnames ->
  (forall y, In y pre -> surplus y = None) ->
  surplus x = Some s ->
  postprocess_vina_results csv_reader float infile =
  {| outfile := Some (fieldnames :: map (written_fields fieldnames) pre);
     raised := Some ValueError |}.
Proof.
  unfold ranked_rows, postprocess_vina_results. intros -> -> Hpre Hx.
  now rewrite (writerows_stops fieldnames pre x post s Hpre Hx).
Qed.

Lemma surplus_field_partial_output_witness :
  postprocess_vina_results Sample.simple_reader Sample.simple_float
                           file_with_long_line =
  {| outfile := Some [["ligand"; "affinity_kcal/mol"]; ["b"; "2"]];
     raised := Some ValueError |}.
Proof.
  apply (surplus_field_partial_output
           Sample.simple_reader Sample.simple_float file_with_long_line
           ["ligand"; "affinity_kcal/mol"]
           [make_row ["ligand"; "affinity_kcal/mol"] ["b"; "2"]]
           (make_row ["ligand"; "affinity_kcal/mol"] ["a"; "3"; "4"])
           [] ["4"]).
  - reflexivity.
  - reflexivity.
  - intros y Hy. in_cases Hy. reflexivity.
  - reflexivity.
Defined.

(** X14.  A record that fits the header is written back as it was read:
    under a header without repeated names, [DictWriter] turns the row
    [DictReader] made of a line into the fields of that line, followed by
    one empty string for every column the line did not reach. *)
Theorem reader_writer_round_trip (fieldnames fields : list string) :
  NoDup fieldnames ->
  List.length fields <= List.length fieldnames ->
  dict_to_list fieldnames (make_row fieldnames fields) =
  Ok (fields ++ repeat "" (List.length fieldnames - List.length fields)).
Proof.
  intros Hnd Hlen. unfold dict_to_list.
  rewrite (proj2 (make_row_surplus fieldnames fields) Hlen).
  fold (written_fields fieldnames (make_row fieldnames fields)).
  now rewrite written_make_row.
Qed.

Lemma reader_writer_round_trip_witness :
  dict_to_list ["ligand"; "mode"; "affinity_kcal/mol"]
               (make_row ["ligand"; "mode"; "affinity_kcal/mol"] ["b"; "1"]) =
  Ok ["b"; "1"; ""].
Proof.
  apply (reader_writer_round_trip
           ["ligand"; "mode"; "affinity_kcal/mol"] ["b"; "1"]).
  - repeat constructor; simpl; intuition discriminate.
  - simpl. lia.
Defined.

(** X15.  On a rectangular table (every line as long as the header)
    whose header has no repeated name and has the key column, and whose
    keys are numbers, [postprocess_vina_results] writes the header
    followed by the very lines of the input, reordered: no field is
    changed, no line is lost or added, and the lines are in ascending
    order of the key. *)
Theorem rectangular_table_reordered
  (csv_reader : list string -> list (list string))
  (float : string -> option spec_float)
  (infile : list string) (fieldnames : list string)
  (rows : list (list string)) :
  csv_reader (filter has_comma infile) = fieldnames :: rows ->
  NoDup fieldnames ->
  In key_column fieldnames ->
  (forall row, In row rows -> List.length row = List.length fieldnames) ->
  (forall row, In row rows ->
               exists f, field_key float fieldnames row = Ok f /\
                         isnan f = false) ->
  exists rows',
    postprocess_vina_results csv_reader float infile =
    {| outfile := Some (fieldnames :: rows'); raised := None |} /\
    Permutation rows rows' /\
    StronglySorted (fields_le float fieldnames) rows'.
Proof.
  intros Hread Hnd Hkey Hlen Hkeys.
  assert (Hpos : 0 < List.length fieldnames)
    by (destruct fieldnames; [destruct Hkey|simpl; lia]).
  assert (Hrec : records csv_reader infile = map (make_row fieldnames) rows).
  { unfold records, DictReader. rewrite Hread. simpl.
    rewrite filter_all; [reflexivity|].
    intros r Hr. rewrite (Hlen r Hr).
    destruct (List.length fieldnames); [lia|reflexivity]. }
  destruct (list_sort_sorted (sort_key float) (records csv_reader infile))
    as (out & Hout & Hperm & Hsorted & _).
  { rewrite Hrec. intros x Hx. apply in_map_iff in Hx.
    destruct Hx as (r & <- & Hr). now apply Hkeys. }
  rewrite Hrec in Hperm. apply Permutation_sym in Hperm.
  apply Permutation_map_inv in Hperm.
  destruct Hperm as (rows' & -> & Hperm).
  assert (Hin : forall r, In r rows' -> In r rows).
  { intros r Hr. eapply Permutation_in; [|exact Hr].
    now apply Permutation_sym. }
  exists rows'. split; [|split].
  - rewrite (postprocess_written csv_reader float infile fieldnames
               (map (make_row fieldnames) rows')).
    + do 3 f_equal. rewrite map_map.
      rewrite <- (map_id rows') at 2. apply map_ext_in.
      intros r Hr. rewrite written_make_row by
        (auto; rewrite (Hlen r (Hin r Hr)); lia).
      rewrite (Hlen r (Hin r Hr)), Nat.sub_diag. apply app_nil_r.
    + exact Hout.
    + unfold DictReader. now rewrite Hread.
    + intros x Hx. apply in_map_iff in Hx. destruct Hx as (r & <- & Hr).
      apply make_row_surplus. rewrite (Hlen r (Hin r Hr)). lia.
  - exact Hperm.
  - apply StronglySorted_map_inv in Hsorted. exact Hsorted.
Qed.

Lemma rectangular_table_reordered_witness :
  exists rows',
    postprocess_vina_results Sample.simple_reader Sample.simple_float
                             file_with_tie =
    {| outfile := Some (["ligand"; "affinity_kcal/mol"] :: rows');
       raised := None |} /\
    Permutation [["a"; "3"]; ["b"; "-7"]; ["c"; "1"]; ["d"; "-7"]] rows' /\
    StronglySorted
      (fields_le Sample.simple_float ["ligand"; "affinity_kcal/mol"]) rows'.
Proof.
  apply (rectangular_table_reordered
           Sample.simple_reader Sample.simple_float file_with_tie).
  - reflexivity.
  - repeat constructor; simpl; intuition discriminate.
  - simpl. auto.
  - intros row Hrow. in_cases Hrow; reflexivity.
  - intros row Hrow. in_cases Hrow; eexists; split; reflexivity.
Defined.

(** X16.  Ranking is idempotent: when the keys are numbers, sorting the
    ranked rows again by the same key leaves them as they are. *)
Theorem ranking_is_idempotent
  (csv_reader : list string -> list (list string))
  (float : string -> option spec_float)
  (infile : list string) (out : list csv_row) :
  (forall x, In x (records csv_reader infile) ->
             exists f, sort_key float x = Ok f /\ isnan f = false) ->
  ranked_rows csv_reader float infile = Ok out ->
  list_sort (sort_key float) out = Ok out.
Proof.
  intros H Hout.
  destruct (list_sort_sorted (sort_key float) _ H)
    as (out' & Hout' & Hperm & Hsorted & _).
  unfold ranked_rows in Hout. fold (records csv_reader infile) in Hout.
  rewrite Hout' in Hout. injection Hout as ->.
  apply list_sort_fixed; [exact Hsorted|].
  intros x Hx. apply H.
  eapply Permutation_in; [apply Permutation_sym, Hperm|exact Hx].
Qed.

Lemma ranking_is_idempotent_witness :
  list_sort (sort_key Sample.simple_float)
    [make_row ["ligand"; "affinity_kcal/mol"] ["b"; "-7"];
     make_row ["ligand"; "affinity_kcal/mol"] ["d"; "-7"];
     make_row ["ligand"; "affinity_kcal/mol"] ["c"; "1"];
     make_row ["ligand"; "affinity_kcal/mol"] ["a"; "3"]] =
  Ok [make_row ["ligand"; "affinity_kcal/mol"] ["b"; "-7"];
      make_row ["ligand"; "affinity_kcal/mol"] ["d"; "-7"];
      make_row ["ligand"; "affinity_kcal/mol"] ["c"; "1"];
      make_row ["ligand"; "affinity_kcal/mol"] ["a"; "3"]].
Proof.
  apply (ranking_is_idempotent
           Sample.simple_reader Sample.simple_float file_with_tie).
  - intros x Hx. in_cases Hx; eexists; split; reflexivity.
  - reflexivity.
Defined.

(** ** Strings *)

Section Strings.

Lemma length_append (a b : string) :
  String.length (a ++ b) = String.length a + String.length b.
Proof. induction a as [|c a IH]; simpl; [reflexivity|now rewrite IH]. Qed.

Lemma append_nil_r (a : string) : (a ++ "")%string = a.
Proof. induction a as [|c a IH]; simpl; [reflexivity|now rewrite IH]. Qed.

Lemma append_assoc (a b c : string) :
  ((a ++ b) ++ c)%string = (a ++ (b ++ c))%string.
Proof. induction a as [|x a IH]; simpl; [reflexivity|now rewrite IH]. Qed.

Lemma append_cancel_l (p a b : string) :
  (p ++ a)%string = (p ++ b)%string -> a = b.
Proof.
  induction p as [|c p IH]; simpl; intros H; [exact H|].
  injection H as H. now apply IH.
Qed.

Lemma append_cancel_r (a b s : string) :
  (a ++ s)%string = (b ++ s)%string -> a = b.
Proof.
  revert b. induction a as [|c a IH]; intros b H.
  - destruct b as [|d b]; [reflexivity|].
    apply (f_equal String.length) in H. simpl in H.
    rewrite length_append in H. lia.
  - destruct b as [|d b].
    + apply (f_equal String.length) in H. simpl in H.
      rewrite length_append in H. lia.
    + simpl in H. injection H as -> H. f_equal. now apply IH.
Qed.

Lemma endswith_append (x suffix : string) :
  endswith (x ++ suffix) suffix = true.
Proof.
  induction x as [|c x IH]; simpl.
  - destruct suffix; simpl; rewrite ?String.eqb_refl, ?Ascii.eqb_refl;
      reflexivity.
  - rewrite IH. apply orb_true_r.
Qed.

Lemma endswith_spec (s suffix : string) :
  endswith s suffix = true <-> exists p, s = (p ++ suffix)%string.
Proof.
  split.
  - induction s as [|c s IH]; intros H.
    + destruct suffix; [now exists ""|discriminate].
    + change (String.eqb (String c s) suffix || endswith s suffix = true)
        in H.
      apply orb_true_iff in H. destruct H as [H|H].
      * apply String.eqb_eq in H. exists "". now rewrite H.
      * destruct (IH H) as [p ->]. now exists (String c p).
  - intros [p ->]. apply endswith_append.
Qed.

Lemma substring_0_length (n : nat) (s : string) :
  String.length (substring 0 n s) = Nat.min n (String.length s).
Proof.
  revert n. induction s as [|c s IH]; intros [|n]; simpl; auto.
Qed.

Lemma substring_0_all (s : string) : substring 0 (String.length s) s = s.
Proof. induction s as [|c s IH]; simpl; [reflexivity|now rewrite IH]. Qed.

Lemma substring_split (n : nat) (s : string) :
  (substring 0 n s ++ substring n (String.length s - n) s)%string = s.
Proof.
  revert n. induction s as [|c s IH]; intros [|n]; simpl; try reflexivity.
  - now rewrite substring_0_all.
  - now rewrite IH.
Qed.

Lemma str_of_nat_inj (n m : nat) : str_of_nat n = str_of_nat m -> n = m.
Proof.
  unfold str_of_nat. intros H.
  apply (f_equal NilEmpty.uint_of_string) in H.
  rewrite !NilEmpty.usu in H. injection H as H.
  now apply Unsigned.to_uint_inj.
Qed.

Lemma has_char_append (c : ascii) (a b : string) :
  has_char c (a ++ b) = has_char c a || has_char c b.
Proof.
  unfold has_char. induction a as [|x a IH]; simpl; [reflexivity|].
  rewrite IH. now rewrite orb_assoc.
Qed.

End Strings.

(** X17.  The structure file looked up for an identifier always ends in
    [.sdf]; an identifier that already ends in [.sdf] is used as it is,
    so the lookup is idempotent; and an identifier without the suffix is
    looked up under the same file as the identifier with the suffix. *)
Theorem sdf_file_resolution (filename : string) :
  endswith (sdf_file filename) ".sdf" = true /\
  sdf_file (sdf_file filename) = sdf_file filename /\
  (endswith filename ".sdf" = true -> sdf_file filename = filename) /\
  (endswith filename ".sdf" = false ->
   sdf_file filename = sdf_file (filename ++ ".sdf")).
Proof.
  assert (H1 : endswith (sdf_file filename) ".sdf" = true).
  { unfold sdf_file. destruct (endswith filename ".sdf") eqn:E;
      [exact E|apply endswith_append]. }
  split; [exact H1|]. split; [|split].
  - unfold sdf_file at 1. now rewrite H1.
  - unfold sdf_file. now intros ->.
  - intros E. unfold sdf_file. rewrite E, endswith_append. reflexivity.
Qed.

Lemma sdf_file_resolution_witness :
  sdf_file "ligand_007.sdf" = "ligand_007.sdf" /\
  sdf_file "ligand_007" = sdf_file "ligand_007.sdf".
Proof.
  split.
  - apply (proj1 (proj2 (proj2 (sdf_file_resolution "ligand_007.sdf")))).
    reflexivity.
  - apply (proj2 (proj2 (proj2 (sdf_file_resolution "ligand_007")))).
    reflexivity.
Defined.

(** X18.  The structure file of an identifier of the affinity table does
    not depend on whether the identifier went through the normalizer of
    the merge: [sdf_file (normalize_ligand x) = sdf_file x], and for an
    identifier made of digits both are [x.sdf]. *)
Theorem sdf_file_of_normalized (x : string) :
  sdf_file (normalize_ligand x) = sdf_file x /\
  (isdigit x = true -> sdf_file x = (x ++ ".sdf")%string).
Proof.
  assert (Hd : isdigit x = true -> endswith x ".sdf" = false).
  { intros Hx. destruct (endswith x ".sdf") eqn:E; [|reflexivity].
    apply endswith_spec in E. destruct E as [p ->].
    rewrite isdigit_suffixed in Hx. discriminate. }
  split.
  - unfold normalize_ligand. destruct (isdigit x) eqn:E; [|reflexivity].
    unfold sdf_file. now rewrite endswith_append, (Hd eq_refl).
  - intros Hx. unfold sdf_file. now rewrite (Hd Hx).
Qed.

Lemma sdf_file_of_normalized_witness : sdf_file "42" = "42.sdf".
Proof. apply (proj2 (sdf_file_of_normalized "42")). reflexivity. Defined.

(** X19.  The SMILES shown in a legend never has more than 53
    characters: a SMILES of at most 50 characters is shown whole, a
    longer one is cut to its first 50 characters followed by three dots
    (so a SMILES of 51 or 52 characters is shown longer than it is). *)
Theorem smiles_display_bound (smiles : string) :
  String.length (smiles_display smiles) <= 53 /\
  (String.length smiles <= 50 -> smiles_display smiles = smiles) /\
  (50 < String.length smiles ->
   smiles_display smiles = (substring 0 50 smiles ++ "...")%string /\
   String.length (smiles_display smiles) = 53).
Proof.
  unfold smiles_display.
  destruct (50 <? String.length smiles)%nat eqn:E.
  - apply Nat.ltb_lt in E.
    assert (Hl : String.length (substring 0 50 smiles ++ "...") = 53).
    { rewrite length_append, substring_0_length.
      change (String.length "...") with 3. lia. }
    rewrite Hl. repeat split; lia.
  - apply Nat.ltb_ge in E. repeat split; try lia; auto.
Qed.

Lemma smiles_display_bound_witness :
  smiles_display "CC(=O)Oc1ccccc1C(=O)O" = "CC(=O)Oc1ccccc1C(=O)O".
Proof.
  apply (proj1 (proj2 (smiles_display_bound "CC(=O)Oc1ccccc1C(=O)O"))).
  simpl. lia.
Defined.

(** ** Image files and stems *)

Section ImageNames.

Lemma path_join_inj (a b b' : string) :
  is_absolute b = is_absolute b' ->
  path_join a b = path_join a b' -> b = b'.
Proof.
  unfold path_join. intros <-.
  destruct (is_absolute b); [auto|].
  destruct (String.eqb a "" || endswith a "/"); intros H.
  - now apply append_cancel_l in H.
  - apply append_cancel_l in H. now apply (append_cancel_l "/").
Qed.

Lemma is_absolute_append (stem a b : string) (c : ascii) :
  is_absolute (stem ++ String c a) = is_absolute (stem ++ String c b).
Proof. destruct stem; reflexivity. Qed.

Lemma rfind_from_absent (c : ascii) (s : string) (i last : Z) :
  has_char c s = false -> rfind_from c s i last = last.
Proof.
  unfold has_char. revert i last.
  induction s as [|a s IH]; intros i last H; [reflexivity|].
  simpl in *. apply orb_false_iff in H. destruct H as [Ha H].
  rewrite Ascii.eqb_sym, Ha. now apply IH.
Qed.

Lemma rfind_from_last (c : ascii) (a b : string) (i last : Z) :
  has_char c b = false ->
  rfind_from c (a ++ String c b) i last = (i + Z.of_nat (String.length a))%Z.
Proof.
  intros Hb. revert i last.
  induction a as [|x a IH]; intros i last.
  - simpl. rewrite Ascii.eqb_refl, rfind_from_absent by assumption. lia.
  - simpl append. simpl rfind_from. rewrite IH.
    simpl String.length. lia.
Qed.

Lemma substring_0_append (a b : string) :
  substring 0 (String.length a) (a ++ b) = a.
Proof.
  induction a as [|c a IH]; simpl.
  - destruct b; reflexivity.
  - now rewrite IH.
Qed.

Lemma substring_skip_append (a b : string) (m : nat) :
  substring (String.length a) m (a ++ b) = substring 0 m b.
Proof. induction a as [|c a IH]; simpl; [reflexivity|exact IH]. Qed.

Lemma splitext_split (p : string) :
  (fst (splitext p) ++ snd (splitext p))%string = p.
Proof.
  unfold splitext.
  destruct ((rfind "/" p <? rfind "." p)%Z && _); simpl.
  - apply substring_split.
  - apply append_nil_r.
Qed.

Lemma splitext_stem (x ext : string) :
  x <> "" -> has_char "." x = false -> has_char "/" x = false ->
  has_char "." ext = false -> has_char "/" ext = false ->
  splitext (x ++ String "." ext) = (x, String "." ext).
Proof.
  intros Hne Hdot Hsep Hedot Hesep. unfold splitext.
  assert (Hs : rfind "/" (x ++ String "." ext) = (-1)%Z).
  { unfold rfind. apply rfind_from_absent.
    rewrite has_char_append, Hsep. unfold has_char in *. simpl.
    exact Hesep. }
  assert (Hd : rfind "." (x ++ String "." ext)
               = Z.of_nat (String.length x)).
  { unfold rfind. now rewrite rfind_from_last. }
  rewrite Hs, Hd.
  replace (Z.to_nat (-1 + 1)) with 0 by reflexivity.
  replace (Z.to_nat (Z.of_nat (String.length x) - -1 - 1))
    with (String.length x) by lia.
  rewrite Nat2Z.id, substring_0_append, substring_skip_append.
  rewrite length_append.
  replace (String.length x + String.length (String "." ext)
           - String.length x)
    with (String.length (String "." ext)) by lia.
  rewrite substring_0_all.
  assert (Hlt : (-1 <? Z.of_nat (String.length x))%Z = true)
    by (apply Z.ltb_lt; lia).
  rewrite Hlt.
  destruct x as [|c x]; [now elim Hne|].
  unfold has_char in Hdot.
  change (list_ascii_of_string (String c x))
    with (c :: list_ascii_of_string x) in *.
  cbn [existsb] in Hdot.
  apply orb_false_iff in Hdot. destruct Hdot as [Hc _].
  cbn [existsb andb]. rewrite Ascii.eqb_sym, Hc. reflexivity.
Qed.

End ImageNames.

(** X20.  Within one structure file the images do not overwrite each
    other: molecules at different positions get different image
    paths. *)
Theorem img_path_injective (output_dir filename : string) (i j : nat) :
  img_path output_dir filename i = img_path output_dir filename j -> i = j.
Proof.
  unfold img_path. intros H.
  apply path_join_inj in H.
  - apply append_cancel_l, (append_cancel_l "_mol_") in H.
    apply append_cancel_r, str_of_nat_inj in H. lia.
  - apply (is_absolute_append (fst (splitext filename))
                              (append "mol_" _) (append "mol_" _) "_").
Qed.

Lemma img_path_injective_witness :
  0 = 0 /\
  img_path "out" "42.sdf" 0 <> img_path "out" "42.sdf" 1.
Proof.
  split.
  - apply (img_path_injective "out" "42.sdf" 0 0). reflexivity.
  - intros H. apply (img_path_injective "out" "42.sdf" 0 1) in H.
    discriminate.
Defined.

(** X21.  [os.path.splitext] never loses a character (root and extension
    make up the path again), and for a structure file [x.sdf] whose stem
    [x] is not empty and has no dot and no slash, the legend and the
    image names are built on [x]: the image of the molecule at position
    [idx] is [x_mol_(idx+1).png] in the output directory. *)
Theorem stem_of_structure_file (output_dir x smiles : string) (idx : nat) :
  (forall p, (fst (splitext p) ++ snd (splitext p))%string = p) /\
  (x <> "" -> has_char "." x = false -> has_char "/" x = false ->
   splitext (x ++ ".sdf") = (x, ".sdf") /\
   img_path output_dir (x ++ ".sdf") idx =
   path_join output_dir (x ++ "_mol_" ++ str_of_nat (idx + 1) ++ ".png") /\
   legend (x ++ ".sdf") smiles
   = (x ++ newline ++ smiles_display smiles)%string).
Proof.
  split; [exact splitext_split|].
  intros Hne Hdot Hsep.
  assert (H : splitext (x ++ ".sdf") = (x, ".sdf"))
    by (now apply (splitext_stem x "sdf")).
  unfold img_path, legend. rewrite H. auto.
Qed.

Lemma stem_of_structure_file_witness :
  splitext "ligand_007.sdf" = ("ligand_007", ".sdf") /\
  img_path "out" "ligand_007.sdf" 2 =
  path_join "out" "ligand_007_mol_3.png".
Proof.
  destruct (proj2 (stem_of_structure_file "out" "ligand_007" "CCO" 2))
    as (H1 & H2 & _); try reflexivity; try discriminate.
  split; [exact H1|exact H2].
Defined.

(** ** The labelled minimum of a column *)

Section LabelledMinimum.

Lemma SFleb_antisym x y :
  SFleb x y = true -> SFleb y x = true -> SFeqb x y = true.
Proof.
  intros H1 H2. apply SFleb_rank in H1, H2.
  destruct H1 as (a & b & Ha & Hb & H1), H2 as (b' & a' & Hb' & Ha' & H2).
  rewrite Ha in Ha'. rewrite Hb in Hb'.
  injection Ha' as <-. injection Hb' as <-.
  unfold SFeqb. rewrite SFcompare_rank, Ha, Hb.
  destruct (lex_compare a b) eqn:E; [reflexivity| |].
  - apply lex_compare_Lt in E. contradiction.
  - apply lex_compare_Gt in E. contradiction.
Qed.

Lemma SFltb_leb_trans x y z :
  SFltb x y = true -> SFleb y z = true -> SFltb x z = true.
Proof.
  intros Hxy Hyz.
  assert (Hx : isnan x = false) by eauto with floats.
  assert (Hz : isnan z = false) by eauto with floats.
  destruct (SFltb x z) eqn:E; [reflexivity|].
  assert (Hzx : SFleb z x = true)
    by (rewrite SFleb_ltb by assumption; now rewrite E).
  pose proof (SFleb_trans _ _ _ Hyz Hzx) as Hyx.
  rewrite SFleb_ltb in Hyx by eauto with floats.
  rewrite Hxy in Hyx. discriminate.
Qed.

Lemma fill_inf_number v : isnan (fill_inf v) = false.
Proof. unfold fill_inf. destruct (isnan v) eqn:E; [reflexivity|exact E]. Qed.

Lemma fill_inf_id v : isnan v = false -> fill_inf v = v.
Proof. unfold fill_inf. now intros ->. Qed.

Lemma fill_inf_below v : SFltb (fill_inf v) inf = true -> isnan v = false.
Proof.
  unfold fill_inf. destruct (isnan v); [discriminate|reflexivity].
Qed.

(** Where the arg-min stands: at [best] when nothing after it is
    smaller, else at the first position that holds the least value. *)
Lemma idxmin_from_spec col :
  forall i b,
    isnan b = false ->
    (idxmin_from (i, b) col = i /\
     forall e, In e col -> SFleb b (fill_inf (snd e)) = true) \/
    (exists before v after,
        col = before ++ (idxmin_from (i, b) col, v) :: after /\
        SFltb (fill_inf v) b = true /\
        (forall e, In e before ->
                   SFltb (fill_inf v) (fill_inf (snd e)) = true) /\
        (forall e, In e after ->
                   SFleb (fill_inf v) (fill_inf (snd e)) = true)).
Proof.
  induction col as [|[j w] rest IH]; intros i b Hb.
  - left. split; [reflexivity|intros e []].
  - simpl idxmin_from. cbn [fst snd].
    destruct (SFltb (fill_inf w) b) eqn:E.
    + right.
      destruct (IH j (fill_inf w) (fill_inf_number w))
        as [[Hj Hmin]|(before & v & after & Hcol & Hlt & Hbef & Haft)].
      * exists [], w, rest. rewrite Hj.
        split; [reflexivity|]. split; [exact E|].
        split; [intros e []|exact Hmin].
      * exists ((j, w) :: before), v, after.
        split; [simpl; now rewrite <- Hcol|].
        split; [eapply SFltb_trans; eauto|].
        split; [|exact Haft].
        intros e [<-|He]; auto.
    + assert (Hle : SFleb b (fill_inf w) = true).
      { rewrite SFleb_ltb; [now rewrite E|exact Hb|apply fill_inf_number]. }
      destruct (IH i b Hb)
        as [[Hi Hmin]|(before & v & after & Hcol & Hlt & Hbef & Haft)].
      * left. split; [exact Hi|]. intros e [<-|He]; auto.
      * right. exists ((j, w) :: before), v, after.
        split; [simpl; now rewrite <- Hcol|].
        split; [exact Hlt|]. split; [|exact Haft].
        intros e [<-|He]; auto. simpl.
        eapply SFltb_leb_trans; eauto.
Qed.

Lemma idxmin_spec col i :
  idxmin col = Some i ->
  exists before v after,
    col = before ++ (i, v) :: after /\
    (forall e, In e before ->
               SFltb (fill_inf v) (fill_inf (snd e)) = true) /\
    (forall e, In e after ->
               SFleb (fill_inf v) (fill_inf (snd e)) = true).
Proof.
  unfold idxmin. destruct (forallb _ col); [discriminate|].
  destruct col as [|[j w] rest]; [discriminate|].
  cbn [fst snd]. intros H. injection H as <-.
  destruct (idxmin_from_spec rest j (fill_inf w) (fill_inf_number w))
    as [[Hj Hmin]|(before & v & after & Hcol & Hlt & Hbef & Haft)].
  - exists [], w, rest. rewrite Hj.
    split; [reflexivity|]. split; [intros e []|exact Hmin].
  - exists ((j, w) :: before), v, after.
    split; [simpl; now rewrite <- Hcol|]. split; [|exact Haft].
    intros e [<-|He]; auto.
Qed.

Lemma idxmin_none col :
  idxmin col = None <-> forall e, In e col -> isnan (snd e) = true.
Proof.
  unfold idxmin. rewrite <- forallb_forall.
  destruct (forallb _ col) eqn:E.
  - tauto.
  - destruct col as [|e rest]; [discriminate|].
    split; discriminate.
Qed.

(** The value at the arg-min is below every filled value, and it is a
    number, below every number of the column, as soon as the column has
    a value below [+inf]. *)
Lemma idxmin_least col i :
  idxmin col = Some i ->
  exists before v after,
    col = before ++ (i, v) :: after /\
    (forall e, In e before ->
               SFltb (fill_inf v) (fill_inf (snd e)) = true) /\
    (forall e, In e after ->
               SFleb (fill_inf v) (fill_inf (snd e)) = true) /\
    ((exists e, In e col /\ SFltb (snd e) inf = true) ->
     isnan v = false /\
     forall e, In e col -> isnan (snd e) = false ->
               SFleb v (snd e) = true).
Proof.
  intros H.
  destruct (idxmin_spec col i H) as (before & v & after & Hcol & Hbef & Haft).
  exists before, v, after.
  split; [exact Hcol|split; [exact Hbef|split; [exact Haft|]]].
  assert (Hall : forall e, In e col ->
                           SFleb (fill_inf v) (fill_inf (snd e)) = true).
  { intros e He. rewrite Hcol in He. apply in_app_or in He.
    destruct He as [He|[<-|He]].
    - now apply SFltb_leb, Hbef.
    - apply SFleb_refl, fill_inf_number.
    - now apply Haft. }
  intros (e & He & Hlt).
  assert (Hv : isnan v = false).
  { apply fill_inf_below.
    eapply SFleb_ltb_trans; [apply (Hall e He)|].
    rewrite fill_inf_id; [exact Hlt|eauto with floats]. }
  split; [exact Hv|]. intros e' He' Hn'.
  specialize (Hall e' He'). now rewrite !fill_inf_id in Hall.
Qed.

Lemma astype_float_floats float merged :
  float_column merged ->
  exists col,
    astype_float float (column objB merged) = Ok col /\
    forall i v, In (i, v) col <->
                exists r, In r merged /\ fst r = i /\ objB r = Float v.
Proof.
  unfold astype_float, column.
  induction merged as [|r merged IH]; intros H.
  - exists []. split; [reflexivity|].
    intros i v. split; [intros []|intros (r & [] & _)].
  - destruct (H r (or_introl eq_refl)) as [f Hf].
    destruct IH as (col & Hcol & Hin); [intros x Hx; apply H; now right|].
    exists ((fst r, f) :: col). split.
    + simpl. rewrite Hf, Hcol. reflexivity.
    + intros i v. simpl. rewrite Hin. split.
      * intros [E|(x & Hx & Hi & Hv)].
        -- injection E as <- <-. exists r. auto.
        -- exists x. auto.
      * intros (x & [<-|Hx] & Hi & Hv).
        -- left. rewrite Hf in Hv. injection Hv as <-. now rewrite Hi.
        -- right. exists x. auto.
Qed.

Lemma last_In {X : Type} (l : list X) (d : X) :
  l <> [] -> In (last l d) l.
Proof.
  induction l as [|a l IH]; intros H; [now elim H|].
  destruct l as [|b l]; [now left|].
  right. apply IH. discriminate.
Qed.

End LabelledMinimum.

(** X22.  [idxmin] returns the label of the first row that holds the
    least value of the column, a missing value (NaN) counting as [+inf]:
    every row before it holds a strictly greater value, every row after
    it a value at least as great.  The value at that row is a number as
    soon as the column has a value below [+inf]; when the column has
    none, the first row is returned, NaN or not.  It returns no label
    exactly when every value of the column is NaN. *)
Theorem idxmin_is_minimum (col : list (nat * spec_float)) :
  (idxmin col = None <-> forall e, In e col -> isnan (snd e) = true) /\
  (forall i,
      idxmin col = Some i ->
      exists before v after,
        col = before ++ (i, v) :: after /\
        (forall e, In e before ->
                   SFltb (fill_inf v) (fill_inf (snd e)) = true) /\
        (forall e, In e after ->
                   SFleb (fill_inf v) (fill_inf (snd e)) = true) /\
        ((exists e, In e col /\ SFltb (snd e) inf = true) ->
         isnan v = false /\
         forall e, In e col -> isnan (snd e) = false ->
                   SFleb v (snd e) = true)).
Proof. split; [apply idxmin_none|apply idxmin_least]. Qed.

Lemma idxmin_is_minimum_witness :
  idxmin [(0, nan); (1, inf)] = Some 0 /\
  exists before v after,
    [(0, of_Z 5); (1, nan); (3, of_Z 1); (4, of_Z 1)]
    = before ++ (3, v) :: after /\
    isnan v = false.
Proof.
  split; [reflexivity|].
  destruct (proj2 (idxmin_is_minimum
                     [(0, of_Z 5); (1, nan); (3, of_Z 1); (4, of_Z 1)]) 3)
    as (before & v & after & Hcol & _ & _ & Hnum); [reflexivity|].
  exists before, v, after. split; [exact Hcol|].
  apply Hnum. exists (0, of_Z 5). split; [now left|reflexivity].
Defined.

(** X23.  The point labelled for the best affinity (line 122) lies at the
    height where the frontier ends: when the frontier is not empty, the
    affinity column converts to floats, [idxmin] gives a label, and the
    affinity of the labelled row equals the final [min_y], the second
    objective of the last frontier point. *)
Theorem labelled_affinity_is_frontier_end
  (float : string -> option spec_float) merged st :
  pareto merged = Ok st ->
  pareto_front st <> [] ->
  exists col i v m,
    astype_float float (column objB merged) = Ok col /\
    idxmin col = Some i /\
    In (i, v) col /\
    min_y st = Float m /\
    SFeqb v m = true.
Proof.
  intros H Hne.
  assert (Hcol : float_column merged).
  { intros r Hr. destruct (objB r) as [f|s] eqn:E; [eauto|].
    rewrite (pareto_raises merged r s Hr E) in H. discriminate. }
  destruct (pareto_inv _ _ H) as (out & Hout & ->). simpl in *.
  destruct (astype_float_floats float merged Hcol) as (col & Hc & Hin).
  destruct (emitted_final_le _ _ _ Hout eq_refl) as (m & Hm & Hnm & _).
  assert (Hmin : forall r b, In r merged -> objB r = Float b ->
                             isnan b = false -> SFleb m b = true).
  { intros r b Hr Hb Hnb. apply sort_values_In in Hr.
    destruct (emitted_final_min _ _ _ _ _ Hout eq_refl Hr Hb Hnb)
      as (m' & Hm' & Hle).
    congruence. }
  assert (Hlast : exists r, In r merged /\ objB r = Float m /\
                            SFltb m inf = true).
  { assert (Hne' : map objB out <> [])
      by (destruct out; [now elim Hne|discriminate]).
    pose proof (last_In (map objB out) (Float inf) Hne') as Hl.
    rewrite Hm in Hl. apply in_map_iff in Hl.
    destruct Hl as (p & Hp & Hpin). exists p.
    destruct (emitted_below _ _ _ _ Hout Hpin) as [Hps Hlt].
    split; [now apply sort_values_In|]. split; [exact Hp|].
    rewrite Hp in Hlt. simpl in Hlt. now injection Hlt. }
  destruct Hlast as (rm & Hrm & Hbm & Hbelow).
  assert (Hrow : In (fst rm, m) col) by (apply Hin; exists rm; auto).
  destruct (idxmin col) as [i|] eqn:Ei.
  - destruct (idxmin_least col i Ei)
      as (before & v & after & Hdec & _ & _ & Hnum).
    assert (Hv : In (i, v) col)
      by (rewrite Hdec; apply in_or_app; right; now left).
    destruct Hnum as [Hnv Hvmin].
    { exists (fst rm, m). split; [exact Hrow|exact Hbelow]. }
    exists col, i, v, m. repeat split; auto.
    apply SFleb_antisym.
    + apply (Hvmin (fst rm, m)); [exact Hrow|exact Hnm].
    + apply Hin in Hv. destruct Hv as (r & Hr & _ & Hb).
      eapply Hmin; eauto.
  - exfalso. apply idxmin_none with (e := (fst rm, m)) in Ei.
    + simpl in Ei. congruence.
    + apply Hin. exists rm. auto.
Qed.

Lemma labelled_affinity_is_frontier_end_witness :
  exists col i v m,
    astype_float Sample.simple_float (column objB scenario) = Ok col /\
    idxmin col = Some i /\
    In (i, v) col /\
    Float (of_Z 1) = Float m /\
    SFeqb v m = true.
Proof.
  apply (labelled_affinity_is_frontier_end Sample.simple_float scenario
           {| pareto_front := [(Float (of_Z 1), Float (of_Z 5));
                               (Float (of_Z 2), Float (of_Z 3));
                               (Float (of_Z 4), Float (of_Z 1))];
              pareto_indices := [0; 1; 3];
              min_y := Float (of_Z 1) |}).
  - reflexivity.
  - discriminate.
Defined.

(** ** The frontier does not depend on the order of the rows *)

Section RowOrder.

Lemma StronglySorted_trichotomy {X : Type} (R : X -> X -> Prop) l a b :
  StronglySorted R l -> In a l -> In b l -> a = b \/ R a b \/ R b a.
Proof.
  induction 1 as [|x l Hs IH Hall]; intros Ha Hb; [destruct Ha|].
  rewrite Forall_forall in Hall.
  destruct Ha as [<-|Ha], Hb as [<-|Hb]; auto.
Qed.

Lemma tied_sym p q : tied p q = tied q p.
Proof. unfold tied. apply andb_comm. Qed.

Lemma tied_leb p q : tied p q = true -> row_leb p q = true /\ row_leb q p = true.
Proof. unfold tied. rewrite andb_true_iff. tauto. Qed.

Lemma tied_trans p q r : tied p q = true -> tied q r = true -> tied p r = true.
Proof.
  intros H1 H2. apply tied_leb in H1, H2. unfold tied.
  apply andb_true_iff. split; eapply row_leb_trans; intuition eauto.
Qed.

Lemma row_ltb_not_tied p q : row_ltb p q = true -> tied p q = false.
Proof.
  intros H. unfold tied. unfold row_leb at 1. rewrite H. reflexivity.
Qed.

Lemma row_ltb_tied_l p p' q :
  row_ltb p q = true -> tied p p' = true -> row_ltb p' q = true.
Proof.
  intros H Ht. apply tied_leb in Ht. destruct Ht as [_ Ht].
  destruct (row_ltb p' q) eqn:E; [reflexivity|].
  assert (Hq : row_leb q p' = true) by (unfold row_leb; now rewrite E).
  pose proof (row_leb_trans _ _ _ Hq Ht) as Hqp.
  unfold row_leb in Hqp. rewrite H in Hqp. discriminate.
Qed.

Lemma row_ltb_tied_r p q q' :
  row_ltb p q = true -> tied q q' = true -> row_ltb p q' = true.
Proof.
  intros H Ht. apply tied_leb in Ht. destruct Ht as [Ht _].
  destruct (row_ltb p q') eqn:E; [reflexivity|].
  assert (Hq : row_leb q' p = true) by (unfold row_leb; now rewrite E).
  pose proof (row_leb_trans _ _ _ Ht Hq) as Hqp.
  unfold row_leb in Hqp. rewrite H in Hqp. discriminate.
Qed.

(** Two strictly sorted lists that meet the same classes of tied rows
    are tied row by row. *)
Lemma strictly_sorted_same_classes l1 :
  forall l2,
    StronglySorted (fun p q => row_ltb p q = true) l1 ->
    StronglySorted (fun p q => row_ltb p q = true) l2 ->
    (forall a, In a l1 -> exists b, In b l2 /\ tied a b = true) ->
    (forall b, In b l2 -> exists a, In a l1 /\ tied b a = true) ->
    Forall2 (fun a b => tied a b = true) l1 l2.
Proof.
  induction l1 as [|x l1 IH]; intros [|y l2] H1 H2 H12 H21.
  - constructor.
  - destruct (H21 y (or_introl eq_refl)) as (a & [] & _).
  - destruct (H12 x (or_introl eq_refl)) as (b & [] & _).
  - apply StronglySorted_inv in H1, H2.
    destruct H1 as [H1 Hx], H2 as [H2 Hy].
    rewrite Forall_forall in Hx, Hy.
    assert (Hxy : tied x y = true).
    { destruct (H12 x (or_introl eq_refl)) as (b & [<-|Hb] & Hxb);
        [assumption|].
      destruct (H21 y (or_introl eq_refl)) as (a & [<-|Ha] & Hya);
        [now rewrite tied_sym|].
      exfalso.
      assert (Hyx : row_ltb y x = true).
      { eapply row_ltb_tied_r; [apply (Hy b Hb)|]. now rewrite tied_sym. }
      assert (Hxy : row_ltb x y = true).
      { eapply row_ltb_tied_r; [apply (Hx a Ha)|]. now rewrite tied_sym. }
      rewrite (row_ltb_asym _ _ Hyx) in Hxy. discriminate. }
    constructor; [exact Hxy|]. apply IH; auto.
    + intros a Ha. destruct (H12 a (or_intror Ha)) as (b & [<-|Hb] & Hab);
        [|eauto].
      exfalso. pose proof (Hx a Ha) as Hlt.
      apply row_ltb_not_tied in Hlt.
      rewrite (tied_trans _ _ _ Hxy (eq_trans (tied_sym _ _) Hab)) in Hlt.
      discriminate.
    + intros b Hb. destruct (H21 b (or_intror Hb)) as (a & [<-|Ha] & Hba);
        [|eauto].
      exfalso. pose proof (Hy b Hb) as Hlt.
      apply row_ltb_not_tied in Hlt.
      rewrite (tied_trans _ _ _ (eq_trans (tied_sym _ _) Hxy)
                          (eq_trans (tied_sym _ _) Hba)) in Hlt.
      discriminate.
Qed.

Lemma emitted_strict rows m out :
  StronglySorted (fun r1 r2 => row_leb r1 r2 = true) rows ->
  emitted rows m = Ok out ->
  StronglySorted
    (fun p q => row_ltb p q = true /\ Py.lt (objB q) (objB p) = Ok true) out.
Proof.
  intros Hs Hout.
  pose proof (emitted_sorted _ _ _ _ Hout Hs) as Hasc.
  pose proof (py_lt_strongly_decreasing _ (emitted_decreasing _ _ _ Hout))
    as Hdec.
  eapply StronglySorted_impl; [|exact (StronglySorted_and _ _ _ Hasc Hdec)].
  intros p q [Hle Hlt]. split; [|exact Hlt].
  apply row_leb_spec in Hle. destruct Hle as [_ Hle].
  apply py_lt_cell_ltb in Hlt. unfold row_ltb, cell_ltb in *.
  destruct (cell_leb (objA q) (objA p)); [|reflexivity].
  rewrite Hle in Hlt by reflexivity. discriminate.
Qed.

Lemma emitted_has_tied merged merged' out out' p :
  Permutation merged merged' ->
  emitted (sort_values merged) (Float inf) = Ok out ->
  emitted (sort_values merged') (Float inf) = Ok out' ->
  In p out -> exists p', In p' out' /\ tied p p' = true.
Proof.
  intros Hperm Hout Hout' Hp.
  destruct (emitted_below _ _ _ _ Hout Hp) as [Hpin Hplt].
  destruct (objB p) as [b|s] eqn:Eb; [|discriminate].
  simpl in Hplt. injection Hplt as Hb.
  assert (Hp' : In p (sort_values merged')).
  { apply sort_values_In. eapply Permutation_in; [exact Hperm|].
    now apply sort_values_In. }
  destruct (emitted_covers _ (sort_values_sorted merged') _ _ _ _
              Hout' Hp' Eb Hb) as (p' & pb' & Hin' & Hle' & Eb' & Hb').
  assert (Hp'' : In p' (sort_values merged)).
  { apply sort_values_In.
    eapply Permutation_in; [apply Permutation_sym, Hperm|].
    apply sort_values_In. eapply emitted_In; eauto. }
  destruct (emitted_covers _ (sort_values_sorted merged) _ _ _ _
              Hout Hp'' Eb' (SFleb_ltb_trans _ _ _ Hb' Hb))
    as (p'' & pb'' & Hin'' & Hle'' & Eb'' & Hb'').
  exists p'. split; [assumption|].
  pose proof (emitted_strict _ _ _ (sort_values_sorted merged) Hout) as Hs.
  destruct (StronglySorted_trichotomy _ _ p'' p Hs Hin'' Hp)
    as [->|[[_ Hlt]|[Hlt _]]].
  - unfold tied. now rewrite Hle', Hle''.
  - exfalso. rewrite Eb, Eb'' in Hlt. simpl in Hlt. injection Hlt as Hlt.
    pose proof (SFleb_trans _ _ _ Hb'' Hb') as Hle.
    rewrite SFleb_ltb in Hle by eauto with floats.
    rewrite Hlt in Hle. discriminate.
  - exfalso. pose proof (row_leb_trans _ _ _ Hle'' Hle') as Hle.
    unfold row_leb in Hle. rewrite Hlt in Hle. discriminate.
Qed.

Lemma tied_same_point p q :
  tied p q = true -> same_point (point_of p) (point_of q).
Proof.
  intros H. apply tied_leb in H. destruct H as [H1 H2].
  apply row_leb_spec in H1, H2. destruct H1 as [Ha1 Hb1], H2 as [Ha2 Hb2].
  unfold same_point, cell_eqv. simpl.
  rewrite Ha1, Ha2, (Hb1 Ha2), (Hb2 Ha1). auto.
Qed.

End RowOrder.

(** X24.  The frontier does not depend on the order of the rows of the
    merged table (hence not on the order in which the merge lists them):
    on a table with the same rows in another order the scan returns
    the same number of points, and point by point the same objectives
    (equal numbers; among several tied records another one may be
    reported). *)
Theorem frontier_order_independent merged merged' st :
  Permutation merged merged' ->
  pareto merged = Ok st ->
  exists st',
    pareto merged' = Ok st' /\
    Forall2 same_point (pareto_front st) (pareto_front st').
Proof.
  intros Hperm H.
  assert (Hcol : float_column merged').
  { intros r Hr. destruct (objB r) as [f|s] eqn:E; [eauto|].
    assert (Hr' : In r merged)
      by (eapply Permutation_in; [apply Permutation_sym, Hperm|exact Hr]).
    rewrite (pareto_raises merged r s Hr' E) in H. discriminate. }
  destruct (pareto_inv _ _ H) as (out & Hout & ->).
  destruct (pareto_returns merged' Hcol) as (out' & Hout' & Hst').
  eexists. split; [exact Hst'|]. simpl.
  assert (Hall : Forall2 (fun a b => tied a b = true) out out').
  { apply strictly_sorted_same_classes.
    - eapply StronglySorted_impl;
        [|exact (emitted_strict _ _ _ (sort_values_sorted merged) Hout)].
      intros a b Hab. apply Hab.
    - eapply StronglySorted_impl;
        [|exact (emitted_strict _ _ _ (sort_values_sorted merged') Hout')].
      intros a b Hab. apply Hab.
    - intros a Ha. eapply emitted_has_tied; eauto.
    - intros b Hb.
      eapply (emitted_has_tied merged' merged); eauto.
      now apply Permutation_sym. }
  clear - Hall. induction Hall as [|a b l l' Hab Hall IH]; simpl;
    constructor; auto using tied_same_point.
Qed.

Lemma frontier_order_independent_witness :
  exists st',
    pareto [Sample.point 3 4 1; Sample.point 2 2 8; Sample.point 1 2 3;
            Sample.point 0 1 5] = Ok st' /\
    Forall2 same_point
            [(Float (of_Z 1), Float (of_Z 5));
             (Float (of_Z 2), Float (of_Z 3));
             (Float (of_Z 4), Float (of_Z 1))]
            (pareto_front st').
Proof.
  apply (frontier_order_independent scenario
           [Sample.point 3 4 1; Sample.point 2 2 8; Sample.point 1 2 3;
            Sample.point 0 1 5]
           {| pareto_front := [(Float (of_Z 1), Float (of_Z 5));
                               (Float (of_Z 2), Float (of_Z 3));
                               (Float (of_Z 4), Float (of_Z 1))];
              pareto_indices := [0; 1; 3];
              min_y := Float (of_Z 1) |}).
  - apply Permutation_rev.
  - reflexivity.
Defined.

(** ** The frontier does not depend on the order of the input tables *)

Section InputOrder.

Lemma Permutation_filter_list {X : Type} (f : X -> bool) (l l' : list X) :
  Permutation l l' -> Permutation (filter f l) (filter f l').
Proof.
  induction 1 as [|x l l' _ IH|x y l|l l' l'' _ IH1 _ IH2]; simpl.
  - constructor.
  - destruct (f x); [now constructor|assumption].
  - destruct (f x), (f y); try reflexivity. constructor.
  - now transitivity (filter f l').
Qed.

Lemma Permutation_flat_map_both {X Y : Type} (f g : X -> list Y) l l' :
  (forall x, Permutation (f x) (g x)) ->
  Permutation l l' -> Permutation (flat_map f l) (flat_map g l').
Proof.
  intros Hfg Hl. transitivity (flat_map g l).
  - clear Hl. induction l as [|x l IH]; simpl; [constructor|].
    now apply Permutation_app.
  - now apply Permutation_flat_map.
Qed.

Lemma join_rows_perm sa_df sa_df' (vina_df vina_df' : list Vina.row) :
  Permutation sa_df sa_df' -> Permutation vina_df vina_df' ->
  Permutation (join_rows sa_df vina_df) (join_rows sa_df' vina_df').
Proof.
  intros Hs Hv. unfold join_rows.
  apply Permutation_flat_map_both; [|exact Hs].
  intros l. apply Permutation_map. now apply Permutation_filter_list.
Qed.

Lemma merge_tables_perm sa_df sa_df' vina_df vina_df' :
  Permutation sa_df sa_df' -> Permutation vina_df vina_df' ->
  Permutation (map snd (merge_tables sa_df vina_df))
              (map snd (merge_tables sa_df' vina_df')).
Proof.
  intros Hs Hv. unfold merge_tables, pd_merge.
  rewrite !reset_index_snd. apply join_rows_perm; [exact Hs|].
  unfold normalize_column. now apply Permutation_map.
Qed.

Lemma same_data_In (m m' : frame merged_row) :
  Permutation (map snd m) (map snd m') ->
  forall r, In r m -> exists q, In q m' /\ snd q = snd r.
Proof.
  intros Hperm r Hr.
  assert (H : In (snd r) (map snd m')).
  { eapply Permutation_in; [exact Hperm|]. now apply in_map. }
  apply in_map_iff in H. destruct H as (q & Hq & Hin). eauto.
Qed.

Lemma same_data_row_leb_l p q r :
  snd p = snd q -> row_leb p r = row_leb q r.
Proof.
  destruct p as [i d], q as [j d']. simpl. intros <-. reflexivity.
Qed.

Lemma same_data_row_leb_r p q r :
  snd p = snd q -> row_leb r p = row_leb r q.
Proof.
  destruct p as [i d], q as [j d']. simpl. intros <-. reflexivity.
Qed.

Lemma same_data_objB p q : snd p = snd q -> objB p = objB q.
Proof. unfold objB. now intros ->. Qed.

Lemma emitted_has_tied_data merged merged' out out' p :
  (forall r, In r merged -> exists q, In q merged' /\ snd q = snd r) ->
  (forall r, In r merged' -> exists q, In q merged /\ snd q = snd r) ->
  emitted (sort_values merged) (Float inf) = Ok out ->
  emitted (sort_values merged') (Float inf) = Ok out' ->
  In p out -> exists p', In p' out' /\ tied p p' = true.
Proof.
  intros H12 H21 Hout Hout' Hp.
  destruct (emitted_below _ _ _ _ Hout Hp) as [Hpin Hplt].
  destruct (objB p) as [b|s] eqn:Eb; [|discriminate].
  simpl in Hplt. injection Hplt as Hb.
  destruct (H12 p (proj1 (sort_values_In _ _) Hpin)) as (q & Hq & Hqp).
  assert (Eq : objB q = Float b)
    by (now rewrite (same_data_objB _ _ Hqp)).
  destruct (emitted_covers _ (sort_values_sorted merged') _ _ _ _
              Hout' (proj2 (sort_values_In _ _) Hq) Eq Hb)
    as (p' & pb' & Hin' & Hle' & Eb' & Hb').
  rewrite (same_data_row_leb_r _ _ _ Hqp) in Hle'.
  destruct (H21 p' (proj1 (sort_values_In _ _)
                          (emitted_In _ _ _ _ Hout' Hin')))
    as (q' & Hq' & Hqp').
  assert (Eq' : objB q' = Float pb')
    by (now rewrite (same_data_objB _ _ Hqp')).
  destruct (emitted_covers _ (sort_values_sorted merged) _ _ _ _
              Hout (proj2 (sort_values_In _ _) Hq') Eq'
              (SFleb_ltb_trans _ _ _ Hb' Hb))
    as (p'' & pb'' & Hin'' & Hle'' & Eb'' & Hb'').
  rewrite (same_data_row_leb_r _ _ _ Hqp') in Hle''.
  exists p'. split; [assumption|].
  pose proof (emitted_strict _ _ _ (sort_values_sorted merged) Hout) as Hs.
  destruct (StronglySorted_trichotomy _ _ p'' p Hs Hin'' Hp)
    as [->|[[_ Hlt]|[Hlt _]]].
  - unfold tied. now rewrite Hle', Hle''.
  - exfalso. rewrite Eb, Eb'' in Hlt. simpl in Hlt. injection Hlt as Hlt.
    pose proof (SFleb_trans _ _ _ Hb'' Hb') as Hle.
    rewrite SFleb_ltb in Hle by eauto with floats.
    rewrite Hlt in Hle. discriminate.
  - exfalso. pose proof (row_leb_trans _ _ _ Hle'' Hle') as Hle.
    unfold row_leb in Hle. rewrite Hlt in Hle. discriminate.
Qed.

End InputOrder.

(** X25.  The frontier does not depend on the order of the rows of the
    two input tables: with the rows of the score table and of the
    affinity table in any other order (for instance the affinity table
    before and after the rank sorter has reordered it), the merge has
    the same rows up to their order and labels, and the scan returns
    the same number of points with equal objectives. *)
Theorem frontier_input_order_independent
  (sa_df sa_df' : list SA.row) (vina_df vina_df' : list Vina.row) st :
  Permutation sa_df sa_df' -> Permutation vina_df vina_df' ->
  pareto (merge_tables sa_df vina_df) = Ok st ->
  Permutation (map snd (merge_tables sa_df vina_df))
              (map snd (merge_tables sa_df' vina_df')) /\
  exists st',
    pareto (merge_tables sa_df' vina_df') = Ok st' /\
    Forall2 same_point (pareto_front st) (pareto_front st').
Proof.
  intros Hs Hv H.
  pose proof (merge_tables_perm _ _ _ _ Hs Hv) as Hperm.
  split; [exact Hperm|].
  set (merged := merge_tables sa_df vina_df) in *.
  set (merged' := merge_tables sa_df' vina_df') in *.
  pose proof (same_data_In _ _ Hperm) as H12.
  pose proof (same_data_In _ _ (Permutation_sym Hperm)) as H21.
  assert (Hcol : float_column merged').
  { intros r Hr. destruct (objB r) as [f|s] eqn:E; [eauto|].
    destruct (H21 r Hr) as (q & Hq & Hqr).
    rewrite (pareto_raises merged q s Hq) in H; [discriminate|].
    now rewrite (same_data_objB _ _ Hqr). }
  destruct (pareto_inv _ _ H) as (out & Hout & ->).
  destruct (pareto_returns merged' Hcol) as (out' & Hout' & Hst').
  eexists. split; [exact Hst'|]. simpl.
  assert (Hall : Forall2 (fun a b => tied a b = true) out out').
  { apply strictly_sorted_same_classes.
    - eapply StronglySorted_impl;
        [|exact (emitted_strict _ _ _ (sort_values_sorted merged) Hout)].
      intros a b Hab. apply Hab.
    - eapply StronglySorted_impl;
        [|exact (emitted_strict _ _ _ (sort_values_sorted merged') Hout')].
      intros a b Hab. apply Hab.
    - intros a Ha.
      exact (emitted_has_tied_data merged merged' out out' a
               H12 H21 Hout Hout' Ha).
    - intros b Hb.
      exact (emitted_has_tied_data merged' merged out' out b
               H21 H12 Hout' Hout Hb). }
  clear - Hall. induction Hall as [|a b l l' Hab Hall IH]; simpl;
    constructor; auto using tied_same_point.
Qed.

Lemma frontier_input_order_independent_witness :
  exists st',
    pareto (merge_tables
              [ {| SA.filename := "2.sdf"; SA.SA_score := Float (of_Z 2) |};
                {| SA.filename := "1.sdf"; SA.SA_score := Float (of_Z 1) |} ]
              [ {| Vina.ligand := "2"; Vina.affinity := Float (of_Z 3) |};
                {| Vina.ligand := "1"; Vina.affinity := Float (of_Z 5) |} ])
    = Ok st' /\
    Forall2 same_point
            [(Float (of_Z 1), Float (of_Z 5));
             (Float (of_Z 2), Float (of_Z 3))]
            (pareto_front st').
Proof.
  apply (frontier_input_order_independent
           [ {| SA.filename := "1.sdf"; SA.SA_score := Float (of_Z 1) |};
             {| SA.filename := "2.sdf"; SA.SA_score := Float (of_Z 2) |} ]
           _
           [ {| Vina.ligand := "1"; Vina.affinity := Float (of_Z 5) |};
             {| Vina.ligand := "2"; Vina.affinity := Float (of_Z 3) |} ]
           _
           {| pareto_front := [(Float (of_Z 1), Float (of_Z 5));
                               (Float (of_Z 2), Float (of_Z 3))];
              pareto_indices := [0; 1];
              min_y := Float (of_Z 3) |}).
  - apply perm_swap.
  - apply perm_swap.
  - reflexivity.
Defined.

(** ** Identifiers that share or leave their files *)

Section SharedFiles.

Lemma substring_none (n : nat) (s : string) : substring n 0 s = "".
Proof.
  revert n. induction s as [|c s IH]; intros [|n]; simpl; auto.
Qed.

Lemma rfind_from_lower (c : ascii) (s : string) (i last : Z) :
  (-1 <= i)%Z -> (-1 <= last)%Z -> (-1 <= rfind_from c s i last)%Z.
Proof.
  revert i last. induction s as [|a s IH]; intros i last Hi Hl; simpl.
  - exact Hl.
  - apply IH; [lia|]. destruct (Ascii.eqb a c); assumption.
Qed.

Lemma splitext_no_dot (x : string) :
  has_char "." x = false -> splitext x = (x, "").
Proof.
  intros H. unfold splitext.
  assert (Hd : rfind "." x = (-1)%Z)
    by (unfold rfind; now apply rfind_from_absent).
  assert (Hs : (-1 <= rfind "/" x)%Z)
    by (unfold rfind; apply rfind_from_lower; lia).
  rewrite Hd.
  assert (Hlt : (rfind "/" x <? -1)%Z = false) by (apply Z.ltb_ge; lia).
  now rewrite Hlt.
Qed.

Lemma no_dot_no_suffix (x : string) :
  has_char "." x = false -> endswith x ".sdf" = false.
Proof.
  intros H. destruct (endswith x ".sdf") eqn:E; [|reflexivity].
  apply endswith_spec in E. destruct E as [p ->].
  rewrite has_char_append in H. apply orb_false_iff in H.
  destruct H as [_ H]. discriminate.
Qed.

Lemma splitext_head (p rest : string) :
  is_absolute (fst (splitext p) ++ String "_" rest) = is_absolute p.
Proof.
  unfold splitext.
  destruct ((rfind "/" p <? rfind "." p)%Z && _) eqn:E; simpl fst.
  - apply andb_true_iff in E. destruct E as [_ E].
    assert (Hs : (-1 <= rfind "/" p)%Z)
      by (unfold rfind; apply rfind_from_lower; lia).
    destruct (Z.to_nat (rfind "." p - rfind "/" p - 1)) as [|k] eqn:Ek.
    { rewrite substring_none in E. discriminate. }
    destruct (Z.to_nat (rfind "." p)) as [|n] eqn:En; [lia|].
    destruct p as [|c p]; reflexivity.
  - destruct p as [|c p]; reflexivity.
Qed.

Lemma sdf_file_head (filename : string) :
  is_absolute (sdf_file filename) = is_absolute filename.
Proof.
  unfold sdf_file. destruct (endswith filename ".sdf"); [reflexivity|].
  destruct filename; reflexivity.
Qed.

Lemma path_join_relative (a b : string) :
  is_absolute b = false -> exists name, path_join a b = (a ++ name)%string.
Proof.
  intros H. unfold path_join. rewrite H.
  destruct (String.eqb a "" || endswith a "/"); eauto.
Qed.

End SharedFiles.

(** X26.  Two identifiers of the frontier can share their files: an
    identifier [x] without dot and slash and the identifier [x.sdf] are
    different strings, yet both read the structure file [x.sdf] and
    write the same image files with the same legends, so that when both
    occur the images of one replace those of the other. *)
Theorem suffixed_identifier_shares_files
  (ligands_dir output_dir x : string) (idx : nat) :
  x <> "" -> has_char "." x = false -> has_char "/" x = false ->
  x <> (x ++ ".sdf")%string /\
  sdf_path ligands_dir x = sdf_path ligands_dir (x ++ ".sdf") /\
  img_path output_dir x idx = img_path output_dir (x ++ ".sdf") idx /\
  forall smiles, legend x smiles = legend (x ++ ".sdf") smiles.
Proof.
  intros Hne Hdot Hsep.
  assert (H1 : splitext x = (x, "")) by now apply splitext_no_dot.
  assert (H2 : splitext (x ++ ".sdf") = (x, ".sdf"))
    by now apply (splitext_stem x "sdf").
  split; [|split; [|split]].
  - intros H. apply (f_equal String.length) in H.
    rewrite length_append in H. simpl in H. lia.
  - unfold sdf_path, sdf_file.
    now rewrite (no_dot_no_suffix x Hdot), endswith_append.
  - unfold img_path. now rewrite H1, H2.
  - intros smiles. unfold legend. now rewrite H1, H2.
Qed.

Lemma suffixed_identifier_shares_files_witness :
  sdf_path "ligands" "7" = sdf_path "ligands" "7.sdf" /\
  img_path "out" "7" 0 = img_path "out" "7.sdf" 0.
Proof.
  destruct (suffixed_identifier_shares_files "ligands" "out" "7" 0)
    as (_ & H1 & H2 & _);
    [discriminate|reflexivity|reflexivity|].
  split; [exact H1|exact H2].
Defined.

(** X27.  Where the files of an identifier lie.  For an identifier that
    does not start with a slash the structure file is looked up under
    the ligands directory and the images are written under the output
    directory (their paths extend the directory names).  For an
    identifier that starts with a slash, [os.path.join] drops the
    directory: the structure file is the identifier's own absolute path
    and the images are written next to it, whatever the output
    directory. *)
Theorem files_of_identifier
  (ligands_dir output_dir filename : string) (idx : nat) :
  (is_absolute filename = false ->
   (exists name,
       sdf_path ligands_dir filename = (ligands_dir ++ name)%string) /\
   (exists name,
       img_path output_dir filename idx = (output_dir ++ name)%string)) /\
  (is_absolute filename = true ->
   sdf_path ligands_dir filename = sdf_file filename /\
   img_path output_dir filename idx =
   (fst (splitext filename) ++ "_mol_" ++ str_of_nat (idx + 1)
        ++ ".png")%string).
Proof.
  split; intros H.
  - split; apply path_join_relative.
    + now rewrite sdf_file_head.
    + exact (eq_trans (splitext_head filename _) H).
  - split.
    + unfold sdf_path, path_join. now rewrite sdf_file_head, H.
    + unfold img_path, path_join.
      pose proof (splitext_head filename
                    ("mol_" ++ str_of_nat (idx + 1) ++ ".png")) as Hh.
      simpl in Hh. cbn [append]. 
      change ("_mol_" ++ str_of_nat (idx + 1) ++ ".png")%string
        with (String "_" ("mol_" ++ str_of_nat (idx + 1) ++ ".png")).
      now rewrite Hh, H.
Qed.

Lemma files_of_identifier_witness :
  sdf_path "ligands" "/tmp/7.sdf" = "/tmp/7.sdf" /\
  img_path "out" "/tmp/7.sdf" 0 = "/tmp/7_mol_1.png".
Proof.
  destruct (proj2 (files_of_identifier "ligands" "out" "/tmp/7.sdf" 0))
    as [H1 H2]; [reflexivity|].
  split; [exact H1|exact H2].
Defined.

(** ** The loop over the frontier *)

Section ImageWriter.

Context {Mol E : Type}.
Variable env : environment Mol E.
Variables ligands_dir output_dir : string.

Lemma for_run_cons {X : Type} (body : X -> run E unit) x l st :
  for_run body (x :: l) st =
  match body x st with
  | (st', Normal _) => for_run body l st'
  | (st', Thrown t) => (st', Thrown t)
  end.
Proof. reflexivity. Qed.

Lemma frontier_loop_cases filenames st :
  frontier_loop env ligands_dir output_dir filenames st =
  match for_run (process_file env ligands_dir output_dir) filenames st with
  | (st', Normal _) => finish env output_dir st'
  | (st', Thrown t) => (st', Thrown t)
  end.
Proof. reflexivity. Qed.

Lemma finish_state st :
  let st' := fst (finish env output_dir st) in
  smiles_list st' = smiles_list st /\
  processed_count st' = processed_count st /\
  images st' = images st.
Proof.
  unfold finish, write_smiles, then_, call, get, print.
  destruct (open_file env _) as [[]|e]; simpl; auto.
Qed.

Lemma finish_opens st :
  open_file env (path_join output_dir "pareto_smiles.txt") = Returns tt ->
  snd (finish env output_dir st) = Normal tt /\
  smiles_txt (fst (finish env output_dir st))
  = Some (smiles_header
            :: map smiles_line (smiles_list (fst (finish env output_dir st)))).
Proof.
  intros Hopen. unfold finish, write_smiles, then_, call, get, print.
  rewrite Hopen. simpl. auto.
Qed.

Lemma for_run_invariant {X : Type} (I : run_state -> Prop)
  (body : X -> run E unit) (l : list X) :
  (forall x st, In x l -> I st -> I (fst (body x st))) ->
  forall st, I st -> I (fst (for_run body l st)).
Proof.
  induction l as [|x l IH]; intros Hbody st Hst; [exact Hst|].
  simpl. unfold then_.
  pose proof (Hbody x st (or_introl eq_refl) Hst) as Hx.
  destruct (body x st) as [st' [[]|t]]; simpl in *.
  - apply IH; [|exact Hx]. intros y s Hy. apply Hbody. now right.
  - exact Hx.
Qed.

Lemma try_except_invariant (I : run_state -> Prop)
  (body : run E unit) (handler : thrown E -> run E unit) st :
  I (fst (body st)) ->
  (forall t s, I s -> I (fst (handler t s))) ->
  I (fst (try_except body handler st)).
Proof.
  intros Hb Hh. unfold try_except.
  destruct (body st) as [st' [[]|t]]; simpl in *; auto.
Qed.

Lemma process_mol_accounted filenames filename it st :
  In (Str filename) filenames ->
  accounted output_dir filenames st ->
  accounted output_dir filenames
            (fst (process_mol env output_dir filename it st)).
Proof.
  intros Hin (H1 & H2 & H3 & H4).
  unfold process_mol, write_image, then_, call, append_smiles, print,
    count_one, ret.
  destruct (snd it) as [mol|]; [|now repeat split].
  destruct (Compute2DCoords env mol) as [mol'|e]; [|now repeat split].
  destruct (MolToSmiles env mol') as [smiles|e]; [|now repeat split].
  assert (H3' : Forall (fun entry => In (Str (fst entry)) filenames)
                       (smiles_list st ++ [(filename, smiles)])).
  { apply Forall_app. split; [exact H3|]. constructor; [exact Hin|].
    constructor. }
  destruct (draw env mol' (legend filename smiles)) as [img_bytes|e];
    simpl.
  - destruct (open_file env (img_path output_dir filename (fst it)))
      as [[]|e]; simpl.
    + unfold accounted. simpl. rewrite !length_app. simpl.
      repeat split; try lia; [exact H3'|].
      apply Forall_app. split; [exact H4|].
      constructor; [|constructor]. simpl. eauto.
    + unfold accounted. simpl. rewrite length_app. simpl.
      repeat split; try lia; assumption.
  - unfold accounted. simpl. rewrite length_app. simpl.
    repeat split; try lia; assumption.
Qed.

Lemma process_file_accounted filenames filename st :
  In filename filenames ->
  accounted output_dir filenames st ->
  accounted output_dir filenames
            (fst (process_file env ligands_dir output_dir filename st)).
Proof.
  intros Hin Hst. destruct filename as [f|filename]; [exact Hst|].
  unfold process_file.
  destruct (negb (path_exists env (sdf_path ligands_dir filename)));
    [exact Hst|].
  apply try_except_invariant; [|intros t s Hs; exact Hs].
  unfold then_, call.
  destruct (SDMolSupplier env (sdf_path ligands_dir filename))
    as [suppl|e]; [|exact Hst].
  apply for_run_invariant; [|exact Hst].
  intros it s _. now apply process_mol_accounted.
Qed.

(** Without failures of the drawing and of the files, every entry of
    [smiles_list] is counted. *)
Lemma process_mol_all_counted filename it st :
  (forall m l, exists b, draw env m l = Returns b) ->
  (forall p, open_file env p = Returns tt) ->
  processed_count st = List.length (smiles_list st) ->
  let st' := fst (process_mol env output_dir filename it st) in
  processed_count st' = List.length (smiles_list st').
Proof.
  intros Hdraw Hopen Hst.
  unfold process_mol, write_image, then_, call, append_smiles, print,
    count_one, ret.
  destruct (snd it) as [mol|]; [|exact Hst].
  destruct (Compute2DCoords env mol) as [mol'|e]; [|exact Hst].
  destruct (MolToSmiles env mol') as [smiles|e]; [|exact Hst].
  destruct (Hdraw mol' (legend filename smiles)) as [b ->].
  rewrite Hopen. simpl. rewrite length_app. simpl. lia.
Qed.

Lemma process_file_all_counted filename st :
  (forall m l, exists b, draw env m l = Returns b) ->
  (forall p, open_file env p = Returns tt) ->
  processed_count st = List.length (smiles_list st) ->
  let st' := fst (process_file env ligands_dir output_dir filename st) in
  processed_count st' = List.length (smiles_list st').
Proof.
  intros Hdraw Hopen Hst. destruct filename as [f|filename]; [exact Hst|].
  unfold process_file.
  destruct (negb (path_exists env (sdf_path ligands_dir filename)));
    [exact Hst|].
  apply (try_except_invariant
           (fun s => processed_count s = List.length (smiles_list s)));
    [|intros t s Hs; exact Hs].
  unfold then_, call.
  destruct (SDMolSupplier env (sdf_path ligands_dir filename))
    as [suppl|e]; [|exact Hst].
  apply (for_run_invariant
           (fun s => processed_count s = List.length (smiles_list s)));
    [|exact Hst].
  intros it s _ Hs. now apply process_mol_all_counted.
Qed.

(** The tail of the function (lines 109-115) changes neither the list
    nor the count nor the images. *)
Lemma frontier_loop_state filenames st :
  let loop := for_run (process_file env ligands_dir output_dir) filenames in
  let st' := fst (frontier_loop env ligands_dir output_dir filenames st) in
  smiles_list st' = smiles_list (fst (loop st)) /\
  processed_count st' = processed_count (fst (loop st)) /\
  images st' = images (fst (loop st)).
Proof.
  intros loop st'. subst loop st'. rewrite frontier_loop_cases.
  destruct (for_run _ filenames st) as [s [[]|t]]; simpl; [|auto].
  apply finish_state.
Qed.

(** *** Completion *)

Lemma process_file_str filename st :
  snd (process_file env ligands_dir output_dir (Str filename) st)
  = Normal tt.
Proof.
  unfold process_file.
  destruct (negb (path_exists env (sdf_path ligands_dir filename)));
    [reflexivity|].
  unfold try_except.
  destruct ((_ <~ _ ;; _) st) as [s [[]|t]]; reflexivity.
Qed.

Lemma for_run_str filenames :
  forallb is_str filenames = true ->
  forall st,
    snd (for_run (process_file env ligands_dir output_dir) filenames st)
    = Normal tt.
Proof.
  induction filenames as [|c l IH]; intros Hall st; [reflexivity|].
  simpl in Hall. apply andb_true_iff in Hall. destruct Hall as [Hc Hl].
  destruct c as [f|filename]; [discriminate|].
  rewrite for_run_cons.
  pose proof (process_file_str filename st) as Hf.
  destruct (process_file env ligands_dir output_dir (Str filename) st)
    as [s r]. simpl in Hf. subst r. now apply IH.
Qed.

Lemma for_run_app {X : Type} (body : X -> run E unit) (l1 l2 : list X) st :
  snd (for_run body l1 st) = Normal tt ->
  for_run body (l1 ++ l2) st = for_run body l2 (fst (for_run body l1 st)).
Proof.
  revert st. induction l1 as [|x l1 IH]; intros st H; [reflexivity|].
  simpl in *. unfold then_ in *.
  destruct (body x st) as [s [[]|t]]; [now apply IH|discriminate].
Qed.

Lemma process_mol_smiles_txt filename it st :
  smiles_txt (fst (process_mol env output_dir filename it st))
  = smiles_txt st.
Proof.
  unfold process_mol, write_image, then_, call, append_smiles, print,
    count_one, ret.
  destruct (snd it) as [mol|]; [|reflexivity].
  destruct (Compute2DCoords env mol) as [mol'|e]; [|reflexivity].
  destruct (MolToSmiles env mol') as [smiles|e]; [|reflexivity].
  destruct (draw env mol' (legend filename smiles)) as [b|e];
    [|reflexivity].
  simpl. destruct (open_file env _) as [[]|e]; reflexivity.
Qed.

Lemma for_run_smiles_txt filenames st :
  smiles_txt st = None ->
  smiles_txt
    (fst (for_run (process_file env ligands_dir output_dir) filenames st))
  = None.
Proof.
  apply (for_run_invariant (fun s => smiles_txt s = None)).
  intros [f|filename] s _ Hs; [exact Hs|].
  unfold process_file.
  destruct (negb (path_exists env (sdf_path ligands_dir filename)));
    [exact Hs|].
  apply (try_except_invariant (fun s => smiles_txt s = None));
    [|intros t s' Hs'; exact Hs'].
  unfold then_, call.
  destruct (SDMolSupplier env (sdf_path ligands_dir filename))
    as [suppl|e]; [|exact Hs].
  apply (for_run_invariant (fun s => smiles_txt s = None)); [|exact Hs].
  intros it s' _ Hs'. now rewrite process_mol_smiles_txt.
Qed.

(** *** Independence of the printed lines *)

Lemma silent_eq st1 st2 :
  silent st1 = silent st2 ->
  smiles_list st1 = smiles_list st2 /\
  processed_count st1 = processed_count st2 /\
  images st1 = images st2 /\
  smiles_txt st1 = smiles_txt st2.
Proof.
  unfold silent. intros H. injection H as H1 H2 H3 H4. auto.
Qed.

Lemma blind_ret {A : Type} (a : A) : console_blind (@ret E A a).
Proof. intros st1 st2 H. split; [exact H|reflexivity]. Qed.

Lemma blind_throw {A : Type} (t : thrown E) : console_blind (@throw E A t).
Proof. intros st1 st2 H. split; [exact H|reflexivity]. Qed.

Lemma blind_call {X : Type} (a : answer E X) : console_blind (call a).
Proof.
  intros st1 st2 H. unfold call. destruct a; split; simpl; auto.
Qed.

Lemma blind_print (s : string) : console_blind (@print E s).
Proof.
  intros st1 st2 H. apply silent_eq in H.
  destruct H as (H1 & H2 & H3 & H4).
  unfold print, silent. simpl. rewrite H1, H2, H3, H4. auto.
Qed.

Lemma blind_append_smiles entry : console_blind (@append_smiles E entry).
Proof.
  intros st1 st2 H. apply silent_eq in H.
  destruct H as (H1 & H2 & H3 & H4).
  unfold append_smiles, silent. simpl. rewrite H1, H2, H3, H4. auto.
Qed.

Lemma blind_count_one : console_blind (@count_one E).
Proof.
  intros st1 st2 H. apply silent_eq in H.
  destruct H as (H1 & H2 & H3 & H4).
  unfold count_one, silent. simpl. rewrite H1, H2, H3, H4. auto.
Qed.

Lemma blind_then {A B : Type} (m : run E A) (k : A -> run E B) :
  console_blind m -> (forall a, console_blind (k a)) ->
  console_blind (then_ m k).
Proof.
  intros Hm Hk st1 st2 H. unfold then_.
  destruct (Hm st1 st2 H) as [Hs Hr].
  destruct (m st1) as [s1 r1], (m st2) as [s2 r2]. simpl in Hs, Hr.
  subst r2. destruct r1 as [a|t]; [now apply Hk|].
  split; [exact Hs|reflexivity].
Qed.

Lemma blind_try_except (body : run E unit) handler :
  console_blind body -> (forall t, console_blind (handler t)) ->
  console_blind (try_except body handler).
Proof.
  intros Hm Hk st1 st2 H. unfold try_except.
  destruct (Hm st1 st2 H) as [Hs Hr].
  destruct (body st1) as [s1 r1], (body st2) as [s2 r2]. simpl in Hs, Hr.
  subst r2. destruct r1 as [[]|t]; [|now apply Hk].
  split; [exact Hs|reflexivity].
Qed.

Lemma blind_for_run {X : Type} (body : X -> run E unit) (l : list X) :
  (forall x, console_blind (body x)) -> console_blind (for_run body l).
Proof.
  intros Hbody. induction l as [|x l IH]; simpl.
  - apply blind_ret.
  - apply blind_then; [apply Hbody|intros _; exact IH].
Qed.

Lemma blind_write_image path img_bytes :
  console_blind (write_image env path img_bytes).
Proof.
  unfold write_image. apply blind_then; [apply blind_call|].
  intros _ st1 st2 H. apply silent_eq in H.
  destruct H as (H1 & H2 & H3 & H4).
  unfold silent. simpl. rewrite H1, H2, H3, H4. auto.
Qed.

Lemma blind_process_mol filename it :
  console_blind (process_mol env output_dir filename it).
Proof.
  unfold process_mol. destruct (snd it) as [mol|]; [|apply blind_ret].
  apply blind_then; [apply blind_call|intros mol'].
  apply blind_then; [apply blind_call|intros smiles].
  apply blind_then; [apply blind_append_smiles|intros _].
  apply blind_then; [apply blind_print|intros _].
  apply blind_then; [apply blind_print|intros _].
  apply blind_then; [apply blind_call|intros img_bytes].
  apply blind_then; [apply blind_write_image|intros _].
  apply blind_count_one.
Qed.

Lemma blind_process_file filename :
  console_blind (process_file env ligands_dir output_dir filename).
Proof.
  unfold process_file. destruct filename as [f|filename];
    [apply blind_throw|].
  destruct (negb (path_exists env (sdf_path ligands_dir filename)));
    [apply blind_print|].
  apply blind_try_except; [|intros t; apply blind_print].
  apply blind_then; [apply blind_call|intros suppl].
  apply blind_for_run. intros it. apply blind_process_mol.
Qed.

Lemma blind_finish : console_blind (finish env output_dir).
Proof.
  intros st1 st2 H. apply silent_eq in H.
  destruct H as (H1 & H2 & H3 & H4).
  unfold finish, write_smiles, then_, call, get, print, silent.
  destruct (open_file env _) as [[]|e]; simpl;
    rewrite H1, H2, H3, ?H4; auto.
Qed.

Lemma for_run_skips_absent filenames :
  forall st1 st2,
    silent st1 = silent st2 ->
    silent (fst (for_run (process_file env ligands_dir output_dir)
                         filenames st1))
    = silent (fst (for_run (process_file env ligands_dir output_dir)
                           (filter (present env ligands_dir) filenames)
                           st2)) /\
    snd (for_run (process_file env ligands_dir output_dir) filenames st1)
    = snd (for_run (process_file env ligands_dir output_dir)
                   (filter (present env ligands_dir) filenames) st2).
Proof.
  induction filenames as [|c l IH]; intros st1 st2 H; [now split|].
  simpl filter. destruct (present env ligands_dir c) eqn:Ec.
  - rewrite !for_run_cons.
    destruct (blind_process_file c st1 st2 H) as [Hs Hr].
    destruct (process_file env ligands_dir output_dir c st1) as [s1 r1],
             (process_file env ligands_dir output_dir c st2) as [s2 r2].
    simpl in Hs, Hr. subst r2.
    destruct r1 as [[]|t]; [now apply IH|]. now split.
  - destruct c as [f|filename]; [discriminate|].
    simpl in Ec. rewrite for_run_cons.
    assert (Hp : process_file env ligands_dir output_dir (Str filename) st1
                 = print ("Warning: SDF file not found: "
                            ++ sdf_path ligands_dir filename) st1).
    { unfold process_file. now rewrite Ec. }
    rewrite Hp. unfold print. apply IH.
    rewrite <- H. reflexivity.
Qed.

End ImageWriter.

(** X28.  The books of the loop: however the calls into RDKit and the
    file system answer, at the end [processed_count] is the number of
    image files written and is at most the length of [smiles_list]
    (an entry is appended before its image is drawn, so a failed
    drawing leaves an entry that is not counted); the entries and the
    images belong to identifiers of the frontier; and when no drawing
    and no opening of a file fails, every entry is counted. *)
Theorem loop_accounts {Mol E : Type} (env : environment Mol E)
  (ligands_dir output_dir : string) (pareto_filenames : list cell) :
  let st := fst (frontier_loop env ligands_dir output_dir pareto_filenames
                               run_init) in
  accounted output_dir pareto_filenames st /\
  ((forall m l, exists b, draw env m l = Returns b) ->
   (forall p, open_file env p = Returns tt) ->
   processed_count st = List.length (smiles_list st)).
Proof.
  intros st.
  destruct (frontier_loop_state env ligands_dir output_dir
              pareto_filenames run_init) as (Hs & Hc & Hi).
  fold st in Hs, Hc, Hi.
  split.
  - unfold accounted. rewrite Hs, Hc, Hi.
    apply (for_run_invariant (accounted output_dir pareto_filenames)).
    + intros c s Hin Hacc. now apply process_file_accounted.
    + unfold accounted, run_init. simpl. auto.
  - intros Hdraw Hopen. rewrite Hs, Hc.
    apply (for_run_invariant
             (fun s => processed_count s = List.length (smiles_list s)));
      [|reflexivity].
    intros c s _ Hacc. now apply process_file_all_counted.
Qed.

Lemma loop_accounts_witness :
  let st := fst (frontier_loop quiet_env "ligands" "out"
                               [Str "1"; Str "2.sdf"] run_init) in
  processed_count st = List.length (smiles_list st).
Proof.
  apply (proj2 (loop_accounts quiet_env "ligands" "out"
                              [Str "1"; Str "2.sdf"])).
  - intros m l. eexists. reflexivity.
  - intros p. reflexivity.
Defined.

(** X29.  How the loop ends.  Exceptions of RDKit and of the image files
    are caught per structure file, so with identifiers that are all
    strings the function reaches line 109 and, when
    [pareto_smiles.txt] opens, returns normally with the header and one
    line per entry of [smiles_list] written.  A cell that is not a
    string (a number or NaN in the frontier table) is not caught: the
    [AttributeError] of [filename.endswith] ends the function after the
    identifiers before it have been processed, and [pareto_smiles.txt]
    is not written. *)
Theorem loop_completion {Mol E : Type} (env : environment Mol E)
  (ligands_dir output_dir : string) :
  (forall pareto_filenames,
      forallb is_str pareto_filenames = true ->
      open_file env (path_join output_dir "pareto_smiles.txt")
      = Returns tt ->
      let r := frontier_loop env ligands_dir output_dir pareto_filenames
                             run_init in
      snd r = Normal tt /\
      smiles_txt (fst r)
      = Some (smiles_header :: map smiles_line (smiles_list (fst r)))) /\
  (forall before x after,
      forallb is_str before = true ->
      let r := frontier_loop env ligands_dir output_dir
                             (before ++ Float x :: after) run_init in
      snd r = Thrown AttributeError /\
      smiles_txt (fst r) = None /\
      fst r = fst (for_run (process_file env ligands_dir output_dir)
                           before run_init)).
Proof.
  split.
  - intros filenames Hall Hopen r. subst r.
    rewrite frontier_loop_cases.
    pose proof (for_run_str env ligands_dir output_dir filenames Hall
                  run_init) as Hr.
    destruct (for_run _ filenames run_init) as [s r]. simpl in Hr.
    subst r. now apply finish_opens.
  - intros before x after Hall r. subst r.
    rewrite frontier_loop_cases.
    pose proof (for_run_str env ligands_dir output_dir before Hall
                  run_init) as Hr.
    rewrite (for_run_app _ before (Float x :: after) run_init Hr).
    pose proof (for_run_smiles_txt env ligands_dir output_dir before
                  run_init eq_refl) as Ht.
    rewrite for_run_cons. simpl. auto.
Qed.

Lemma loop_completion_witness :
  snd (frontier_loop sample_env "ligands" "out" [Str "1"; Str "2.sdf"]
                     run_init) = Normal tt /\
  snd (frontier_loop sample_env "ligands" "out"
                     ([Str "1"] ++ Float nan :: [Str "2.sdf"]) run_init)
  = Thrown AttributeError.
Proof.
  split.
  - apply (proj1 (loop_completion sample_env "ligands" "out")
                 [Str "1"; Str "2.sdf"]); reflexivity.
  - apply (proj2 (loop_completion sample_env "ligands" "out")
                 [Str "1"] nan [Str "2.sdf"]); reflexivity.
Defined.

(** X30.  An identifier whose structure file is absent leaves nothing
    but a warning: the function completes in the same way, with the
    same [smiles_list], count, images and [pareto_smiles.txt], as on
    the frontier without these identifiers; only the printed lines
    differ. *)
Theorem absent_files_leave_no_trace {Mol E : Type}
  (env : environment Mol E) (ligands_dir output_dir : string)
  (pareto_filenames : list cell) :
  let r := frontier_loop env ligands_dir output_dir pareto_filenames
                         run_init in
  let r' := frontier_loop env ligands_dir output_dir
                          (filter (present env ligands_dir) pareto_filenames)
                          run_init in
  silent (fst r) = silent (fst r') /\ snd r = snd r'.
Proof.
  intros r r'. subst r r'. rewrite !frontier_loop_cases.
  destruct (for_run_skips_absent env ligands_dir output_dir
              pareto_filenames run_init run_init eq_refl) as [Hs Hr].
  destruct (for_run _ pareto_filenames run_init) as [s1 r1],
           (for_run _ (filter _ pareto_filenames) run_init) as [s2 r2].
  simpl in Hs, Hr. subst r2.
  destruct r1 as [[]|t]; [|now split].
  exact (blind_finish env output_dir s1 s2 Hs).
Qed.
